(** * sms-dashboard: the message dispatch engine of [app.py]

    A shallow embedding of the SQLite-backed dispatch engine: the tables
    as lists of rows (in rowid order), the SQL statements as list functions,
    and the Python control flow in a small state-and-exception monad whose
    world carries the store, a logical step counter and the log of provider
    calls.  Wall-clock reads ([datetime('now')], [time.time()]), the
    Africa's Talking SDK and sqlite3 failures are oracles indexed by the
    step counter.  Each handler runs as one sequential operation, and so
    does a tick, except where it is run among the commits of handler
    threads ([process_queue_tick_among]); ids that come from a URL path are
    unbounded Python ints, checked against SQLite's 64-bit INTEGER when
    they are bound; text is ASCII, timestamps are seconds since the
    epoch. *)

From Stdlib Require Import ZArith List String Ascii Bool Lia Arith.
From Stdlib Require Import Permutation Sorted DecimalString.
Import ListNotations.
Local Open Scope string_scope.
Local Open Scope list_scope.
Local Open Scope Z_scope.

(** ** Strings as Python and SQLite see them (ASCII text) *)

Module Str.

Definition is_upper (c : ascii) : bool :=
  let n := nat_of_ascii c in (65 <=? n)%nat && (n <=? 90)%nat.

(** [str.lower] / SQLite [lower()] on one ASCII character. *)
Definition lower_ascii (c : ascii) : ascii :=
  if is_upper c then ascii_of_nat (nat_of_ascii c + 32) else c.

Fixpoint lower (s : string) : string :=
  match s with
  | EmptyString => EmptyString
  | String c s' => String (lower_ascii c) (lower s')
  end.

(** Characters removed by [str.strip()] in the ASCII range. *)
Definition is_space (c : ascii) : bool :=
  let n := nat_of_ascii c in
  ((9 <=? n)%nat && (n <=? 13)%nat) || ((28 <=? n)%nat && (n <=? 32)%nat).

Fixpoint lstrip (s : string) : string :=
  match s with
  | EmptyString => EmptyString
  | String c s' => if is_space c then lstrip s' else s
  end.

Fixpoint rstrip (s : string) : string :=
  match s with
  | EmptyString => EmptyString
  | String c s' =>
      match rstrip s' with
      | EmptyString => if is_space c then EmptyString else String c EmptyString
      | r => String c r
      end
  end.

Definition strip (s : string) : string := rstrip (lstrip s).

Fixpoint starts_with (p s : string) : bool :=
  match p, s with
  | EmptyString, _ => true
  | String a p', String b s' => Ascii.eqb a b && starts_with p' s'
  | String _ _, EmptyString => false
  end.

(** [s.replace(old, new)] for a non-empty [old]: leftmost, non-overlapping.
    [skip] counts the characters of a matched [old] still to be dropped. *)
Fixpoint replace_from (old new : string) (skip : nat) (s : string) : string :=
  match s with
  | EmptyString => EmptyString
  | String c s' =>
      match skip with
      | S k => replace_from old new k s'
      | O =>
          if starts_with old s
          then (new ++ replace_from old new (String.length old - 1) s')%string
          else String c (replace_from old new O s')
      end
  end.

Definition replace (old new s : string) : string := replace_from old new O s.

(** [str(n)] for a Python int. *)
Definition of_Z (z : Z) : string := NilZero.string_of_int (Z.to_int z).

(** [s.split(",")]. *)
Fixpoint split_on (sep : ascii) (s : string) : list string :=
  match s with
  | EmptyString => [EmptyString]
  | String c s' =>
      if Ascii.eqb c sep then EmptyString :: split_on sep s'
      else match split_on sep s' with
           | [] => [String c EmptyString]
           | t :: ts => String c t :: ts
           end
  end.

(** [f] holds of [s] or of [s] with some leading characters dropped. *)
Fixpoint after_any (f : string -> bool) (s : string) : bool :=
  f s ||
  match s with
  | EmptyString => false
  | String _ s' => after_any f s'
  end.

(** SQLite's [LIKE]: [%] matches any run of characters, [_] exactly one,
    every other character matches itself up to ASCII case.  No [ESCAPE]
    clause is in force. *)
Fixpoint like (pat s : string) {struct pat} : bool :=
  match pat with
  | EmptyString => match s with EmptyString => true | _ => false end
  | String p pat' =>
      if Ascii.eqb p "%" then after_any (like pat') s
      else if Ascii.eqb p "_" then
        match s with
        | EmptyString => false
        | String _ s' => like pat' s'
        end
      else
        match s with
        | EmptyString => false
        | String c s' => Ascii.eqb (lower_ascii p) (lower_ascii c) && like pat' s'
        end
  end.

End Str.

(** ** The data model: one record per table row *)

Definition Time := Z.            (* seconds since the epoch, UTC *)

(** SQLite's [date(t)]: the calendar day of a timestamp. *)
Definition date (t : Time) : Z := t / 86400.

Inductive Status := queued | sending | sent | failed | skipped.

Definition status_eqb (a b : Status) : bool :=
  match a, b with
  | queued, queued | sending, sending | sent, sent
  | failed, failed | skipped, skipped => true
  | _, _ => false
  end.

Record Contact := mkContact {
  c_id : Z;
  c_name : string;
  c_phone : string;
  c_consented : Z;
  c_opted_out : Z;
  c_tags : string;
  c_created_at : Time
}.

Record Campaign := mkCampaign {
  g_id : Z;
  g_name : string;
  g_message_template : string;
  g_target_tag : string;
  g_created_at : Time;
  g_started_at : option Time;
  g_completed_at : option Time
}.

Record Message := mkMessage {
  m_id : Z;
  m_campaign_id : Z;
  m_contact_id : Z;
  m_to_phone : string;
  m_body : string;
  m_status : Status;
  m_provider_id : option string;
  m_error : option string;
  m_created_at : Time;
  m_sent_at : option Time
}.

(** The four tables, and the entry of table [contacts] in [sqlite_sequence]
    (the largest rowid SQLite has generated for it so far).  Campaigns and
    messages are only ever inserted, so their entry is their largest id and
    is not kept apart. *)
Record DB := mkDB {
  contacts : list Contact;
  campaigns : list Campaign;
  messages : list Message;
  audit_log : list (string * string);
  contacts_seq : Z
}.

(** [init_db] on a fresh file: the four tables, all empty. *)
Definition empty_db : DB := mkDB [] [] [] [] 0.

(** Module-level configuration read from the environment. *)
Record Config := mkConfig {
  env_SEND_PER_SECOND : Z;
  env_MAX_DAILY_PER_CONTACT : Z;
  AT_API_KEY : string;
  PUBLIC_BASE_URL : string
}.

Definition SEND_PER_SECOND (cfg : Config) : Z :=
  Z.max 1 (Z.min 30 (env_SEND_PER_SECOND cfg)).

Definition MAX_DAILY_PER_CONTACT (cfg : Config) : Z :=
  Z.max 1 (Z.min 20 (env_MAX_DAILY_PER_CONTACT cfg)).

(** ** The environment and the effect monad *)

(** What the engine reads from one entry of the SDK's
    [resp["SMSMessageData"]["Recipients"]]. *)
Record Recipient := mkRecipient {
  at_status : option string;
  at_statusCode : option Z;
  at_messageId : option string
}.

(** The SDK call [sms.send] raises, or returns a response whose first recipient
    entry is [rec] ([None] when it is missing or an empty dict). *)
Inductive SdkResult :=
| SdkRaises (text : string)
| SdkResponse (rec : option Recipient).

(** Oracles, indexed by the logical step at which the engine consults them. *)
Record Env := mkEnv {
  clock : nat -> Time;
  sms_send : nat -> string -> string -> SdkResult;
  store_fault : nat -> option string
}.

Inductive exn :=
| Exception (text : string)
| HTTPException (status_code : Z) (detail : string).

(** [str(e)]. *)
Definition str (e : exn) : string :=
  match e with
  | Exception t => t
  | HTTPException c d => (Str.of_Z c ++ ": " ++ d)%string
  end.

(** One provider call, tagged with the message it was made for. *)
Record Call := mkCall { call_msg : Z; call_to : string; call_body : string }.

Record World := mkWorld {
  w_db : DB;
  w_steps : nat;
  w_calls : list Call
}.

Definition M (A : Type) : Type := World -> (A + exn) * World.

Definition ret {A} (a : A) : M A := fun w => (inl a, w).

Definition bind {A B} (c : M A) (k : A -> M B) : M B := fun w =>
  match c w with
  | (inl a, w') => k a w'
  | (inr e, w') => (inr e, w')
  end.

Definition raise {A} (e : exn) : M A := fun w => (inr e, w).

(** [try: body / except Exception as e: handler(e)]. *)
Definition try_except {A} (body : M A) (handler : exn -> M A) : M A := fun w =>
  match body w with
  | (inl a, w') => (inl a, w')
  | (inr e, w') => handler e w'
  end.

Declare Scope monad_scope.
Delimit Scope monad_scope with monad.
Notation "x <- c ;; k" := (bind c (fun x => k))
  (at level 61, c at next level, right associativity) : monad_scope.
Notation "c ;; k" := (bind c (fun _ => k))
  (at level 61, right associativity) : monad_scope.
Local Open Scope monad_scope.

Fixpoint for_each {A} (body : A -> M unit) (l : list A) : M unit :=
  match l with
  | [] => ret tt
  | x :: xs => body x ;; for_each body xs
  end.

Definition next_step (w : World) : World :=
  mkWorld (w_db w) (S (w_steps w)) (w_calls w).

Section Engine.

Variable cfg : Config.
Variable env : Env.

(** A [SELECT]: it sees the store and [datetime('now')] of its step, or the
    sqlite3 call raises. *)
Definition sql_query {A} (q : DB -> Time -> A) : M A := fun w =>
  match store_fault env (w_steps w) with
  | Some e => (inr (Exception e), next_step w)
  | None => (inl (q (w_db w) (clock env (w_steps w))), next_step w)
  end.

(** An [INSERT]/[UPDATE] statement; when the sqlite3 call raises the store
    is left as it was. *)
Definition sql_exec (u : DB -> Time -> DB) : M unit := fun w =>
  match store_fault env (w_steps w) with
  | Some e => (inr (Exception e), next_step w)
  | None =>
      (inl tt, mkWorld (u (w_db w) (clock env (w_steps w))) (S (w_steps w)) (w_calls w))
  end.

(** Statements up to [conn.commit()]: an exception raised before the commit
    leaves none of them in the store. *)
Definition transaction {A} (body : M A) : M A := fun w =>
  match body w with
  | (inl a, w') => (inl a, w')
  | (inr e, w') => (inr e, mkWorld (w_db w) (w_steps w') (w_calls w'))
  end.

(** Binding a Python int to a [?] of a statement.  The ids that handlers
    take from the URL path are unbounded Python ints; sqlite3 raises
    OverflowError, before the statement runs, for one that is outside
    SQLite's 64-bit INTEGER. *)
Definition fits_int64 (z : Z) : bool := (- 2 ^ 63 <=? z) && (z <? 2 ^ 63).

Definition OverflowError : exn :=
  Exception "Python int too large to convert to SQLite INTEGER".

Definition bind_int (z : Z) : M unit :=
  if fits_int64 z then ret tt else raise OverflowError.

Definition audit (action meta : string) : M unit :=
  sql_exec (fun d _ =>
    mkDB (contacts d) (campaigns d) (messages d) (audit_log d ++ [(action, meta)])
         (contacts_seq d)).

(** *** Africa's Talking *)

Definition truthy_str (o : option string) : option string :=
  match o with
  | Some EmptyString | None => None
  | Some s => Some s
  end.

Definition py_opt (o : option string) : string :=
  match o with Some s => s | None => "None" end.

Definition send_sms_africastalking (mid : Z) (to_phone body : string) : M string :=
  fun w =>
  let i := w_steps w in
  let w' := mkWorld (w_db w) (S i) (w_calls w ++ [mkCall mid to_phone body]) in
  if String.eqb (AT_API_KEY cfg) "" then
    (inr (Exception "Africa's Talking not configured. Set AT_API_KEY in .env"),
     next_step w)
  else
    let at_time := ("at_" ++ Str.of_Z (clock env i))%string in
    match sms_send env i to_phone body with
    | SdkRaises e => (inr (Exception e), w')
    | SdkResponse None => (inl at_time, w')
    | SdkResponse (Some rec) =>
        let status :=
          Str.lower (match truthy_str (at_status rec) with Some s => s | None => "" end) in
        if negb (String.eqb status "success") then
          (inr (Exception ("AT send failed: " ++ py_opt (at_status rec) ++ " (" ++
                           match at_statusCode rec with
                           | Some c => Str.of_Z c
                           | None => "None"
                           end ++ ")")%string), w')
        else
          (inl match truthy_str (at_messageId rec) with
               | Some s => s
               | None =>
                   match at_statusCode rec with
                   | Some c => if c =? 0 then at_time else Str.of_Z c
                   | None => at_time
                   end
               end, w')
    end.

(** *** The dispatch tick *)

(** A row of the batch [SELECT m.*, c.consented, c.opted_out]. *)
Record Row := mkRow { r_msg : Message; r_consented : Z; r_opted_out : Z }.

Definition is_queued (m : Message) : bool := status_eqb (m_status m) queued.

(** [messages m JOIN contacts c ON c.id = m.contact_id]. *)
Definition join_contacts (cs : list Contact) (ms : list Message) : list Row :=
  flat_map (fun m =>
    map (fun c => mkRow m (c_consented c) (c_opted_out c))
        (filter (fun c => c_id c =? m_contact_id m) cs)) ms.

(** [ORDER BY m.created_at ASC], ties left in scan order. *)
Fixpoint insert_row (r : Row) (l : list Row) : list Row :=
  match l with
  | [] => [r]
  | x :: xs =>
      if m_created_at (r_msg r) <=? m_created_at (r_msg x)
      then r :: l
      else x :: insert_row r xs
  end.

Fixpoint order_by_created_at (l : list Row) : list Row :=
  match l with
  | [] => []
  | r :: rs => insert_row r (order_by_created_at rs)
  end.

Definition select_queued (limit : Z) (d : DB) : list Row :=
  firstn (Z.to_nat limit)
    (order_by_created_at (join_contacts (contacts d) (filter is_queued (messages d)))).

Definition sent_on_day (contact_id : Z) (day : Z) (m : Message) : bool :=
  (m_contact_id m =? contact_id) && status_eqb (m_status m) sent &&
  match m_sent_at m with
  | Some t => date t =? day
  | None => false
  end.

(** [SELECT COUNT( * ) ... WHERE contact_id=? AND status='sent'
    AND date(sent_at)=date('now')]. *)
Definition sent_today (contact_id : Z) (d : DB) (now : Time) : Z :=
  Z.of_nat (List.length (filter (sent_on_day contact_id (date now)) (messages d))).

Definition count_sent_today (contact_id : Z) : M Z :=
  sql_query (sent_today contact_id).

(** [UPDATE messages SET ... WHERE id=?]. *)
Definition update_message (id : Z) (f : Message -> Message) (d : DB) : DB :=
  mkDB (contacts d) (campaigns d)
       (map (fun m => if m_id m =? id then f m else m) (messages d))
       (audit_log d) (contacts_seq d).

Definition set_skipped (reason : string) (m : Message) : Message :=
  mkMessage (m_id m) (m_campaign_id m) (m_contact_id m) (m_to_phone m) (m_body m)
            skipped (m_provider_id m) (Some reason) (m_created_at m) (m_sent_at m).

Definition set_sending (m : Message) : Message :=
  mkMessage (m_id m) (m_campaign_id m) (m_contact_id m) (m_to_phone m) (m_body m)
            sending (m_provider_id m) (m_error m) (m_created_at m) (m_sent_at m).

Definition set_sent (provider_id : string) (now : Time) (m : Message) : Message :=
  mkMessage (m_id m) (m_campaign_id m) (m_contact_id m) (m_to_phone m) (m_body m)
            sent (Some provider_id) (m_error m) (m_created_at m) (Some now).

Definition set_failed (error : string) (m : Message) : Message :=
  mkMessage (m_id m) (m_campaign_id m) (m_contact_id m) (m_to_phone m) (m_body m)
            failed (m_provider_id m) (Some error) (m_created_at m) (m_sent_at m).

(** The body of [for m in rows]. *)
Definition process_message (r : Row) : M unit :=
  let m := r_msg r in
  if negb (r_consented r =? 1) || (r_opted_out r =? 1) then
    sql_exec (fun d _ => update_message (m_id m) (set_skipped "no consent or opted out") d)
  else
    n <- count_sent_today (m_contact_id m) ;;
    if MAX_DAILY_PER_CONTACT cfg <=? n then
      sql_exec (fun d _ => update_message (m_id m) (set_skipped "daily cap reached") d)
    else
      sql_exec (fun d _ => update_message (m_id m) set_sending d) ;;
      try_except
        (provider_id <- send_sms_africastalking (m_id m) (m_to_phone m) (m_body m) ;;
         sql_exec (fun d now => update_message (m_id m) (set_sent provider_id now) d))
        (fun e => sql_exec (fun d _ => update_message (m_id m) (set_failed (str e)) d)).

Definition is_some {A} (o : option A) : bool :=
  match o with Some _ => true | None => false end.

Definition in_flight (m : Message) : bool :=
  status_eqb (m_status m) queued || status_eqb (m_status m) sending.

Definition set_completed (now : Time) (c : Campaign) : Campaign :=
  mkCampaign (g_id c) (g_name c) (g_message_template c) (g_target_tag c)
             (g_created_at c) (g_started_at c) (Some now).

Definition update_campaign (id : Z) (f : Campaign -> Campaign) (d : DB) : DB :=
  mkDB (contacts d)
       (map (fun c => if g_id c =? id then f c else c) (campaigns d))
       (messages d) (audit_log d) (contacts_seq d).

(** [SELECT id FROM campaigns WHERE started_at IS NOT NULL AND completed_at IS NULL]. *)
Definition started_open (c : Campaign) : bool :=
  is_some (g_started_at c) && negb (is_some (g_completed_at c)).

Definition select_started (d : DB) : list Z :=
  map g_id (filter started_open (campaigns d)).

(** [SELECT COUNT( * ) FROM messages WHERE campaign_id=? AND status IN ('queued','sending')]. *)
Definition count_left (campaign_id : Z) (d : DB) : Z :=
  Z.of_nat (List.length
    (filter (fun m => (m_campaign_id m =? campaign_id) && in_flight m) (messages d))).

(** The body of [for c in started]. *)
Definition close_if_drained (campaign_id : Z) : M unit :=
  left <- sql_query (fun d _ => count_left campaign_id d) ;;
  if left =? 0 then
    sql_exec (fun d now => update_campaign campaign_id (set_completed now) d)
  else ret tt.

(** "Mark campaigns completed if nothing queued/sending for that campaign". *)
Definition mark_completed : M unit :=
  started <- sql_query (fun d _ => select_started d) ;;
  for_each close_if_drained started.

Definition process_queue_tick : M unit :=
  rows <- sql_query (fun d _ => select_queued (SEND_PER_SECOND cfg) d) ;;
  for_each process_message rows ;;
  mark_completed.

(** One turn of [worker_loop]: a tick whose exception is printed and dropped. *)
Definition worker_turn : M unit :=
  try_except process_queue_tick (fun _ => ret tt).

Fixpoint worker_loop (turns : nat) : M unit :=
  match turns with
  | O => ret tt
  | S k => worker_turn ;; worker_loop k
  end.

(** *** Campaign activation and the other writers of the store *)

(** [INTEGER PRIMARY KEY AUTOINCREMENT]: one more than the largest of the
    rowids the table has used.  For campaigns and messages, which are only
    ever inserted, these are the stored ids; for contacts see
    [new_contact_id]. *)
Definition next_rowid (ids : list Z) : Z := 1 + fold_right Z.max 0 ids.

Definition render_template (tpl : string) (contact : Contact) : string :=
  let s := tpl in
  let s := Str.replace "{{name}}" (c_name contact) s in
  let s := Str.replace "{{phone}}" (c_phone contact) s in
  let s := Str.replace "{{tags}}" (c_tags contact) s in
  s.

Definition newline : string := String (ascii_of_nat 10) EmptyString.

Definition eligible (c : Contact) : bool :=
  (c_consented c =? 1) && (c_opted_out c =? 0).

(** The two recipient queries of [campaigns_start]. *)
Definition select_recipients (tag : string) (d : DB) : list Contact :=
  if negb (String.eqb tag "") then
    filter (fun c =>
      eligible c &&
      Str.like ("%," ++ Str.lower tag ++ ",%")%string
               ("," ++ Str.lower (c_tags c) ++ ",")%string) (contacts d)
  else
    filter eligible (contacts d).

Definition set_started (now : Time) (c : Campaign) : Campaign :=
  mkCampaign (g_id c) (g_name c) (g_message_template c) (g_target_tag c)
             (g_created_at c) (Some now) (g_completed_at c).

Definition insert_message (campaign_id contact_id : Z) (to_phone body : string)
    (d : DB) (now : Time) : DB :=
  mkDB (contacts d) (campaigns d)
       (messages d ++
        [mkMessage (next_rowid (map m_id (messages d))) campaign_id contact_id
                   to_phone body queued None None now None])
       (audit_log d) (contacts_seq d).

(** The body queued for one recipient: the rendered template, stripped,
    and the opt-out line with the recipient's unsubscribe link. *)
Definition message_body (camp : Campaign) (c : Contact) : string :=
  let unsub_base := (PUBLIC_BASE_URL cfg ++ "/u")%string in
  let unsub := (unsub_base ++ "/" ++ c_phone c)%string in
  let body := render_template (g_message_template camp) c in
  (Str.strip body ++ newline ++ "Opt out: " ++ unsub)%string.

Definition campaigns_start (campaign_id : Z) : M unit :=
  n <- transaction (
    bind_int campaign_id ;;
    camp <- sql_query (fun d _ =>
      find (fun c => g_id c =? campaign_id) (campaigns d)) ;;
    match camp with
    | None => raise (HTTPException 404 "Campaign not found")
    | Some camp =>
        let tag := Str.strip (g_target_tag camp) in
        recipients <- sql_query (fun d _ => select_recipients tag d) ;;
        sql_exec (fun d now => update_campaign campaign_id (set_started now) d) ;;
        for_each (fun c =>
          sql_exec (insert_message campaign_id (c_id c) (c_phone c)
                                   (message_body camp c))) recipients ;;
        ret (Z.of_nat (List.length recipients))
    end) ;;
  audit "campaign_started"
        ("id=" ++ Str.of_Z campaign_id ++ ",queued=" ++ Str.of_Z n)%string.

Definition insert_campaign (name message_template target_tag : string)
    (d : DB) (now : Time) : DB :=
  mkDB (contacts d)
       (campaigns d ++
        [mkCampaign (next_rowid (map g_id (campaigns d))) name message_template
                    target_tag now None None])
       (messages d) (audit_log d) (contacts_seq d).

(** [cur.lastrowid] after the insert into [campaigns]. *)
Definition lastrowid : M Z := fun w =>
  (inl (fold_right Z.max 0 (map g_id (campaigns (w_db w)))), w).

Definition campaigns_create (name message_template target_tag : string) : M unit :=
  sql_exec (insert_campaign (Str.strip name) (Str.strip message_template)
                            (Str.strip target_tag)) ;;
  cid <- lastrowid ;;
  audit "campaign_created" ("id=" ++ Str.of_Z cid)%string.

(** The rowid that [AUTOINCREMENT] generates for an [INSERT] into contacts:
    one more than the larger of the table's entry in [sqlite_sequence] and
    its largest rowid. *)
Definition new_contact_id (d : DB) : Z :=
  next_rowid (contacts_seq d :: map c_id (contacts d)).

(** [INSERT INTO contacts ... ON CONFLICT(phone) DO UPDATE SET ...].  The
    rowid is generated before the conflict on [phone] is seen, and is
    written to [sqlite_sequence] also when the statement ends as an
    [UPDATE]: an upsert of a known phone uses up an id. *)
Definition upsert_contact (name phone tags : string) (consented : Z)
    (d : DB) (now : Time) : DB :=
  mkDB
    (if existsb (fun c => String.eqb (c_phone c) phone) (contacts d) then
       map (fun c =>
         if String.eqb (c_phone c) phone then
           mkContact (c_id c) name (c_phone c) (Z.max (c_consented c) consented)
                     (c_opted_out c) tags (c_created_at c)
         else c) (contacts d)
     else
       contacts d ++
       [mkContact (new_contact_id d) name phone consented 0 tags now])
    (campaigns d) (messages d) (audit_log d) (new_contact_id d).

Definition contacts_add (name phone tags : string) (consented : option string) : M unit :=
  sql_exec (upsert_contact (Str.strip name) (Str.strip phone) (Str.strip tags)
                           (if is_some (truthy_str consented) then 1 else 0)) ;;
  audit "contact_added" (Str.strip phone).

(** One row of [csv.DictReader]: the four columns the import reads. *)
Record CsvRow := mkCsvRow {
  csv_phone : option string;
  csv_name : option string;
  csv_consented : option string;
  csv_tags : option string
}.

Definition or_empty (o : option string) : string :=
  match truthy_str o with Some s => s | None => "" end.

Definition csv_importable (row : CsvRow) : bool :=
  negb (String.eqb (Str.strip (or_empty (csv_phone row))) "").

Definition contacts_import_csv (rows : list CsvRow) : M unit :=
  transaction (
    for_each (fun row =>
      let phone := Str.strip (or_empty (csv_phone row)) in
      let name := Str.strip (or_empty (csv_name row)) in
      let tags := Str.strip (or_empty (csv_tags row)) in
      let c := Str.lower (Str.strip (or_empty (csv_consented row))) in
      let consented :=
        if String.eqb c "1" || String.eqb c "true" || String.eqb c "yes" ||
           String.eqb c "y" then 1 else 0 in
      sql_exec (upsert_contact name phone tags consented))
      (filter csv_importable rows)) ;;
  audit "contacts_import_csv"
        ("count=" ++ Str.of_Z (Z.of_nat (List.length (filter csv_importable rows))))%string.

Definition set_opted_out (c : Contact) : Contact :=
  mkContact (c_id c) (c_name c) (c_phone c) (c_consented c) 1 (c_tags c)
            (c_created_at c).

Definition update_contacts (sel : Contact -> bool) (f : Contact -> Contact)
    (d : DB) : DB :=
  mkDB (map (fun c => if sel c then f c else c) (contacts d))
       (campaigns d) (messages d) (audit_log d) (contacts_seq d).

Definition contact_optout (contact_id : Z) : M unit :=
  bind_int contact_id ;;
  sql_exec (fun d _ => update_contacts (fun c => c_id c =? contact_id) set_opted_out d) ;;
  audit "contact_optout_admin" (Str.of_Z contact_id).

Definition unsubscribe (phone : string) : M unit :=
  sql_exec (fun d _ =>
    update_contacts (fun c => String.eqb (c_phone c) phone) set_opted_out d) ;;
  audit "contact_optout_public" phone.

(** [CREATE TABLE IF NOT EXISTS] on a store that has its tables. *)
Definition init_db : M unit := sql_exec (fun d _ => d).

(** [startup]: the schema is ensured and the worker task is created; no
    row of any table is read or written before the first tick. *)
Definition startup : M unit := init_db.

(** Everything that writes to the store. *)
Inductive Op :=
| OpStartup
| OpTick
| OpContactsAdd (name phone tags : string) (consented : option string)
| OpContactsImportCsv (rows : list CsvRow)
| OpContactOptout (contact_id : Z)
| OpCampaignsCreate (name message_template target_tag : string)
| OpCampaignsStart (campaign_id : Z)
| OpUnsubscribe (phone : string).

Definition run_op (op : Op) : M unit :=
  match op with
  | OpStartup => startup
  | OpTick => process_queue_tick
  | OpContactsAdd name phone tags consented => contacts_add name phone tags consented
  | OpContactsImportCsv rows => contacts_import_csv rows
  | OpContactOptout contact_id => contact_optout contact_id
  | OpCampaignsCreate name tpl tag => campaigns_create name tpl tag
  | OpCampaignsStart campaign_id => campaigns_start campaign_id
  | OpUnsubscribe phone => unsubscribe phone
  end.

(** A history: operations run one after the other, each ending normally or
    with an exception that its caller (the HTTP layer, [worker_loop])
    absorbs. *)
Fixpoint run_ops (ops : list Op) (w : World) : World :=
  match ops with
  | [] => w
  | op :: rest => run_ops rest (snd (run_op op w))
  end.

(** *** The tick among the handlers

    [process_queue_tick] runs on the event loop, while the handlers are
    plain [def]s that run in worker threads, each on a connection of its
    own: what they commit while the tick is between two rows is in the
    store when the tick goes on.  [during k] are the handler calls that
    commit after the batch [SELECT] and the first [k] rows, before the next
    row is processed.  The rows themselves are the ones the [SELECT]
    fetched: the loop does not read them again. *)
Definition commits (ops : list Op) : M unit := fun w => (inl tt, run_ops ops w).

Fixpoint process_rows_among (during : nat -> list Op) (k : nat) (rows : list Row)
    : M unit :=
  match rows with
  | [] => ret tt
  | r :: rest =>
      commits (during k) ;;
      process_message r ;;
      process_rows_among during (S k) rest
  end.

Definition process_queue_tick_among (during : nat -> list Op) : M unit :=
  rows <- sql_query (fun d _ => select_queued (SEND_PER_SECOND cfg) d) ;;
  process_rows_among during 0 rows ;;
  mark_completed.

End Engine.

(** ** A small store to run the engine on *)

Module Demo.

(** Rate limit 2, daily cap 1. *)
Definition cfg : Config := mkConfig 2 1 "key" "http://127.0.0.1:8000".

Definition accepted : SdkResult :=
  SdkResponse (Some (mkRecipient (Some "Success") (Some 101) (Some "ATXid_1"))).

(** A clock that advances one second per step, a provider that accepts
    every message, a store that never fails. *)
Definition env : Env :=
  mkEnv (fun i => 100000 + Z.of_nat i) (fun _ _ _ => accepted) (fun _ => None).

(** The same, with a provider that times out. *)
Definition env_down : Env :=
  mkEnv (fun i => 100000 + Z.of_nat i) (fun _ _ _ => SdkRaises "timed out")
        (fun _ => None).

(** The same as [env], but the sqlite3 call of step 1 raises. *)
Definition env_locked : Env :=
  mkEnv (fun i => 100000 + Z.of_nat i) (fun _ _ _ => accepted)
        (fun i => if Nat.eqb i 1 then Some "database is locked" else None).

Definition ann : Contact := mkContact 1 "Ann" "+254700000001" 1 0 "vip,gold" 10.
Definition bob : Contact := mkContact 2 "Bob" "+254700000002" 0 0 "gold" 11.
Definition cy : Contact := mkContact 3 "Cy" "+254700000003" 1 1 "vip" 12.

Definition promo : Campaign := mkCampaign 1 "promo" "Hi {{name}}" "vip" 20 (Some 30) None.
Definition draft : Campaign := mkCampaign 2 "draft" "Hello" "" 21 None None.

Definition msg (id contact : Z) (phone : string) (st : Status)
    (pid err : option string) (created : Time) (sent_at : option Time) : Message :=
  mkMessage id 1 contact phone "Hi" st pid err created sent_at.

Definition m_old : Message := msg 1 1 "+254700000001" sent (Some "ATXid_0") None 30 (Some 40).
Definition m_stuck : Message := msg 2 1 "+254700000001" sending None None 30 None.
Definition m_ann : Message := msg 3 1 "+254700000001" queued None None 31 None.
Definition m_bob : Message := msg 4 2 "+254700000002" queued None None 32 None.
Definition m_cy : Message := msg 5 3 "+254700000003" queued None None 33 None.
Definition m_ann2 : Message := msg 6 1 "+254700000001" queued None None 34 None.

Definition store : DB :=
  mkDB [ann; bob; cy] [promo; draft] [m_old; m_stuck; m_ann; m_bob; m_cy] [] 3.

(** Two queued messages for Ann and nothing sent yet. *)
Definition store2 : DB := mkDB [ann; bob; cy] [promo; draft] [m_ann; m_ann2] [] 3.

(** Cy, who opted out after one message of today went out, has one more
    message queued. *)
Definition m_cy_sent : Message :=
  msg 7 3 "+254700000003" sent (Some "ATXid_7") None 30 (Some 90000).

Definition store3 : DB := mkDB [ann; bob; cy] [promo; draft] [m_cy_sent; m_cy] [] 3.

(** A clock that is set back over midnight between steps 3 and 4, and a
    store where Ann received one message late on day 0. *)
Definition env_set_back : Env :=
  mkEnv (fun i => if (i <? 4)%nat then 86400 else 86399) (fun _ _ _ => accepted)
        (fun _ => None).

Definition m_late : Message :=
  msg 1 1 "+254700000001" sent (Some "ATXid_0") None 30 (Some 86000).

Definition store4 : DB := mkDB [ann] [promo] [m_late; m_ann] [] 1.

Definition world : World := mkWorld store 0 [].
Definition world4 : World := mkWorld store4 0 [].
Definition world2 : World := mkWorld store2 0 [].
Definition world3 : World := mkWorld store3 0 [].

End Demo.

(** * Properties *)

(** ** What one row of the batch does *)

Inductive Outcome :=
| OUntouched
| OSkipped (reason : string)
| OSending
| OSent (provider_id : string) (at_time : Time)
| OFailed (error : string).

Definition apply_outcome (o : Outcome) (m : Message) : Message :=
  match o with
  | OUntouched => m
  | OSkipped reason => set_skipped reason m
  | OSending => set_sending m
  | OSent p t => set_sent p t (set_sending m)
  | OFailed e => set_failed e (set_sending m)
  end.

Definition gate_passes (r : Row) : Prop := r_consented r = 1 /\ r_opted_out r <> 1.

Lemma gate_test r :
  (negb (r_consented r =? 1) || (r_opted_out r =? 1) = false <-> gate_passes r).
Proof.
  unfold gate_passes.
  destruct (Z.eqb_spec (r_consented r) 1), (Z.eqb_spec (r_opted_out r) 1);
    simpl; split; intros; try discriminate; try tauto.
Qed.

Lemma db_eta d :
  mkDB (contacts d) (campaigns d) (messages d) (audit_log d) (contacts_seq d) = d.
Proof. destruct d; reflexivity. Qed.

Lemma update_message_same id d : update_message id (fun m => m) d = d.
Proof.
  unfold update_message.
  replace (map (fun m => if m_id m =? id then m else m) (messages d)) with (messages d).
  - apply db_eta.
  - induction (messages d) as [|m ms IH]; simpl; [reflexivity|].
    rewrite <- IH. destruct (m_id m =? id); reflexivity.
Qed.

Lemma update_message_twice id f g d :
  (forall m, m_id (f m) = m_id m) ->
  update_message id g (update_message id f d) = update_message id (fun m => g (f m)) d.
Proof.
  intros Hid. unfold update_message; simpl. f_equal.
  rewrite map_map. apply map_ext. intros m.
  destruct (m_id m =? id) eqn:E; [rewrite Hid, E|rewrite E]; reflexivity.
Qed.

Section RowSpec.

Variable cfg : Config.
Variable env : Env.

(** The provider call moves the world one step on and logs at most the one
    call; it never touches the store, and a reference is only returned by
    a call that was made. *)
Lemma send_sms_world mid to body w :
  exists res cs,
    send_sms_africastalking cfg env mid to body w
      = (res, mkWorld (w_db w) (S (w_steps w)) (w_calls w ++ cs)) /\
    (cs = [] \/ cs = [mkCall mid to body]) /\
    (forall p, res = inl p -> cs = [mkCall mid to body]).
Proof.
  unfold send_sms_africastalking, next_step.
  destruct (String.eqb (AT_API_KEY cfg) "").
  - eexists _, []. rewrite app_nil_r. repeat split; [auto|discriminate].
  - destruct (sms_send env (w_steps w) to body) as [e|[rec|]].
    + eexists _, _. repeat split; auto.
    + destruct (negb _); eexists _, _; repeat split; auto.
    + eexists _, _. repeat split; auto.
Qed.

(** Every path through [process_message], store faults included: which
    outcome the row's message gets, what the caller sees, which calls were
    logged and how many steps were taken. *)
Inductive row_run (r : Row) (w : World) :
    Outcome -> unit + exn -> list Call -> nat -> Prop :=
| run_gate_skip :
    ~ gate_passes r ->
    store_fault env (w_steps w) = None ->
    row_run r w (OSkipped "no consent or opted out") (inl tt) [] 1
| run_gate_fault e :
    ~ gate_passes r ->
    store_fault env (w_steps w) = Some e ->
    row_run r w OUntouched (inr (Exception e)) [] 1
| run_count_fault e :
    gate_passes r ->
    store_fault env (w_steps w) = Some e ->
    row_run r w OUntouched (inr (Exception e)) [] 1
| run_cap_skip :
    gate_passes r ->
    store_fault env (w_steps w) = None ->
    MAX_DAILY_PER_CONTACT cfg
      <= sent_today (m_contact_id (r_msg r)) (w_db w) (clock env (w_steps w)) ->
    store_fault env (S (w_steps w)) = None ->
    row_run r w (OSkipped "daily cap reached") (inl tt) [] 2
| run_cap_fault e :
    gate_passes r ->
    store_fault env (w_steps w) = None ->
    store_fault env (S (w_steps w)) = Some e ->
    row_run r w OUntouched (inr (Exception e)) [] 2
| run_sent p cs :
    gate_passes r ->
    store_fault env (w_steps w) = None ->
    sent_today (m_contact_id (r_msg r)) (w_db w) (clock env (w_steps w))
      < MAX_DAILY_PER_CONTACT cfg ->
    store_fault env (S (w_steps w)) = None ->
    fst (send_sms_africastalking cfg env (m_id (r_msg r)) (m_to_phone (r_msg r))
           (m_body (r_msg r))
           (mkWorld (update_message (m_id (r_msg r)) set_sending (w_db w))
                    (S (S (w_steps w))) (w_calls w))) = inl p ->
    cs = [mkCall (m_id (r_msg r)) (m_to_phone (r_msg r)) (m_body (r_msg r))] ->
    store_fault env (S (S (S (w_steps w)))) = None ->
    row_run r w (OSent p (clock env (S (S (S (w_steps w)))))) (inl tt) cs 4
| run_failed e cs :
    gate_passes r ->
    store_fault env (w_steps w) = None ->
    sent_today (m_contact_id (r_msg r)) (w_db w) (clock env (w_steps w))
      < MAX_DAILY_PER_CONTACT cfg ->
    store_fault env (S (w_steps w)) = None ->
    fst (send_sms_africastalking cfg env (m_id (r_msg r)) (m_to_phone (r_msg r))
           (m_body (r_msg r))
           (mkWorld (update_message (m_id (r_msg r)) set_sending (w_db w))
                    (S (S (w_steps w))) (w_calls w))) = inr e ->
    (cs = [] \/
     cs = [mkCall (m_id (r_msg r)) (m_to_phone (r_msg r)) (m_body (r_msg r))]) ->
    store_fault env (S (S (S (w_steps w)))) = None ->
    row_run r w (OFailed (str e)) (inl tt) cs 4
| run_failed_unrecorded e e' cs :
    gate_passes r ->
    store_fault env (w_steps w) = None ->
    store_fault env (S (w_steps w)) = None ->
    fst (send_sms_africastalking cfg env (m_id (r_msg r)) (m_to_phone (r_msg r))
           (m_body (r_msg r))
           (mkWorld (update_message (m_id (r_msg r)) set_sending (w_db w))
                    (S (S (w_steps w))) (w_calls w))) = inr e ->
    (cs = [] \/
     cs = [mkCall (m_id (r_msg r)) (m_to_phone (r_msg r)) (m_body (r_msg r))]) ->
    store_fault env (S (S (S (w_steps w)))) = Some e' ->
    row_run r w OSending (inr (Exception e')) cs 4
| run_sent_unrecorded p e cs :
    gate_passes r ->
    store_fault env (w_steps w) = None ->
    store_fault env (S (w_steps w)) = None ->
    fst (send_sms_africastalking cfg env (m_id (r_msg r)) (m_to_phone (r_msg r))
           (m_body (r_msg r))
           (mkWorld (update_message (m_id (r_msg r)) set_sending (w_db w))
                    (S (S (w_steps w))) (w_calls w))) = inl p ->
    (cs = [] \/
     cs = [mkCall (m_id (r_msg r)) (m_to_phone (r_msg r)) (m_body (r_msg r))]) ->
    store_fault env (S (S (S (w_steps w)))) = Some e ->
    store_fault env (S (S (S (S (w_steps w))))) = None ->
    row_run r w (OFailed e) (inl tt) cs 5
| run_sent_lost p e e' cs :
    gate_passes r ->
    store_fault env (w_steps w) = None ->
    store_fault env (S (w_steps w)) = None ->
    fst (send_sms_africastalking cfg env (m_id (r_msg r)) (m_to_phone (r_msg r))
           (m_body (r_msg r))
           (mkWorld (update_message (m_id (r_msg r)) set_sending (w_db w))
                    (S (S (w_steps w))) (w_calls w))) = inl p ->
    (cs = [] \/
     cs = [mkCall (m_id (r_msg r)) (m_to_phone (r_msg r)) (m_body (r_msg r))]) ->
    store_fault env (S (S (S (w_steps w)))) = Some e ->
    store_fault env (S (S (S (S (w_steps w))))) = Some e' ->
    row_run r w OSending (inr (Exception e')) cs 5.


Lemma process_message_run r w :
  exists o res cs k,
    process_message cfg env r w
      = (res, mkWorld (update_message (m_id (r_msg r)) (apply_outcome o) (w_db w))
                      (k + w_steps w) (w_calls w ++ cs)) /\
    row_run r w o res cs k.
Proof.
  unfold process_message.
  destruct (negb (r_consented r =? 1) || (r_opted_out r =? 1)) eqn:Hgate.
  - assert (Hg : ~ gate_passes r).
    { intros H. apply gate_test in H. congruence. }
    unfold sql_exec, next_step.
    destruct (store_fault env (w_steps w)) as [e|] eqn:F0.
    + exists OUntouched, (inr (Exception e)), [], 1%nat.
      simpl. rewrite update_message_same, app_nil_r.
      split; [reflexivity | now constructor].
    + exists (OSkipped "no consent or opted out"), (inl tt), [], 1%nat.
      simpl. rewrite app_nil_r. split; [reflexivity | now constructor].
  - apply gate_test in Hgate.
    unfold bind at 1. unfold count_sent_today, sql_query, next_step.
    destruct (store_fault env (w_steps w)) as [e|] eqn:F0.
    + exists OUntouched, (inr (Exception e)), [], 1%nat.
      simpl. rewrite update_message_same, app_nil_r.
      split; [reflexivity | now apply run_count_fault].
    + destruct (Z.leb_spec (MAX_DAILY_PER_CONTACT cfg)
                  (sent_today (m_contact_id (r_msg r)) (w_db w) (clock env (w_steps w))))
        as [Hcap|Hcap].
      * unfold sql_exec, next_step; simpl.
        destruct (store_fault env (S (w_steps w))) as [e|] eqn:F1.
        -- exists OUntouched, (inr (Exception e)), [], 2%nat.
           simpl. rewrite update_message_same, app_nil_r.
           split; [reflexivity | now apply run_cap_fault].
        -- exists (OSkipped "daily cap reached"), (inl tt), [], 2%nat.
           simpl. rewrite app_nil_r. split; [reflexivity | now apply run_cap_skip].
      * unfold bind at 1. unfold sql_exec at 1. unfold next_step; simpl.
        destruct (store_fault env (S (w_steps w))) as [e|] eqn:F1.
        -- exists OUntouched, (inr (Exception e)), [], 2%nat.
           simpl. rewrite update_message_same, app_nil_r.
           split; [reflexivity | now apply run_cap_fault].
        -- unfold try_except, bind.
           destruct (send_sms_world (m_id (r_msg r)) (m_to_phone (r_msg r))
                       (m_body (r_msg r))
                       (mkWorld (update_message (m_id (r_msg r)) set_sending (w_db w))
                                (S (S (w_steps w))) (w_calls w)))
             as (res & cs & Hsend & Hcs & Hok).
           assert (Hfst := f_equal fst Hsend). simpl in Hfst.
           rewrite Hsend. simpl.
           destruct res as [p|e].
           ++ unfold sql_exec, next_step; simpl.
              destruct (store_fault env (S (S (S (w_steps w))))) as [e|] eqn:F3.
              ** simpl. destruct (store_fault env (S (S (S (S (w_steps w)))))) as [e'|] eqn:F4.
                 --- exists OSending, (inr (Exception e')), cs, 5%nat.
                     split; [reflexivity | now eapply run_sent_lost; eauto].
                 --- exists (OFailed e), (inl tt), cs, 5%nat. simpl.
                     rewrite update_message_twice by reflexivity.
                     split; [reflexivity | now eapply run_sent_unrecorded; eauto].
              ** exists (OSent p (clock env (S (S (S (w_steps w)))))), (inl tt), cs, 4%nat.
                 simpl. rewrite update_message_twice by reflexivity.
                 split; [reflexivity | now eapply run_sent; eauto].
           ++ unfold sql_exec, next_step; simpl.
              destruct (store_fault env (S (S (S (w_steps w))))) as [e'|] eqn:F3.
              ** exists OSending, (inr (Exception e')), cs, 4%nat.
                 split; [reflexivity | now eapply run_failed_unrecorded; eauto].
              ** exists (OFailed (str e)), (inl tt), cs, 4%nat. simpl.
                 rewrite update_message_twice by reflexivity.
                 split; [reflexivity | now eapply run_failed; eauto].
Qed.

End RowSpec.

(** ** Well-formed stores *)

Fixpoint distinct (l : list Z) : bool :=
  match l with
  | [] => true
  | x :: xs => negb (existsb (Z.eqb x) xs) && distinct xs
  end.

Definition flag01 (z : Z) : bool := (z =? 0) || (z =? 1).

(** What the schema ([PRIMARY KEY] on each table) and the writers (the two
    flags only ever receive 0 or 1) guarantee of a store. *)
Definition db_wf (d : DB) : bool :=
  distinct (map m_id (messages d)) &&
  distinct (map c_id (contacts d)) &&
  distinct (map g_id (campaigns d)) &&
  forallb (fun c => flag01 (c_consented c) && flag01 (c_opted_out c)) (contacts d).

Lemma distinct_NoDup l : distinct l = true <-> NoDup l.
Proof.
  induction l as [|x xs IH]; simpl.
  - split; [constructor | reflexivity].
  - rewrite andb_true_iff, negb_true_iff, IH. split.
    + intros [Hx Hxs]. constructor; [|assumption].
      intros Hin. assert (existsb (Z.eqb x) xs = true); [|congruence].
      apply existsb_exists. exists x. split; [assumption | apply Z.eqb_refl].
    + intros H. inversion H as [|? ? Hnin Hnd]; subst. split; [|assumption].
      destruct (existsb (Z.eqb x) xs) eqn:E; [|reflexivity].
      apply existsb_exists in E. destruct E as (y & Hy & Hxy).
      apply Z.eqb_eq in Hxy. subst. contradiction.
Qed.

Lemma db_wf_messages d : db_wf d = true -> NoDup (map m_id (messages d)).
Proof.
  unfold db_wf. rewrite !andb_true_iff. intros [[[H _] _] _].
  now apply distinct_NoDup.
Qed.

Lemma db_wf_contacts d : db_wf d = true -> NoDup (map c_id (contacts d)).
Proof.
  unfold db_wf. rewrite !andb_true_iff. intros [[[_ H] _] _].
  now apply distinct_NoDup.
Qed.

Lemma db_wf_campaigns d : db_wf d = true -> NoDup (map g_id (campaigns d)).
Proof.
  unfold db_wf. rewrite !andb_true_iff. intros [[[_ _] H] _].
  now apply distinct_NoDup.
Qed.

Lemma db_wf_flags d c :
  db_wf d = true -> In c (contacts d) ->
  (c_consented c = 0 \/ c_consented c = 1) /\ (c_opted_out c = 0 \/ c_opted_out c = 1).
Proof.
  unfold db_wf. rewrite !andb_true_iff. intros [_ H] Hc.
  rewrite forallb_forall in H. specialize (H c Hc).
  unfold flag01 in H. rewrite andb_true_iff, !orb_true_iff, !Z.eqb_eq in H.
  exact H.
Qed.

Lemma NoDup_map_inj {A} (f : A -> Z) l x y :
  NoDup (map f l) -> In x l -> In y l -> f x = f y -> x = y.
Proof.
  induction l as [|a l IH]; simpl; [contradiction|].
  intros Hnd Hx Hy Hxy. inversion Hnd as [|? ? Hnin Hnd']; subst.
  destruct Hx as [->|Hx], Hy as [->|Hy]; auto.
  - exfalso. apply Hnin. rewrite Hxy. now apply in_map.
  - exfalso. apply Hnin. rewrite <- Hxy. now apply in_map.
Qed.

(** ** The batch query *)

Definition rid (r : Row) : Z := m_id (r_msg r).

Definition created_le (a b : Row) : Prop :=
  m_created_at (r_msg a) <= m_created_at (r_msg b).

Lemma insert_row_perm r l : Permutation (insert_row r l) (r :: l).
Proof.
  induction l as [|x xs IH]; simpl; [reflexivity|].
  destruct (m_created_at (r_msg r) <=? m_created_at (r_msg x)); [reflexivity|].
  rewrite IH. apply perm_swap.
Qed.

Lemma order_by_created_at_perm l : Permutation (order_by_created_at l) l.
Proof.
  induction l as [|r rs IH]; simpl; [reflexivity|].
  rewrite insert_row_perm. now constructor.
Qed.

Lemma insert_row_sorted r l :
  StronglySorted created_le l -> StronglySorted created_le (insert_row r l).
Proof.
  induction 1 as [|x xs Hs IH Hx]; simpl.
  - repeat constructor.
  - destruct (Z.leb_spec (m_created_at (r_msg r)) (m_created_at (r_msg x))) as [Hle|Hlt].
    + constructor; [now constructor|].
      constructor; [exact Hle|].
      rewrite Forall_forall in *. intros y Hy. specialize (Hx y Hy).
      unfold created_le in *. lia.
    + constructor; [exact IH|].
      rewrite Forall_forall in *. intros y Hy.
      apply (Permutation_in _ (insert_row_perm r xs)) in Hy.
      destruct Hy as [<-|Hy]; [unfold created_le; lia | auto].
Qed.

Lemma order_by_created_at_sorted l : StronglySorted created_le (order_by_created_at l).
Proof.
  induction l as [|r rs IH]; simpl; [constructor | now apply insert_row_sorted].
Qed.

Lemma in_join_contacts cs ms r :
  In r (join_contacts cs ms) <->
  exists m c, In m ms /\ In c cs /\ c_id c = m_contact_id m /\
              r = mkRow m (c_consented c) (c_opted_out c).
Proof.
  unfold join_contacts. rewrite in_flat_map. split.
  - intros (m & Hm & Hr). apply in_map_iff in Hr. destruct Hr as (c & <- & Hc).
    apply filter_In in Hc. destruct Hc as [Hc Hid]. apply Z.eqb_eq in Hid.
    now exists m, c.
  - intros (m & c & Hm & Hc & Hid & ->). exists m. split; [assumption|].
    apply in_map_iff. exists c. split; [reflexivity|].
    apply filter_In. split; [assumption | now apply Z.eqb_eq].
Qed.

Lemma filter_key_unique {A} (key : A -> Z) l x :
  NoDup (map key l) ->
  filter (fun a => key a =? x) l = [] \/
  exists a, filter (fun a => key a =? x) l = [a].
Proof.
  induction l as [|a l IH]; simpl; [auto|].
  intros Hnd. inversion Hnd as [|? ? Hnin Hnd']; subst.
  destruct (Z.eqb_spec (key a) x) as [Heq|Hne]; [|auto].
  right. exists a. f_equal.
  destruct (filter (fun a0 => key a0 =? x) l) as [|b bs] eqn:E; [reflexivity|].
  exfalso. assert (Hb : In b (filter (fun a0 => key a0 =? x) l)) by (rewrite E; now left).
  apply filter_In in Hb. destruct Hb as [Hb Hk]. apply Z.eqb_eq in Hk.
  apply Hnin. rewrite Heq, <- Hk. now apply in_map.
Qed.

Lemma join_contacts_NoDup cs ms :
  NoDup (map c_id cs) -> NoDup (map m_id ms) ->
  NoDup (map rid (join_contacts cs ms)).
Proof.
  intros Hcs. induction ms as [|m ms IH]; simpl; [constructor|].
  intros Hnd. inversion Hnd as [|? ? Hnin Hnd']; subst.
  rewrite map_app.
  destruct (filter_key_unique c_id cs (m_contact_id m) Hcs) as [E|[c E]];
    rewrite E; simpl; [now apply IH|].
  constructor; [|now apply IH].
  intros Hin. apply in_map_iff in Hin. destruct Hin as (r & Hr & Hin).
  apply in_join_contacts in Hin. destruct Hin as (m' & c' & Hm' & _ & _ & ->).
  unfold rid in Hr; simpl in Hr. apply Hnin. rewrite <- Hr. now apply in_map.
Qed.

Lemma NoDup_firstn {A} n (l : list A) : NoDup l -> NoDup (firstn n l).
Proof.
  intros H. rewrite <- (firstn_skipn n l) in H.
  now apply NoDup_app_remove_r in H.
Qed.

Section Batch.

Variable limit : Z.
Variable d : DB.

(** The batch is the first [limit] rows of the queued, joined messages
    sorted by creation time. *)
Lemma select_queued_prefix :
  exists rest,
    order_by_created_at (join_contacts (contacts d) (filter is_queued (messages d)))
      = select_queued limit d ++ rest.
Proof.
  unfold select_queued. eexists. symmetry. apply firstn_skipn.
Qed.

Lemma select_queued_length :
  (List.length (select_queued limit d) <= Z.to_nat limit)%nat.
Proof. unfold select_queued. apply firstn_le_length. Qed.

Lemma status_eqb_eq a b : status_eqb a b = true <-> a = b.
Proof. destruct a, b; simpl; split; intros; congruence. Qed.

Lemma select_queued_in r :
  In r (select_queued limit d) ->
  In (r_msg r) (messages d) /\ m_status (r_msg r) = queued /\
  exists c, In c (contacts d) /\ c_id c = m_contact_id (r_msg r) /\
            r_consented r = c_consented c /\ r_opted_out r = c_opted_out c.
Proof.
  intros H. destruct select_queued_prefix as [rest E].
  assert (Hin : In r (select_queued limit d ++ rest)) by (apply in_or_app; now left).
  rewrite <- E in Hin.
  apply (Permutation_in _ (order_by_created_at_perm _)) in Hin.
  apply in_join_contacts in Hin. destruct Hin as (m & c & Hm & Hc & Hid & ->).
  apply filter_In in Hm. destruct Hm as [Hm Hq]. simpl.
  repeat split; [assumption | now apply status_eqb_eq |].
  now exists c.
Qed.

Lemma select_queued_sorted : StronglySorted created_le (select_queued limit d).
Proof.
  destruct select_queued_prefix as [rest E].
  pose proof (order_by_created_at_sorted
                (join_contacts (contacts d) (filter is_queued (messages d)))) as Hs.
  rewrite E in Hs. clear E.
  induction (select_queued limit d) as [|x xs IH]; simpl in *; [constructor|].
  inversion Hs as [|? ? Hs' Hx]; subst. constructor; [now apply IH|].
  rewrite Forall_forall in *. intros y Hy. apply Hx. apply in_or_app. now left.
Qed.

Lemma select_queued_NoDup :
  db_wf d = true -> NoDup (map rid (select_queued limit d)).
Proof.
  intros Hwf. unfold select_queued. rewrite <- firstn_map. apply NoDup_firstn.
  eapply Permutation_NoDup.
  - apply Permutation_map. symmetry. apply order_by_created_at_perm.
  - apply join_contacts_NoDup; [now apply db_wf_contacts|].
    pose proof (db_wf_messages d Hwf) as Hnd.
    induction (messages d) as [|m ms IH]; simpl in *; [constructor|].
    inversion Hnd as [|? ? Hnin Hnd']; subst.
    destruct (is_queued m); simpl; [|now apply IH].
    constructor; [|now apply IH].
    intros Hin. apply Hnin. apply in_map_iff in Hin.
    destruct Hin as (m' & <- & Hm'). apply filter_In in Hm'. apply in_map. tauto.
Qed.

End Batch.

(** ** How a message may change *)

(** The only change any operation makes to a stored message: a queued
    message receives one outcome. *)
Definition msg_step (m m' : Message) : Prop :=
  m' = m \/ (m_status m = queued /\ exists o, m' = apply_outcome o m).

Lemma apply_outcome_id o m : m_id (apply_outcome o m) = m_id m.
Proof. destruct o; reflexivity. Qed.

Lemma apply_outcome_queued o m :
  m_status m = queued -> m_status (apply_outcome o m) = queued -> apply_outcome o m = m.
Proof. destruct o; simpl; intros; try discriminate; reflexivity. Qed.

Lemma msg_step_refl m : msg_step m m.
Proof. now left. Qed.

Lemma msg_step_id m m' : msg_step m m' -> m_id m' = m_id m.
Proof.
  intros [->|(_ & o & ->)]; [reflexivity | apply apply_outcome_id].
Qed.

Lemma msg_step_trans m1 m2 m3 : msg_step m1 m2 -> msg_step m2 m3 -> msg_step m1 m3.
Proof.
  intros [->|(Hq & o & ->)] H23; [assumption|].
  destruct H23 as [->|(Hq2 & o2 & ->)].
  - right. eauto.
  - rewrite (apply_outcome_queued o m1 Hq Hq2). right. eauto.
Qed.

Lemma msg_step_settled m m' :
  msg_step m m' -> m_status m <> queued -> m' = m.
Proof. intros [->|(Hq & _)] H; [reflexivity | contradiction]. Qed.

Lemma Forall2_refl {A} (R : A -> A -> Prop) l :
  (forall x, R x x) -> Forall2 R l l.
Proof. intros H. induction l; constructor; auto. Qed.

Lemma Forall2_trans {A} (R : A -> A -> Prop) :
  (forall x y z, R x y -> R y z -> R x z) ->
  forall l1 l2 l3, Forall2 R l1 l2 -> Forall2 R l2 l3 -> Forall2 R l1 l3.
Proof.
  intros HR l1 l2 l3 H12. revert l3.
  induction H12; intros l3 H23; inversion H23; subst; constructor; eauto.
Qed.

Lemma Forall2_in_l {A B} (R : A -> B -> Prop) l l' x :
  Forall2 R l l' -> In x l -> exists y, In y l' /\ R x y.
Proof.
  induction 1 as [|a b l l' Hab _ IH]; simpl; [contradiction|].
  intros [->|Hx]; [exists b; auto|].
  destruct (IH Hx) as (y & Hy & Hxy). exists y; auto.
Qed.

Lemma Forall2_in_r {A B} (R : A -> B -> Prop) l l' y :
  Forall2 R l l' -> In y l' -> exists x, In x l /\ R x y.
Proof.
  induction 1 as [|a b l l' Hab _ IH]; simpl; [contradiction|].
  intros [->|Hy]; [exists a; auto|].
  destruct (IH Hy) as (x & Hx & Hxy). exists x; auto.
Qed.

Lemma Forall2_map_r {A} (R : A -> A -> Prop) (f : A -> A) l :
  (forall x, In x l -> R x (f x)) -> Forall2 R l (map f l).
Proof.
  induction l as [|a l IH]; simpl; constructor; auto.
Qed.

Lemma msgs_step_ids ms ms' :
  Forall2 msg_step ms ms' -> map m_id ms' = map m_id ms.
Proof.
  induction 1 as [|m m' ms ms' H _ IH]; simpl; [reflexivity|].
  now rewrite IH, (msg_step_id _ _ H).
Qed.

(** Rows still to be processed: distinct ids, each one the id of a stored
    message that is still exactly as selected, hence queued. *)
Definition rows_ready (rows : list Row) (d : DB) : Prop :=
  NoDup (map rid rows) /\ NoDup (map m_id (messages d)) /\
  forall r, In r rows -> In (r_msg r) (messages d) /\ m_status (r_msg r) = queued.

Lemma select_queued_ready limit d :
  db_wf d = true -> rows_ready (select_queued limit d) d.
Proof.
  intros Hwf. split; [now apply select_queued_NoDup|].
  split; [now apply db_wf_messages|].
  intros r Hr. apply select_queued_in in Hr. tauto.
Qed.

Lemma rows_ready_tail r rows d : rows_ready (r :: rows) d -> rows_ready rows d.
Proof.
  intros (Hnd & Hms & Hin). inversion Hnd; subst.
  repeat split; auto; apply Hin; now right.
Qed.

Lemma rows_ready_head r rows d m :
  rows_ready (r :: rows) d -> In m (messages d) -> m_id m = rid r -> m = r_msg r.
Proof.
  intros (_ & Hms & Hin) Hm Hid.
  destruct (Hin r (or_introl eq_refl)) as [Hr _].
  eapply NoDup_map_inj; eauto.
Qed.

Lemma update_message_ids id o d :
  map m_id (messages (update_message id (apply_outcome o) d)) = map m_id (messages d).
Proof.
  unfold update_message; simpl. rewrite map_map. apply map_ext.
  intros m. destruct (m_id m =? id); [apply apply_outcome_id | reflexivity].
Qed.

Lemma in_update_message id f d m' :
  In m' (messages (update_message id f d)) <->
  exists m, In m (messages d) /\ m' = if m_id m =? id then f m else m.
Proof.
  unfold update_message; simpl. rewrite in_map_iff.
  split; intros (m & H1 & H2); exists m; auto.
Qed.

Lemma rows_ready_step r rows d o :
  rows_ready (r :: rows) d ->
  rows_ready rows (update_message (rid r) (apply_outcome o) d).
Proof.
  intros Hready. pose proof Hready as (Hnd & Hms & Hin).
  inversion Hnd as [|? ? Hnin Hnd']; subst.
  split; [assumption|]. split; [now rewrite update_message_ids|].
  intros r' Hr'. destruct (Hin r' (or_intror Hr')) as [Hm Hq]. split; [|assumption].
  apply in_update_message. exists (r_msg r'). split; [assumption|].
  destruct (Z.eqb_spec (m_id (r_msg r')) (rid r)) as [E|_]; [|reflexivity].
  exfalso. apply Hnin. rewrite <- E. now apply (in_map rid).
Qed.

Lemma update_message_step r rows d o :
  rows_ready (r :: rows) d ->
  Forall2 msg_step (messages d) (messages (update_message (rid r) (apply_outcome o) d)).
Proof.
  intros Hready. unfold update_message; simpl. apply Forall2_map_r.
  intros m Hm. destruct (Z.eqb_spec (m_id m) (rid r)) as [E|_]; [|apply msg_step_refl].
  right. rewrite (rows_ready_head _ _ _ _ Hready Hm E). split; [|eauto].
  destruct Hready as (_ & _ & Hin). now apply Hin; left.
Qed.

(** The loop [for x in l] keeps an invariant that each turn keeps and that
    survives dropping the rows not reached after an exception. *)
Lemma for_each_invariant {A} (body : A -> M unit) (I : list A -> World -> Prop) :
  (forall x xs w, I (x :: xs) w -> I xs (snd (body x w))) ->
  (forall x xs w, I (x :: xs) w -> I xs w) ->
  forall l w, I l w -> I [] (snd (for_each body l w)).
Proof.
  intros Hstep Hdrop l. induction l as [|x xs IH]; intros w HI; simpl; [assumption|].
  unfold bind. pose proof (Hstep x xs w HI) as H1.
  destruct (body x w) as [[[]|e] w1]; simpl in *.
  - now apply IH.
  - clear IH HI. induction xs as [|y ys IHy]; [assumption|].
    apply IHy. eapply Hdrop; eauto.
Qed.

(** ** The completion scan *)

Section Scan.

Variable env : Env.

(** What the scan may do to one campaign while working through [ids]:
    nothing, or close it with the clock of one of its steps because no
    message of it is queued or sending. *)
Definition scan_rel (ids : list Z) (d : DB) (lo hi : nat) (c c' : Campaign) : Prop :=
  c' = c \/
  (In (g_id c) ids /\ count_left (g_id c) d = 0 /\
   exists i, (lo <= i < hi)%nat /\ c' = set_completed (clock env i) c).

Definition scan_closes (ids : list Z) (d : DB) (lo hi : nat) (c c' : Campaign) : Prop :=
  In (g_id c) ids -> count_left (g_id c) d = 0 ->
  exists i, (lo <= i < hi)%nat /\ c' = set_completed (clock env i) c.

Lemma count_left_messages cid d d' :
  messages d' = messages d -> count_left cid d' = count_left cid d.
Proof. unfold count_left. now intros ->. Qed.

Lemma close_if_drained_run cid w :
  exists res w',
    close_if_drained env cid w = (res, w') /\
    w_calls w' = w_calls w /\ (w_steps w < w_steps w')%nat /\
    ((w_db w' = w_db w /\ (res = inl tt -> count_left cid (w_db w) <> 0)) \/
     (res = inl tt /\ count_left cid (w_db w) = 0 /\
      w_steps w' = S (S (w_steps w)) /\
      w_db w' = update_campaign cid (set_completed (clock env (S (w_steps w)))) (w_db w))).
Proof.
  unfold close_if_drained, bind, sql_query, sql_exec, ret, next_step.
  destruct (store_fault env (w_steps w)) as [e|].
  - eexists _, _. split; [reflexivity|]. simpl. repeat split; [lia|].
    left. split; [reflexivity | discriminate].
  - destruct (Z.eqb_spec (count_left cid (w_db w)) 0) as [E|E]; simpl.
    + destruct (store_fault env (S (w_steps w))) as [e|].
      * eexists _, _. split; [reflexivity|]. simpl. repeat split; [lia|].
        left. split; [reflexivity | discriminate].
      * eexists _, _. split; [reflexivity|]. simpl. repeat split; [lia|].
        right. auto.
    + eexists _, _. split; [reflexivity|]. simpl. repeat split; [lia|].
      left. auto.
Qed.

Lemma scan_rel_weaken ids d lo hi lo' hi' x c c' :
  (lo' <= lo)%nat -> (hi <= hi')%nat ->
  scan_rel ids d lo hi c c' -> scan_rel (x :: ids) d lo' hi' c c'.
Proof.
  intros Hlo Hhi [->|(Hin & Hz & i & Hi & ->)]; [now left|].
  right. split; [now right|]. split; [assumption|].
  exists i. split; [lia | reflexivity].
Qed.

Lemma set_completed_twice t t' c :
  set_completed t' (set_completed t c) = set_completed t' c.
Proof. reflexivity. Qed.

Lemma scan_loop ids : forall w res w',
  for_each (close_if_drained env) ids w = (res, w') ->
  messages (w_db w') = messages (w_db w) /\
  contacts (w_db w') = contacts (w_db w) /\
  audit_log (w_db w') = audit_log (w_db w) /\
  w_calls w' = w_calls w /\ (w_steps w <= w_steps w')%nat /\
  Forall2 (fun c c' =>
             scan_rel ids (w_db w) (w_steps w) (w_steps w') c c' /\
             (res = inl tt -> scan_closes ids (w_db w) (w_steps w) (w_steps w') c c'))
          (campaigns (w_db w)) (campaigns (w_db w')).
Proof.
  induction ids as [|x ids IH]; intros w res w' Hrun; simpl in Hrun.
  - inversion Hrun; subst. repeat split; auto.
    apply Forall2_refl. intros c. split; [now left|].
    intros _ Hin. destruct Hin.
  - unfold bind in Hrun.
    destruct (close_if_drained_run x w) as (r1 & w1 & H1 & Hc1 & Hs1 & Hcase).
    rewrite H1 in Hrun.
    destruct r1 as [[]|e].
    + specialize (IH w1 res w' Hrun).
      destruct IH as (Hm & Hcs & Ha & Hcl & Hst & Hcamp).
      assert (Hm1 : messages (w_db w1) = messages (w_db w)).
      { destruct Hcase as [[-> _]|(_ & _ & _ & ->)]; reflexivity. }
      assert (Hk1 : contacts (w_db w1) = contacts (w_db w) /\
                    audit_log (w_db w1) = audit_log (w_db w)).
      { destruct Hcase as [[-> _]|(_ & _ & _ & ->)]; split; reflexivity. }
      destruct Hk1 as [Hk1 Ha1].
      repeat split; try congruence; try lia.
      assert (Hcl1 : forall c, count_left (g_id c) (w_db w1) = count_left (g_id c) (w_db w))
        by (intros c; now apply count_left_messages).
      assert (Hcamp' : Forall2 (fun c1 c' =>
                 (c' = c1 \/
                  (In (g_id c1) ids /\ count_left (g_id c1) (w_db w) = 0 /\
                   exists i, (w_steps w <= i < w_steps w')%nat /\
                             c' = set_completed (clock env i) c1)) /\
                 (res = inl tt -> In (g_id c1) ids -> count_left (g_id c1) (w_db w) = 0 ->
                  exists i, (w_steps w <= i < w_steps w')%nat /\
                            c' = set_completed (clock env i) c1))
               (campaigns (w_db w1)) (campaigns (w_db w'))).
      { eapply Forall2_impl; [|exact Hcamp]. intros c c' [Hrel Hclose]. split.
        - destruct Hrel as [->|(Hin & Hz & i & Hi & ->)]; [now left|].
          right. rewrite Hcl1 in Hz. repeat split; auto. exists i. split; [lia|reflexivity].
        - intros Hres Hin Hz. rewrite <- Hcl1 in Hz.
          destruct (Hclose Hres Hin Hz) as (i & Hi & ->).
          exists i. split; [lia|reflexivity]. }
      clear Hcamp.
      destruct Hcase as [[Hdb Hleft]|(_ & Hz & Hsteps & Hdb)].
      * rewrite Hdb in Hcamp'.
        eapply Forall2_impl; [|exact Hcamp']. intros c c' [Hrel Hclose]. split.
        -- destruct Hrel as [->|(Hin & Hz & i & Hi & ->)]; [now left|].
           right. split; [now right|]. eauto.
        -- intros Hres [Heq|Hin] Hzero.
           ++ exfalso. subst x. now apply Hleft.
           ++ now apply Hclose.
      * rewrite Hdb in Hcamp'. unfold update_campaign in Hcamp'. simpl in Hcamp'.
        revert Hcamp'. generalize (campaigns (w_db w')).
        induction (campaigns (w_db w)) as [|c cs IHc]; intros l H;
          inversion H as [|c1 c' ? l' [Hrel Hclose] Hrest]; subst; constructor.
        -- destruct (Z.eqb_spec (g_id c) x) as [Hx|Hx].
           ++ assert (Hc' : exists i, (w_steps w <= i < w_steps w')%nat /\
                                      c' = set_completed (clock env i) c).
              { destruct Hrel as [->|(_ & _ & i & Hi & ->)].
                - exists (S (w_steps w)). split; [lia|reflexivity].
                - exists i. split; [lia|apply set_completed_twice]. }
              split; [|intros _ _ _; exact Hc'].
              right. split; [now left|]. split; [now rewrite Hx|exact Hc'].
           ++ split.
              ** destruct Hrel as [->|(Hin & Hz' & Hi)]; [now left|].
                 right. split; [now right|]. auto.
              ** intros Hres [Heq|Hin] Hzero; [congruence|]. now apply Hclose.
        -- now apply IHc.
    + inversion Hrun; subst.
      destruct Hcase as [[Hdb _]|(Hres & _)]; [|discriminate].
      rewrite Hdb. repeat split; auto; try lia.
      apply Forall2_refl. intros c. split; [now left | discriminate].
Qed.

End Scan.

(** ** The tick as a whole *)

Section Tick.

Variable cfg : Config.
Variable env : Env.

Lemma tick_unfold w :
  process_queue_tick cfg env w =
  match store_fault env (w_steps w) with
  | Some e => (inr (Exception e), next_step w)
  | None =>
      match for_each (process_message cfg env)
                     (select_queued (SEND_PER_SECOND cfg) (w_db w)) (next_step w) with
      | (inl _, w1) => mark_completed env w1
      | (inr e, w1) => (inr e, w1)
      end
  end.
Proof.
  unfold process_queue_tick, bind, sql_query.
  destruct (store_fault env (w_steps w)); reflexivity.
Qed.

Lemma mark_completed_unfold w :
  mark_completed env w =
  match store_fault env (w_steps w) with
  | Some e => (inr (Exception e), next_step w)
  | None => for_each (close_if_drained env) (select_started (w_db w)) (next_step w)
  end.
Proof.
  unfold mark_completed, bind, sql_query.
  destruct (store_fault env (w_steps w)); reflexivity.
Qed.

(** One row changes the store by one outcome on its own message. *)
Lemma process_message_db r w :
  exists o, w_db (snd (process_message cfg env r w))
            = update_message (rid r) (apply_outcome o) (w_db w).
Proof.
  destruct (process_message_run cfg env r w) as (o & res & cs & k & E & _).
  exists o. now rewrite E.
Qed.

Lemma process_message_steps r w :
  (w_steps w <= w_steps (snd (process_message cfg env r w)))%nat.
Proof.
  destruct (process_message_run cfg env r w) as (o & res & cs & k & E & _).
  rewrite E. simpl. lia.
Qed.

(** The message loop touches nothing but the batch's own messages. *)
Lemma rows_loop_frame rows w :
  rows_ready rows (w_db w) ->
  let w' := snd (for_each (process_message cfg env) rows w) in
  Forall2 msg_step (messages (w_db w)) (messages (w_db w')) /\
  contacts (w_db w') = contacts (w_db w) /\
  campaigns (w_db w') = campaigns (w_db w) /\
  audit_log (w_db w') = audit_log (w_db w) /\
  (w_steps w <= w_steps w')%nat.
Proof.
  intros Hready.
  pose (I := fun (rs : list Row) (x : World) =>
    rows_ready rs (w_db x) /\
    Forall2 msg_step (messages (w_db w)) (messages (w_db x)) /\
    contacts (w_db x) = contacts (w_db w) /\
    campaigns (w_db x) = campaigns (w_db w) /\
    audit_log (w_db x) = audit_log (w_db w) /\
    (w_steps w <= w_steps x)%nat).
  assert (H : I [] (snd (for_each (process_message cfg env) rows w))).
  { apply for_each_invariant with (I := I).
    - intros r rs x (Hr & Hms & Hc & Hg & Ha & Hs).
      destruct (process_message_db r x) as [o Ho].
      pose proof (process_message_steps r x) as Hst.
      unfold I. rewrite Ho.
      split; [now apply rows_ready_step|].
      split; [|simpl; repeat split; auto; lia].
      eapply Forall2_trans; [exact msg_step_trans | exact Hms |].
      eapply update_message_step; eauto.
    - intros r rs x (Hr & Hrest). split; [eapply rows_ready_tail; eauto | exact Hrest].
    - unfold I. split; [exact Hready|].
      split; [apply Forall2_refl, msg_step_refl | auto]. }
  destruct H as (_ & H). exact H.
Qed.

(** The scan touches nothing but completion times. *)
Lemma mark_completed_frame w :
  let w' := snd (mark_completed env w) in
  messages (w_db w') = messages (w_db w) /\
  contacts (w_db w') = contacts (w_db w) /\
  audit_log (w_db w') = audit_log (w_db w) /\
  w_calls w' = w_calls w /\ (w_steps w < w_steps w')%nat /\
  Forall2 (fun c c' =>
     scan_rel env (select_started (w_db w)) (w_db w) (w_steps w) (w_steps w') c c' /\
     (fst (mark_completed env w) = inl tt ->
      scan_closes env (select_started (w_db w)) (w_db w) (w_steps w) (w_steps w') c c'))
    (campaigns (w_db w)) (campaigns (w_db w')).
Proof.
  rewrite mark_completed_unfold.
  destruct (store_fault env (w_steps w)) as [e|]; simpl.
  - repeat split; auto. apply Forall2_refl. intros c. split; [now left | discriminate].
  - destruct (for_each (close_if_drained env) (select_started (w_db w)) (next_step w))
      as [res w'] eqn:E.
    apply scan_loop in E. simpl in *.
    destruct E as (Hm & Hc & Ha & Hcl & Hs & Hcamp).
    repeat split; auto; try lia.
    eapply Forall2_impl; [|exact Hcamp]. intros c c' [Hrel Hclose]. split.
    + destruct Hrel as [->|(H1 & H2 & i & Hi & ->)]; [now left|].
      right. repeat split; auto. exists i. split; [lia|reflexivity].
    + intros Hres Hin Hz. destruct (Hclose Hres Hin Hz) as (i & Hi & ->).
      exists i. split; [lia|reflexivity].
Qed.

End Tick.

(** ** How the store evolves under any operation *)

Definition fresh_message (m : Message) : Prop :=
  m_status m = queued /\ m_provider_id m = None /\ m_error m = None /\
  m_sent_at m = None.

(** A completion time is only ever found on a campaign with a start time. *)
Definition camp_ok (c : Campaign) : Prop :=
  is_some (g_completed_at c) = true -> is_some (g_started_at c) = true.

(** What may happen to a stored campaign: its identity stays, a completion
    time stays as it is once set, a start time stays set, and a completion
    time appears only on a campaign that has a start time. *)
Definition camp_step (c c' : Campaign) : Prop :=
  g_id c' = g_id c /\
  (forall t, g_completed_at c = Some t -> g_completed_at c' = Some t) /\
  (is_some (g_started_at c) = true -> is_some (g_started_at c') = true) /\
  (is_some (g_completed_at c') = true ->
   is_some (g_completed_at c) = true \/ is_some (g_started_at c') = true).

Lemma camp_step_refl c : camp_step c c.
Proof. unfold camp_step. auto. Qed.

Lemma camp_step_trans c1 c2 c3 : camp_step c1 c2 -> camp_step c2 c3 -> camp_step c1 c3.
Proof.
  intros (Hi & Hc & Hs & Hd) (Hi' & Hc' & Hs' & Hd').
  unfold camp_step. repeat split.
  - congruence.
  - auto.
  - auto.
  - intros H. destruct (Hd' H) as [H2|H2]; [|now right].
    destruct (Hd H2) as [H1|H1]; [now left | right; auto].
Qed.

Definition flags_ok (c : Contact) : Prop :=
  (c_consented c = 0 \/ c_consented c = 1) /\ (c_opted_out c = 0 \/ c_opted_out c = 1).

Lemma db_wf_iff d :
  db_wf d = true <->
  NoDup (map m_id (messages d)) /\ NoDup (map c_id (contacts d)) /\
  NoDup (map g_id (campaigns d)) /\ Forall flags_ok (contacts d).
Proof.
  unfold db_wf. rewrite !andb_true_iff, !distinct_NoDup, forallb_forall, Forall_forall.
  unfold flags_ok, flag01. split.
  - intros [[[H1 H2] H3] H4]. repeat split; auto;
      specialize (H4 x H); rewrite andb_true_iff, !orb_true_iff, !Z.eqb_eq in H4; tauto.
  - intros (H1 & H2 & H3 & H4). repeat split; auto.
    intros x Hx. specialize (H4 x Hx).
    rewrite andb_true_iff, !orb_true_iff, !Z.eqb_eq. tauto.
Qed.

Lemma fold_max_ge ids x : In x ids -> x <= fold_right Z.max 0 ids.
Proof.
  induction ids as [|y ys IH]; simpl; [contradiction|].
  intros [->|H]; [lia | specialize (IH H); lia].
Qed.

Lemma next_rowid_fresh ids : ~ In (next_rowid ids) ids.
Proof.
  intros H. apply fold_max_ge in H. unfold next_rowid in H. lia.
Qed.

Lemma NoDup_snoc {A} (l : list A) x : NoDup l -> ~ In x l -> NoDup (l ++ [x]).
Proof.
  intros Hl Hx. eapply Permutation_NoDup; [apply Permutation_cons_append|].
  now constructor.
Qed.

Lemma camp_step_ok c c' : camp_step c c' -> camp_ok c -> camp_ok c'.
Proof.
  intros (_ & _ & Hs & Hd) Hok H. destruct (Hd H) as [H1|H1]; auto.
Qed.

(** The store after is the store before with, at most, messages appended,
    campaigns started or appended, and contacts edited. *)
Record quiet (d d' : DB) : Prop := mkQuiet {
  q_messages : exists new, messages d' = messages d ++ new /\ Forall fresh_message new;
  q_campaigns : exists old new,
      campaigns d' = old ++ new /\ Forall2 camp_step (campaigns d) old /\
      Forall camp_ok new;
  q_wf : db_wf d = true -> db_wf d' = true
}.

Lemma quiet_refl d : quiet d d.
Proof.
  constructor; auto.
  - exists []. rewrite app_nil_r. auto.
  - exists (campaigns d), []. rewrite app_nil_r.
    split; [reflexivity|]. split; [|constructor].
    apply Forall2_refl, camp_step_refl.
Qed.

Lemma Forall2_preserves {A} (R : A -> A -> Prop) (P : A -> Prop) l l' :
  (forall x y, R x y -> P x -> P y) -> Forall2 R l l' -> Forall P l -> Forall P l'.
Proof.
  intros H. induction 1; intros HP; inversion HP; subst; constructor; eauto.
Qed.

Lemma quiet_trans d1 d2 d3 : quiet d1 d2 -> quiet d2 d3 -> quiet d1 d3.
Proof.
  intros [(n1 & E1 & F1) (o1 & c1 & G1 & S1 & N1) W1]
         [(n2 & E2 & F2) (o2 & c2 & G2 & S2 & N2) W2].
  constructor; auto.
  - exists (n1 ++ n2). rewrite E2, E1, app_assoc. split; [reflexivity|].
    apply Forall_app. auto.
  - rewrite G1 in S2. apply Forall2_app_inv_l in S2.
    destruct S2 as (a & b & Sa & Sb & ->).
    exists a, (b ++ c2). rewrite G2, app_assoc.
    split; [reflexivity|]. split.
    + eapply Forall2_trans; [exact camp_step_trans | exact S1 | exact Sa].
    + apply Forall_app. split; [|assumption].
      eapply Forall2_preserves; [exact camp_step_ok | exact Sb | exact N1].
Qed.

(** A computation all of whose store writes are quiet. *)
Definition quietly {A} (c : M A) : Prop :=
  forall w, quiet (w_db w) (w_db (snd (c w))) /\
            (w_steps w <= w_steps (snd (c w)))%nat /\
            w_calls (snd (c w)) = w_calls w.

Lemma quietly_ret {A} (a : A) : quietly (ret a).
Proof. intros w. simpl. split; [apply quiet_refl | auto]. Qed.

Lemma quietly_raise {A} e : quietly (@raise A e).
Proof. intros w. simpl. split; [apply quiet_refl | auto]. Qed.

Lemma quietly_bind {A B} (c : M A) (k : A -> M B) :
  quietly c -> (forall a, quietly (k a)) -> quietly (bind c k).
Proof.
  intros Hc Hk w. unfold bind. destruct (Hc w) as (Q1 & S1 & C1).
  destruct (c w) as [[a|e] w1]; simpl in *; [|auto].
  destruct (Hk a w1) as (Q2 & S2 & C2).
  split; [eapply quiet_trans; eauto|]. split; [lia | congruence].
Qed.

Lemma quietly_transaction {A} (c : M A) : quietly c -> quietly (transaction c).
Proof.
  intros Hc w. unfold transaction. destruct (Hc w) as (Q1 & S1 & C1).
  destruct (c w) as [[a|e] w1]; simpl in *; [auto|].
  split; [apply quiet_refl | auto].
Qed.

Lemma quietly_for_each {A} (body : A -> M unit) l :
  (forall x, quietly (body x)) -> quietly (for_each body l).
Proof.
  intros H. induction l as [|x xs IH]; simpl.
  - apply quietly_ret.
  - apply quietly_bind; auto.
Qed.

Section Quiet.

Variable cfg : Config.
Variable env : Env.

Lemma quietly_query {A} (q : DB -> Time -> A) : quietly (sql_query env q).
Proof.
  intros w. unfold sql_query.
  destruct (store_fault env (w_steps w)); simpl; (split; [apply quiet_refl | auto]).
Qed.

Lemma quietly_exec (u : DB -> Time -> DB) :
  (forall d t, quiet d (u d t)) -> quietly (sql_exec env u).
Proof.
  intros H w. unfold sql_exec.
  destruct (store_fault env (w_steps w)); simpl; (split; [|auto]);
    [apply quiet_refl | apply H].
Qed.

Lemma quiet_same_tables d d' :
  messages d' = messages d -> campaigns d' = campaigns d ->
  contacts d' = contacts d -> quiet d d'.
Proof.
  intros Hm Hg Hc. constructor.
  - exists []. rewrite app_nil_r. auto.
  - exists (campaigns d), []. rewrite app_nil_r.
    split; [assumption|]. split; [|constructor]. apply Forall2_refl, camp_step_refl.
  - unfold db_wf. now rewrite Hm, Hg, Hc.
Qed.

Lemma quietly_audit action meta : quietly (audit env action meta).
Proof.
  apply quietly_exec. intros d t. now apply quiet_same_tables.
Qed.

Lemma new_contact_id_fresh d : ~ In (new_contact_id d) (map c_id (contacts d)).
Proof.
  intros H. apply (next_rowid_fresh (contacts_seq d :: map c_id (contacts d))).
  now right.
Qed.

Lemma quietly_bind_int z : quietly (bind_int z).
Proof. unfold bind_int. destruct (fits_int64 z); [apply quietly_ret | apply quietly_raise]. Qed.

Lemma quiet_contacts d cs s :
  (db_wf d = true -> NoDup (map c_id cs) /\ Forall flags_ok cs) ->
  quiet d (mkDB cs (campaigns d) (messages d) (audit_log d) s).
Proof.
  intros H. constructor; simpl.
  - exists []. rewrite app_nil_r. auto.
  - exists (campaigns d), []. rewrite app_nil_r.
    split; [reflexivity|]. split; [|constructor]. apply Forall2_refl, camp_step_refl.
  - intros Hwf. destruct (H Hwf) as [H1 H2].
    apply db_wf_iff in Hwf. apply db_wf_iff. simpl. tauto.
Qed.

Lemma quiet_upsert name phone tags consented d t :
  consented = 0 \/ consented = 1 ->
  quiet d (upsert_contact name phone tags consented d t).
Proof.
  intros Hcons. unfold upsert_contact. apply quiet_contacts.
  intros Hwf. apply db_wf_iff in Hwf. destruct Hwf as (_ & Hnd & _ & Hfl).
  destruct (existsb _ (contacts d)).
  - split.
    + rewrite map_map. erewrite map_ext; [exact Hnd|].
      intros c. simpl. now destruct (String.eqb (c_phone c) phone).
    + rewrite Forall_forall in *. intros c' Hc'. apply in_map_iff in Hc'.
      destruct Hc' as (c & <- & Hc). specialize (Hfl c Hc).
      destruct (String.eqb (c_phone c) phone); [|assumption].
      unfold flags_ok in *; simpl. lia.
  - split.
    + rewrite map_app. simpl. apply NoDup_snoc; [assumption | apply new_contact_id_fresh].
    + apply Forall_app. split; [assumption|].
      constructor; [|constructor]. unfold flags_ok; simpl. lia.
Qed.

Lemma quiet_opt_out sel d : quiet d (update_contacts sel set_opted_out d).
Proof.
  unfold update_contacts. apply quiet_contacts.
  intros Hwf. apply db_wf_iff in Hwf. destruct Hwf as (_ & Hnd & _ & Hfl). split.
  - rewrite map_map. erewrite map_ext; [exact Hnd|].
    intros c. simpl. now destruct (sel c).
  - rewrite Forall_forall in *. intros c' Hc'. apply in_map_iff in Hc'.
    destruct Hc' as (c & <- & Hc). specialize (Hfl c Hc).
    destruct (sel c); [|assumption]. unfold flags_ok in *; simpl. tauto.
Qed.

Lemma quiet_insert_campaign name tpl tag d t : quiet d (insert_campaign name tpl tag d t).
Proof.
  unfold insert_campaign. constructor; simpl.
  - exists []. rewrite app_nil_r. auto.
  - eexists (campaigns d), [_]. split; [reflexivity|].
    split; [apply Forall2_refl, camp_step_refl|].
    constructor; [|constructor]. unfold camp_ok; simpl. discriminate.
  - intros Hwf. apply db_wf_iff in Hwf. apply db_wf_iff. simpl.
    destruct Hwf as (H1 & H2 & H3 & H4). repeat split; auto.
    rewrite map_app. simpl. apply NoDup_snoc; [assumption | apply next_rowid_fresh].
Qed.

Lemma quiet_set_started id d t : quiet d (update_campaign id (set_started t) d).
Proof.
  unfold update_campaign. constructor; simpl.
  - exists []. rewrite app_nil_r. auto.
  - eexists _, []. rewrite app_nil_r. split; [reflexivity|]. split; [|constructor].
    apply Forall2_map_r. intros c _.
    destruct (g_id c =? id); [|apply camp_step_refl].
    unfold camp_step; simpl. auto.
  - intros Hwf. apply db_wf_iff in Hwf. apply db_wf_iff. simpl.
    destruct Hwf as (H1 & H2 & H3 & H4). repeat split; auto.
    rewrite map_map. erewrite map_ext; [exact H3|].
    intros c. simpl. now destruct (g_id c =? id).
Qed.

Lemma quiet_insert_message gid cid to body d t :
  quiet d (insert_message gid cid to body d t).
Proof.
  unfold insert_message. constructor; simpl.
  - eexists [_]. split; [reflexivity|]. constructor; [|constructor].
    unfold fresh_message; simpl. auto.
  - exists (campaigns d), []. rewrite app_nil_r.
    split; [reflexivity|]. split; [|constructor]. apply Forall2_refl, camp_step_refl.
  - intros Hwf. apply db_wf_iff in Hwf. apply db_wf_iff. simpl.
    destruct Hwf as (H1 & H2 & H3 & H4). repeat split; auto.
    rewrite map_app. simpl. apply NoDup_snoc; [assumption | apply next_rowid_fresh].
Qed.

Lemma quietly_lastrowid : quietly lastrowid.
Proof. intros w. simpl. split; [apply quiet_refl | auto]. Qed.

(** Every handler other than the tick is quiet. *)
Lemma quietly_startup : quietly (startup env).
Proof. apply quietly_exec. intros d t. apply quiet_refl. Qed.

Lemma quietly_contacts_add name phone tags consented :
  quietly (contacts_add env name phone tags consented).
Proof.
  apply quietly_bind; [|intros; apply quietly_audit].
  apply quietly_exec. intros d t. apply quiet_upsert.
  destruct (is_some _); auto.
Qed.

Lemma quietly_contacts_import_csv rows : quietly (contacts_import_csv env rows).
Proof.
  apply quietly_bind; [|intros; apply quietly_audit].
  apply quietly_transaction, quietly_for_each. intros row.
  apply quietly_exec. intros d t. apply quiet_upsert.
  destruct (_ || _); auto.
Qed.

Lemma quietly_contact_optout id : quietly (contact_optout env id).
Proof.
  apply quietly_bind; [apply quietly_bind_int|]. intros _.
  apply quietly_bind; [|intros; apply quietly_audit].
  apply quietly_exec. intros d t. apply quiet_opt_out.
Qed.

Lemma quietly_unsubscribe phone : quietly (unsubscribe env phone).
Proof.
  apply quietly_bind; [|intros; apply quietly_audit].
  apply quietly_exec. intros d t. apply quiet_opt_out.
Qed.

Lemma quietly_campaigns_create name tpl tag : quietly (campaigns_create env name tpl tag).
Proof.
  apply quietly_bind; [|intros _; apply quietly_bind;
                        [apply quietly_lastrowid | intros; apply quietly_audit]].
  apply quietly_exec. intros d t. apply quiet_insert_campaign.
Qed.

Lemma quietly_campaigns_start id : quietly (campaigns_start cfg env id).
Proof.
  apply quietly_bind; [|intros; apply quietly_audit].
  apply quietly_transaction, quietly_bind; [apply quietly_bind_int|]. intros _.
  apply quietly_bind; [apply quietly_query|].
  intros [camp|]; [|apply quietly_raise].
  apply quietly_bind; [apply quietly_query|]. intros recipients.
  apply quietly_bind; [apply quietly_exec; intros; apply quiet_set_started|].
  intros _. apply quietly_bind; [|intros; apply quietly_ret].
  apply quietly_for_each. intros c.
  apply quietly_exec. intros d t. apply quiet_insert_message.
Qed.

End Quiet.

(** Outcome bookkeeping of one message: nothing recorded while it is queued
    or sending, then exactly one of provider reference and error detail. *)
Definition msg_ok (m : Message) : Prop :=
  match m_status m with
  | queued | sending => m_provider_id m = None /\ m_error m = None
  | sent => m_provider_id m <> None /\ m_error m = None
  | failed | skipped => m_provider_id m = None /\ m_error m <> None
  end.

Lemma fresh_message_ok m : fresh_message m -> msg_ok m.
Proof. intros (Hs & Hp & He & _). unfold msg_ok. rewrite Hs. auto. Qed.

Lemma msg_step_ok m m' : msg_step m m' -> msg_ok m -> msg_ok m'.
Proof.
  intros [->|(Hq & o & ->)] Hok; [assumption|].
  unfold msg_ok in *. rewrite Hq in Hok. destruct Hok as [Hp He].
  destruct o; simpl; rewrite ?Hq, ?Hp, ?He; split; auto; discriminate.
Qed.

(** The store after any operation, tick included. *)
Record evolves (d d' : DB) : Prop := mkEvolves {
  e_messages : exists old new,
      messages d' = old ++ new /\ Forall2 msg_step (messages d) old /\
      Forall msg_ok new;
  e_campaigns : exists old new,
      campaigns d' = old ++ new /\ Forall2 camp_step (campaigns d) old /\
      Forall camp_ok new;
  e_wf : db_wf d' = true
}.

Lemma evolves_refl d : db_wf d = true -> evolves d d.
Proof.
  intros Hwf. constructor; auto.
  - exists (messages d), []. rewrite app_nil_r.
    split; [reflexivity|]. split; [|constructor]. apply Forall2_refl, msg_step_refl.
  - exists (campaigns d), []. rewrite app_nil_r.
    split; [reflexivity|]. split; [|constructor]. apply Forall2_refl, camp_step_refl.
Qed.

Lemma evolves_trans d1 d2 d3 : evolves d1 d2 -> evolves d2 d3 -> evolves d1 d3.
Proof.
  intros [(o1 & n1 & E1 & S1 & N1) (p1 & c1 & G1 & T1 & K1) W1]
         [(o2 & n2 & E2 & S2 & N2) (p2 & c2 & G2 & T2 & K2) W2].
  constructor; auto.
  - rewrite E1 in S2. apply Forall2_app_inv_l in S2.
    destruct S2 as (a & b & Sa & Sb & ->).
    exists a, (b ++ n2). rewrite E2, app_assoc.
    split; [reflexivity|]. split.
    + eapply Forall2_trans; [exact msg_step_trans | exact S1 | exact Sa].
    + apply Forall_app. split; [|assumption].
      eapply Forall2_preserves; [exact msg_step_ok | exact Sb | exact N1].
  - rewrite G1 in T2. apply Forall2_app_inv_l in T2.
    destruct T2 as (a & b & Ta & Tb & ->).
    exists a, (b ++ c2). rewrite G2, app_assoc.
    split; [reflexivity|]. split.
    + eapply Forall2_trans; [exact camp_step_trans | exact T1 | exact Ta].
    + apply Forall_app. split; [|assumption].
      eapply Forall2_preserves; [exact camp_step_ok | exact Tb | exact K1].
Qed.

Lemma quiet_evolves d d' : db_wf d = true -> quiet d d' -> evolves d d'.
Proof.
  intros Hwf [(n & E & F) G W]. constructor; auto.
  exists (messages d), n. split; [assumption|].
  split; [apply Forall2_refl, msg_step_refl|].
  eapply Forall_impl; [|exact F]. exact fresh_message_ok.
Qed.

Section Evolution.

Variable cfg : Config.
Variable env : Env.

Lemma started_open_of_id d c :
  NoDup (map g_id (campaigns d)) -> In c (campaigns d) ->
  In (g_id c) (select_started d) -> started_open c = true.
Proof.
  intros Hnd Hc Hin. unfold select_started in Hin. apply in_map_iff in Hin.
  destruct Hin as (c0 & Hid & Hc0). apply filter_In in Hc0. destruct Hc0 as [Hc0 Hopen].
  now rewrite <- (NoDup_map_inj g_id _ _ _ Hnd Hc0 Hc Hid).
Qed.

Lemma scan_rel_camp_step d lo hi c c' :
  NoDup (map g_id (campaigns d)) -> In c (campaigns d) ->
  scan_rel env (select_started d) d lo hi c c' -> camp_step c c'.
Proof.
  intros Hnd Hc [->|(Hin & _ & i & _ & ->)]; [apply camp_step_refl|].
  pose proof (started_open_of_id d c Hnd Hc Hin) as Hopen.
  unfold started_open in Hopen. apply andb_true_iff in Hopen.
  destruct Hopen as [Hs Hn]. apply negb_true_iff in Hn.
  unfold camp_step; simpl. repeat split; auto.
  intros t Ht. rewrite Ht in Hn. discriminate.
Qed.

Lemma Forall2_impl_in {A B} (R R' : A -> B -> Prop) l l' :
  (forall x y, In x l -> R x y -> R' x y) -> Forall2 R l l' -> Forall2 R' l l'.
Proof.
  intros H. induction 1 as [|x y l l' Hxy _ IH]; constructor.
  - apply H; [now left | assumption].
  - apply IH. intros a b Ha. apply H. now right.
Qed.

Lemma camps_step_ids cs cs' :
  Forall2 camp_step cs cs' -> map g_id cs' = map g_id cs.
Proof.
  induction 1 as [|c c' cs cs' H _ IH]; simpl; [reflexivity|].
  destruct H as (Hid & _). now rewrite IH, Hid.
Qed.

(** The effect of a tick, however it ends. *)
Lemma tick_effect w :
  db_wf (w_db w) = true ->
  let w' := snd (process_queue_tick cfg env w) in
  Forall2 msg_step (messages (w_db w)) (messages (w_db w')) /\
  contacts (w_db w') = contacts (w_db w) /\
  audit_log (w_db w') = audit_log (w_db w) /\
  Forall2 camp_step (campaigns (w_db w)) (campaigns (w_db w')) /\
  (w_steps w < w_steps w')%nat.
Proof.
  intros Hwf. rewrite tick_unfold.
  destruct (store_fault env (w_steps w)) as [e|]; simpl.
  - repeat split; auto.
    + apply Forall2_refl, msg_step_refl.
    + apply Forall2_refl, camp_step_refl.
  - pose proof (rows_loop_frame cfg env (select_queued (SEND_PER_SECOND cfg) (w_db w))
                  (next_step w) (select_queued_ready _ _ Hwf)) as Hloop.
    simpl in Hloop.
    destruct (for_each (process_message cfg env) _ (next_step w)) as [[[]|e] w1];
      simpl in *; destruct Hloop as (Hm & Hc & Hg & Ha & Hs).
    + pose proof (mark_completed_frame env w1) as Hscan. simpl in Hscan.
      destruct Hscan as (Hm2 & Hc2 & Ha2 & _ & Hs2 & Hcamp).
      rewrite Hm2. repeat split; try congruence; try lia.
      rewrite <- Hg. eapply Forall2_impl_in; [|exact Hcamp].
      intros c c' Hin [Hrel _]. eapply scan_rel_camp_step; eauto.
      rewrite Hg. now apply db_wf_campaigns.
    + rewrite Hg. repeat split; auto; try lia. apply Forall2_refl, camp_step_refl.
Qed.

Lemma tick_evolves w :
  db_wf (w_db w) = true ->
  evolves (w_db w) (w_db (snd (process_queue_tick cfg env w))).
Proof.
  intros Hwf. destruct (tick_effect w Hwf) as (Hm & Hc & Ha & Hg & Hs).
  constructor.
  - eexists _, []. rewrite app_nil_r. split; [reflexivity|]. split; [exact Hm|constructor].
  - eexists _, []. rewrite app_nil_r. split; [reflexivity|]. split; [exact Hg|constructor].
  - apply db_wf_iff in Hwf. apply db_wf_iff.
    rewrite (msgs_step_ids _ _ Hm), Hc, (camps_step_ids _ _ Hg). exact Hwf.
Qed.

Lemma quietly_op op : op <> OpTick -> quietly (run_op cfg env op).
Proof.
  destruct op; intros H; simpl.
  - apply quietly_startup.
  - congruence.
  - apply quietly_contacts_add.
  - apply quietly_contacts_import_csv.
  - apply quietly_contact_optout.
  - apply quietly_campaigns_create.
  - apply quietly_campaigns_start.
  - apply quietly_unsubscribe.
Qed.

Lemma op_evolves op w :
  db_wf (w_db w) = true -> evolves (w_db w) (w_db (snd (run_op cfg env op w))).
Proof.
  intros Hwf. destruct op; try (apply quiet_evolves; [assumption|];
    apply quietly_op; discriminate).
  apply tick_evolves, Hwf.
Qed.

Lemma run_ops_evolves ops : forall w,
  db_wf (w_db w) = true -> evolves (w_db w) (w_db (run_ops cfg env ops w)).
Proof.
  induction ops as [|op ops IH]; intros w Hwf; simpl.
  - now apply evolves_refl.
  - pose proof (op_evolves op w Hwf) as H1.
    eapply evolves_trans; [exact H1|]. apply IH. apply H1.
Qed.

Lemma op_steps op w : (w_steps w <= w_steps (snd (run_op cfg env op w)))%nat.
Proof.
  destruct op; try (apply quietly_op; discriminate).
  simpl. rewrite tick_unfold.
  destruct (store_fault env (w_steps w)); simpl; [lia|].
  pose proof (process_message_steps cfg env) as Hrow.
  assert (Hloop : forall rows x,
            (w_steps x <= w_steps (snd (for_each (process_message cfg env) rows x)))%nat).
  { induction rows as [|r rows IH]; intros x; simpl; [lia|].
    unfold bind. specialize (Hrow r x).
    destruct (process_message cfg env r x) as [[[]|e] x1]; simpl in *; [|lia].
    specialize (IH x1). lia. }
  specialize (Hloop (select_queued (SEND_PER_SECOND cfg) (w_db w)) (next_step w)).
  destruct (for_each (process_message cfg env) _ (next_step w)) as [[[]|e] w1];
    simpl in *; [|lia].
  pose proof (mark_completed_frame env w1) as Hscan. simpl in Hscan. lia.
Qed.

End Evolution.

(** ** The message loop, row by row *)

(** [sub] keeps some elements of [l], in the order of [l]. *)
Inductive subseq {A} : list A -> list A -> Prop :=
| subseq_nil : subseq [] []
| subseq_skip x sub l : subseq sub l -> subseq sub (x :: l)
| subseq_keep x sub l : subseq sub l -> subseq (x :: sub) (x :: l).

Lemma subseq_nil_l {A} (l : list A) : subseq [] l.
Proof. induction l; constructor; auto. Qed.

Definition no_faults (env : Env) : Prop := forall i, store_fault env i = None.

Section Loop.

Variable cfg : Config.
Variable env : Env.

Definition call_of (r : Row) : Call :=
  mkCall (rid r) (m_to_phone (r_msg r)) (m_body (r_msg r)).

Lemma row_run_calls r w o res cs k :
  row_run cfg env r w o res cs k ->
  cs = [] \/ (cs = [call_of r] /\ gate_passes r).
Proof.
  unfold call_of, rid.
  destruct 1; auto;
    match goal with
    | H : _ \/ _ |- _ => destruct H; auto
    | _ => idtac
    end.
Qed.

(** The provider is called only for rows that passed the consent gate, at
    most once per row, in the order of the rows. *)
Lemma rows_loop_calls rows : forall w,
  exists cs,
    w_calls (snd (for_each (process_message cfg env) rows w)) = w_calls w ++ cs /\
    subseq (map call_msg cs) (map rid rows) /\
    Forall (fun call => exists r, In r rows /\ call = call_of r /\ gate_passes r) cs.
Proof.
  induction rows as [|r rows IH]; intros w; simpl.
  - exists []. rewrite app_nil_r. repeat constructor.
  - unfold bind.
    destruct (process_message_run cfg env r w) as (o & res & cs & k & E & Hrun).
    rewrite E. apply row_run_calls in Hrun.
    assert (Hcs : subseq (map call_msg cs) [rid r] /\
                  Forall (fun call => exists r0, In r0 (r :: rows) /\ call = call_of r0 /\
                                                 gate_passes r0) cs).
    { destruct Hrun as [->|[-> Hg]]; simpl.
      - split; [apply subseq_skip, subseq_nil | constructor].
      - split; [apply subseq_keep, subseq_nil|].
        constructor; [|constructor]. exists r. simpl; auto. }
    destruct Hcs as [Hsub Hall].
    destruct res as [[]|e]; simpl.
    + destruct (IH (mkWorld (update_message (m_id (r_msg r)) (apply_outcome o) (w_db w))
                            (k + w_steps w) (w_calls w ++ cs))) as (cs' & E' & Hsub' & Hall').
      simpl in E'. exists (cs ++ cs'). rewrite E', app_assoc.
      split; [reflexivity|]. split.
      * rewrite map_app.
        destruct Hrun as [->|[-> _]]; simpl; [now apply subseq_skip | now apply subseq_keep].
      * apply Forall_app. split; [assumption|].
        eapply Forall_impl; [|exact Hall']. intros c (r0 & H0 & H1). exists r0. simpl; auto.
    + exists cs. split; [reflexivity|]. split; [|assumption].
      destruct Hrun as [->|[-> _]]; simpl; [apply subseq_nil_l|].
      apply subseq_keep, subseq_nil_l.
Qed.

(** A message whose id is not in the batch is not touched by the loop. *)
Lemma rows_loop_untouched rows : forall w m,
  In m (messages (w_db w)) -> ~ In (m_id m) (map rid rows) ->
  In m (messages (w_db (snd (for_each (process_message cfg env) rows w)))).
Proof.
  induction rows as [|r rows IH]; intros w m Hm Hid; simpl; [assumption|].
  unfold bind. destruct (process_message_db cfg env r w) as [o Ho].
  assert (Hm1 : In m (messages (w_db (snd (process_message cfg env r w))))).
  { rewrite Ho. apply in_update_message. exists m. split; [assumption|].
    destruct (Z.eqb_spec (m_id m) (rid r)) as [E|_]; [|reflexivity].
    exfalso. apply Hid. simpl. now left. }
  destruct (process_message cfg env r w) as [[[]|e] w1]; simpl in *; [|assumption].
  apply IH; [assumption|]. intros H. apply Hid. now right.
Qed.

(** With a store that does not fail, a row ends in one of three ways. *)
Lemma row_run_no_faults r w o res cs k :
  no_faults env -> row_run cfg env r w o res cs k ->
  res = inl tt /\
  ((~ gate_passes r /\ o = OSkipped "no consent or opted out" /\ cs = []) \/
   (gate_passes r /\ o = OSkipped "daily cap reached" /\ cs = [] /\
    MAX_DAILY_PER_CONTACT cfg
      <= sent_today (m_contact_id (r_msg r)) (w_db w) (clock env (w_steps w))) \/
   (gate_passes r /\
    sent_today (m_contact_id (r_msg r)) (w_db w) (clock env (w_steps w))
      < MAX_DAILY_PER_CONTACT cfg /\
    ((exists p,
        fst (send_sms_africastalking cfg env (rid r) (m_to_phone (r_msg r))
               (m_body (r_msg r))
               (mkWorld (update_message (rid r) set_sending (w_db w))
                        (S (S (w_steps w))) (w_calls w))) = inl p /\
        o = OSent p (clock env (S (S (S (w_steps w))))) /\ cs = [call_of r]) \/
     (exists e,
        fst (send_sms_africastalking cfg env (rid r) (m_to_phone (r_msg r))
               (m_body (r_msg r))
               (mkWorld (update_message (rid r) set_sending (w_db w))
                        (S (S (w_steps w))) (w_calls w))) = inr e /\
        o = OFailed (str e))))).
Proof.
  intros Hnf Hrun. unfold rid, call_of.
  destruct Hrun;
    try match goal with
        | H : store_fault env ?i = Some _ |- _ => rewrite (Hnf i) in H; discriminate
        end.
  - split; [reflexivity|]. left. auto.
  - split; [reflexivity|]. right. left. auto.
  - split; [reflexivity|]. right. right. split; [assumption|]. split; [assumption|].
    left. subst cs. exists p. auto.
  - split; [reflexivity|]. right. right. split; [assumption|]. split; [assumption|].
    right. exists e. auto.
Qed.

(** With a store that does not fail, the loop reaches every row and leaves
    each row's message with the outcome of its own run. *)
Lemma rows_loop_complete rows : forall w,
  no_faults env -> rows_ready rows (w_db w) ->
  fst (for_each (process_message cfg env) rows w) = inl tt /\
  forall r, In r rows ->
    exists x o cs k,
      row_run cfg env r x o (inl tt) cs k /\
      w_db (snd (process_message cfg env r x))
        = update_message (rid r) (apply_outcome o) (w_db x) /\
      contacts (w_db x) = contacts (w_db w) /\
      (w_steps w <= w_steps x)%nat /\
      In (r_msg r) (messages (w_db x)) /\
      In (apply_outcome o (r_msg r))
         (messages (w_db (snd (for_each (process_message cfg env) rows w)))).
Proof.
  induction rows as [|r rows IH]; intros w Hnf Hready; simpl.
  - split; [reflexivity | contradiction].
  - unfold bind.
    destruct (process_message_run cfg env r w) as (o & res & cs & k & E & Hrun).
    destruct (row_run_no_faults _ _ _ _ _ _ Hnf Hrun) as [-> _].
    rewrite E.
    pose proof (rows_ready_step r rows (w_db w) o Hready) as Hready1.
    set (w1 := mkWorld (update_message (m_id (r_msg r)) (apply_outcome o) (w_db w))
                       (k + w_steps w) (w_calls w ++ cs)) in *.
    destruct (IH w1 Hnf Hready1) as [Hres Hrows].
    split; [exact Hres|].
    intros r' [<-|Hr'].
    + exists w, o, cs, k. split; [exact Hrun|]. split; [now rewrite E|].
      split; [reflexivity|]. split; [lia|].
      destruct Hready as (Hnd & Hms & Hin).
      split; [now apply Hin; left|].
      apply rows_loop_untouched.
      * subst w1; simpl. apply in_update_message. exists (r_msg r).
        split; [now apply Hin; left|]. unfold rid. now rewrite Z.eqb_refl.
      * rewrite apply_outcome_id. now inversion Hnd.
    + destruct (Hrows r' Hr') as (x & o' & cs' & k' & H1 & H0 & H2 & H3 & H4 & H5).
      exists x, o', cs', k'. split; [exact H1|]. split; [exact H0|]. split; [exact H2|].
      split; [subst w1; simpl in *; lia|]. split; [exact H4 | exact H5].
Qed.

End Loop.

Lemma Forall2_map_step {A} (R R' : A -> A -> Prop) (f : A -> A) l l' :
  Forall2 R l l' ->
  (forall a b, In a l -> In b l' -> R a b -> R' a (f b)) ->
  Forall2 R' l (map f l').
Proof.
  induction 1 as [|a b l l' Hab _ IH]; intros H; simpl; constructor.
  - apply H; simpl; auto.
  - apply IH. intros x y Hx Hy. apply H; simpl; auto.
Qed.

Section Trace.

Variable cfg : Config.
Variable env : Env.

(** A message after the loop is the message before, or the outcome of the
    run of its row in some world [x] of the loop. *)
Definition msg_trace (rows : list Row) (w : World) (m m' : Message) : Prop :=
  m' = m \/
  exists r x o res cs k,
    In r rows /\ r_msg r = m /\ (w_steps w <= w_steps x)%nat /\
    row_run cfg env r x o res cs k /\ m' = apply_outcome o m.

Lemma msg_trace_id rows w m m' : msg_trace rows w m m' -> m_id m' = m_id m.
Proof.
  intros [->|(r & x & o & res & cs & k & _ & _ & _ & _ & ->)];
    [reflexivity | apply apply_outcome_id].
Qed.

Lemma rows_loop_trace rows w :
  rows_ready rows (w_db w) ->
  Forall2 (msg_trace rows w) (messages (w_db w))
          (messages (w_db (snd (for_each (process_message cfg env) rows w)))).
Proof.
  intros Hready.
  pose (I := fun (rs : list Row) (x : World) =>
    rows_ready rs (w_db x) /\ incl rs rows /\ (w_steps w <= w_steps x)%nat /\
    Forall2 (msg_trace rows w) (messages (w_db w)) (messages (w_db x))).
  assert (H : I [] (snd (for_each (process_message cfg env) rows w))).
  { apply for_each_invariant with (I := I).
    - intros r rs x (Hr & Hincl & Hst & Htr).
      destruct (process_message_run cfg env r x) as (o & res & cs & k & E & Hrun).
      unfold I. rewrite E. simpl.
      split; [now apply rows_ready_step|].
      split; [intros a Ha; apply Hincl; now right|]. split; [lia|].
      unfold update_message; simpl.
      assert (Hin_r : In r rows) by (apply Hincl; now left).
      eapply Forall2_map_step; [exact Htr|].
      intros m mx Hm Hmx Hrel.
      destruct (Z.eqb_spec (m_id mx) (m_id (r_msg r))) as [Hid|_]; [|exact Hrel].
      assert (Emx : mx = r_msg r).
      { eapply rows_ready_head; [exact Hr | exact Hmx | exact Hid]. }
      assert (Em : m = r_msg r).
      { destruct Hready as (_ & Hnd0 & Hin0).
        eapply NoDup_map_inj; [exact Hnd0 | exact Hm | now apply Hin0 |].
        rewrite <- (msg_trace_id _ _ _ _ Hrel). exact Hid. }
      right. exists r, x, o, res, cs, k. rewrite Emx, Em. auto.
    - intros r rs x (Hr & Hincl & Hrest).
      split; [eapply rows_ready_tail; eauto|].
      split; [intros a Ha; apply Hincl; now right | exact Hrest].
    - unfold I. split; [exact Hready|]. split; [apply incl_refl|]. split; [lia|].
      apply Forall2_refl. intros m. now left. }
  destruct H as (_ & _ & _ & H). exact H.
Qed.

End Trace.

(** ** The claims *)

Section Claims.

Variable cfg : Config.
Variable env : Env.

Definition batch_of (w : World) : list Row :=
  select_queued (SEND_PER_SECOND cfg) (w_db w).

(** The world in which the message loop of a tick ends. *)
Definition after_loop (w : World) : World :=
  snd (for_each (process_message cfg env) (batch_of w) (next_step w)).

(** Messages and provider calls of a tick are those of its message loop. *)
Lemma tick_loop w :
  store_fault env (w_steps w) = None ->
  messages (w_db (snd (process_queue_tick cfg env w))) = messages (w_db (after_loop w)) /\
  w_calls (snd (process_queue_tick cfg env w)) = w_calls (after_loop w).
Proof.
  intros Hf. rewrite tick_unfold, Hf. unfold after_loop, batch_of.
  destruct (for_each (process_message cfg env) _ (next_step w)) as [[[]|e] w1]; simpl; auto.
  pose proof (mark_completed_frame env w1) as H. simpl in H. tauto.
Qed.

Lemma tick_select_fault w e :
  store_fault env (w_steps w) = Some e ->
  process_queue_tick cfg env w = (inr (Exception e), next_step w).
Proof. intros Hf. now rewrite tick_unfold, Hf. Qed.

Lemma apply_outcome_sent o m :
  m_status m <> sent -> m_status (apply_outcome o m) = sent ->
  exists p t, o = OSent p t.
Proof.
  destruct o; simpl; intros H1 H2; try discriminate; [contradiction | eauto].
Qed.

Lemma row_run_sent r x p t res cs k :
  row_run cfg env r x (OSent p t) res cs k ->
  gate_passes r /\ res = inl tt /\ cs = [call_of r] /\
  t = clock env (S (S (S (w_steps x)))) /\
  sent_today (m_contact_id (r_msg r)) (w_db x) (clock env (w_steps x))
    < MAX_DAILY_PER_CONTACT cfg /\
  k = 4%nat.
Proof.
  intros H. inversion H; subst. unfold call_of, rid. auto 6.
Qed.

(** Nothing but handler calls: no second tick runs while one is running. *)
Definition handlers_only (during : nat -> list Op) : Prop :=
  forall k, Forall (fun op => op <> OpTick) (during k).

Lemma among_none rows : forall k w,
  process_rows_among cfg env (fun _ => []) k rows w
    = for_each (process_message cfg env) rows w.
Proof.
  induction rows as [|r rows IH]; intros k w; simpl; [reflexivity|].
  unfold bind at 1. unfold commits. simpl. unfold bind.
  destruct (process_message cfg env r w) as [[[]|e] w1]; [apply IH | reflexivity].
Qed.

Lemma tick_among_none w :
  process_queue_tick_among cfg env (fun _ => []) w = process_queue_tick cfg env w.
Proof.
  unfold process_queue_tick_among, process_queue_tick, bind.
  destruct (sql_query env _ w) as [[rows|e] w1]; [|reflexivity].
  now rewrite among_none.
Qed.

(** The world in which the message loop of such a tick ends. *)
Definition after_loop_among (during : nat -> list Op) (w : World) : World :=
  snd (process_rows_among cfg env during 0 (batch_of w) (next_step w)).

Lemma tick_among_loop during w :
  store_fault env (w_steps w) = None ->
  messages (w_db (snd (process_queue_tick_among cfg env during w)))
    = messages (w_db (after_loop_among during w)) /\
  w_calls (snd (process_queue_tick_among cfg env during w))
    = w_calls (after_loop_among during w).
Proof.
  intros Hf.
  assert (E : process_queue_tick_among cfg env during w =
              match process_rows_among cfg env during 0 (batch_of w) (next_step w) with
              | (inl _, w1) => mark_completed env w1
              | (inr e, w1) => (inr e, w1)
              end).
  { unfold process_queue_tick_among, bind, sql_query, batch_of. now rewrite Hf. }
  rewrite E. unfold after_loop_among.
  destruct (process_rows_among cfg env during 0 (batch_of w) (next_step w))
    as [[[]|e] w1]; simpl; auto.
  pose proof (mark_completed_frame env w1) as H. simpl in H. tauto.
Qed.

Lemma handlers_quiet ops : forall w,
  Forall (fun op => op <> OpTick) ops ->
  quiet (w_db w) (w_db (run_ops cfg env ops w)) /\
  w_calls (run_ops cfg env ops w) = w_calls w.
Proof.
  induction ops as [|op ops IH]; intros w Hops; simpl.
  - split; [apply quiet_refl | reflexivity].
  - inversion Hops as [|? ? Hop Hrest]; subst.
    destruct (quietly_op cfg env op Hop w) as (Hq & _ & Hc).
    destruct (IH (snd (run_op cfg env op w)) Hrest) as [Hq' Hc'].
    split; [eapply quiet_trans; eauto | congruence].
Qed.

Lemma quiet_rows_ready rows d d' :
  db_wf d = true -> quiet d d' -> rows_ready rows d -> rows_ready rows d'.
Proof.
  intros Hwf [(new & E & _) _ W] (Hnd & _ & Hin).
  split; [exact Hnd|]. split; [apply db_wf_messages, W, Hwf|].
  intros r Hr. destruct (Hin r Hr) as [Hm Hq]. split; [|exact Hq].
  rewrite E. apply in_or_app. now left.
Qed.

Lemma db_wf_update_message id o d :
  db_wf d = true -> db_wf (update_message id (apply_outcome o) d) = true.
Proof.
  intros Hwf. apply db_wf_iff in Hwf. apply db_wf_iff.
  rewrite update_message_ids. exact Hwf.
Qed.

(** What holds of the store and the call log between the rows of a tick
    that began in [w0] with batch [batch], [rows] still to come: every
    [sent] message was [sent] before the tick or is the message of a row
    of the batch that passed the gate, and every provider call is an
    earlier one or the call of such a row. *)
Definition among_inv (w0 : World) (batch rows : list Row) (x : World) : Prop :=
  db_wf (w_db x) = true /\ rows_ready rows (w_db x) /\
  (forall m', In m' (messages (w_db x)) -> m_status m' = sent ->
     In m' (messages (w_db w0)) \/
     exists r, In r batch /\ m_id m' = rid r /\ gate_passes r) /\
  (forall call, In call (w_calls x) ->
     In call (w_calls w0) \/
     exists r, In r batch /\ call_msg call = rid r /\ gate_passes r).

Lemma among_inv_commits w0 batch rows ops x :
  Forall (fun op => op <> OpTick) ops ->
  among_inv w0 batch rows x -> among_inv w0 batch rows (run_ops cfg env ops x).
Proof.
  intros Hops (Hwf & Hready & Hsent & Hcalls).
  destruct (handlers_quiet ops x Hops) as [Hq Hc].
  split; [apply Hq, Hwf|]. split; [eapply quiet_rows_ready; eauto|]. split.
  - destruct Hq as [(new & E & Hnew) _ _]. intros m' Hm' Hs. rewrite E in Hm'.
    apply in_app_or in Hm'. destruct Hm' as [Hold|Hfresh]; [now apply Hsent|].
    rewrite Forall_forall in Hnew. destruct (Hnew m' Hfresh) as (Hst & _).
    rewrite Hst in Hs. discriminate.
  - now rewrite Hc.
Qed.

Lemma among_inv_row w0 batch r rows x :
  In r batch ->
  among_inv w0 batch (r :: rows) x ->
  among_inv w0 batch rows (snd (process_message cfg env r x)).
Proof.
  intros Hr (Hwf & Hready & Hsent & Hcalls).
  destruct (process_message_run cfg env r x) as (o & res & cs & k & E & Hrun).
  rewrite E. simpl.
  split; [now apply db_wf_update_message|].
  split; [now apply rows_ready_step|]. split.
  - intros m' Hm' Hs. apply in_update_message in Hm'.
    destruct Hm' as (m & Hm & ->).
    destruct (Z.eqb_spec (m_id m) (m_id (r_msg r))) as [Hid|_]; [|now apply Hsent].
    assert (m = r_msg r) by (eapply rows_ready_head; eauto). subst m.
    assert (Hq : m_status (r_msg r) <> sent).
    { destruct Hready as (_ & _ & Hin).
      destruct (Hin r (or_introl eq_refl)) as [_ ->]. discriminate. }
    destruct (apply_outcome_sent o _ Hq Hs) as (p & t & ->).
    apply row_run_sent in Hrun. destruct Hrun as (Hg & _).
    right. exists r. split; [exact Hr|]. split; [apply apply_outcome_id | exact Hg].
  - intros call Hcall. apply in_app_or in Hcall.
    destruct Hcall as [Hold|Hnew]; [now apply Hcalls|].
    destruct (row_run_calls cfg env _ _ _ _ _ _ Hrun) as [->|[-> Hg]]; [destruct Hnew|].
    destruct Hnew as [<-|[]]. right. exists r. auto.
Qed.

Lemma among_inv_drop w0 batch rows x :
  among_inv w0 batch rows x -> among_inv w0 batch [] x.
Proof.
  intros (Hwf & (_ & Hms & _) & Hrest). split; [exact Hwf|].
  split; [|exact Hrest]. split; [constructor|]. split; [exact Hms | contradiction].
Qed.

Lemma among_loop w0 batch during rows : forall k x,
  handlers_only during -> incl rows batch ->
  among_inv w0 batch rows x ->
  among_inv w0 batch [] (snd (process_rows_among cfg env during k rows x)).
Proof.
  induction rows as [|r rows IH]; intros k x Hh Hincl Hinv; simpl; [exact Hinv|].
  unfold bind at 1. unfold commits. unfold bind.
  pose proof (among_inv_commits w0 batch (r :: rows) (during k) x (Hh k) Hinv) as H1.
  pose proof (among_inv_row w0 batch r rows _ (Hincl r (or_introl eq_refl)) H1) as H2.
  destruct (process_message cfg env r (run_ops cfg env (during k) x)) as [[[]|e] x2];
    simpl in *.
  - apply IH; [exact Hh | intros a Ha; apply Hincl; now right | exact H2].
  - eapply among_inv_drop; eauto.
Qed.

(** A message whose id is not among the rows still to come stays as it is,
    whatever the handlers commit. *)
Lemma among_untouched during rows : forall k x m,
  handlers_only during ->
  In m (messages (w_db x)) -> ~ In (m_id m) (map rid rows) ->
  In m (messages (w_db (snd (process_rows_among cfg env during k rows x)))).
Proof.
  induction rows as [|r rows IH]; intros k x m Hh Hm Hid; simpl; [exact Hm|].
  unfold bind at 1. unfold commits. unfold bind.
  destruct (handlers_quiet (during k) x (Hh k)) as [[(new & E & _) _ _] _].
  assert (Hm1 : In m (messages (w_db (run_ops cfg env (during k) x)))).
  { rewrite E. apply in_or_app. now left. }
  destruct (process_message_db cfg env r (run_ops cfg env (during k) x)) as [o Ho].
  assert (Hm2 : In m (messages (w_db (snd (process_message cfg env r
                                              (run_ops cfg env (during k) x)))))).
  { rewrite Ho. apply in_update_message. exists m. split; [exact Hm1|].
    destruct (Z.eqb_spec (m_id m) (rid r)) as [Eid|_]; [|reflexivity].
    exfalso. apply Hid. simpl. now left. }
  destruct (process_message cfg env r (run_ops cfg env (during k) x)) as [[[]|e] x2];
    simpl in *; [|exact Hm2].
  apply IH; [exact Hh | exact Hm2 | intros H; apply Hid; now right].
Qed.

(** With a store that does not fail the loop reaches every row, and a row
    that fails the gate leaves its message skipped. *)
Lemma among_complete during rows : forall k x,
  no_faults env -> handlers_only during ->
  db_wf (w_db x) = true -> rows_ready rows (w_db x) ->
  fst (process_rows_among cfg env during k rows x) = inl tt /\
  forall r, In r rows -> ~ gate_passes r ->
    In (set_skipped "no consent or opted out" (r_msg r))
       (messages (w_db (snd (process_rows_among cfg env during k rows x)))).
Proof.
  induction rows as [|r rows IH]; intros k x Hnf Hh Hwf Hready; simpl.
  - split; [reflexivity | contradiction].
  - unfold bind at 1. unfold commits. unfold bind.
    destruct (handlers_quiet (during k) x (Hh k)) as [Hq _].
    pose proof (q_wf _ _ Hq Hwf) as Hwf1.
    pose proof (quiet_rows_ready _ _ _ Hwf Hq Hready) as Hready1.
    set (x1 := run_ops cfg env (during k) x) in *.
    destruct (process_message_run cfg env r x1) as (o & res & cs & n & E & Hrun).
    destruct (row_run_no_faults cfg env _ _ _ _ _ _ Hnf Hrun) as [-> Hcase].
    rewrite E.
    set (x2 := mkWorld _ (n + w_steps x1) (w_calls x1 ++ cs)).
    assert (Hwf2 : db_wf (w_db x2) = true) by (now apply db_wf_update_message).
    assert (Hready2 : rows_ready rows (w_db x2)) by (now apply rows_ready_step).
    destruct (IH (S k) x2 Hnf Hh Hwf2 Hready2) as [Hres Hall].
    split; [exact Hres|].
    intros r' [<-|Hr'] Hng; [|now apply Hall].
    destruct Hcase as [(_ & -> & _)|[(Hg & _)|(Hg & _)]]; try contradiction.
    apply among_untouched; [exact Hh| |].
    + apply in_update_message. exists (r_msg r). split; [apply Hready1; now left|].
      now rewrite Z.eqb_refl.
    + simpl. destruct Hready1 as (Hnd & _). inversion Hnd; assumption.
Qed.


End Claims.

Section Settled.

Variable cfg : Config.
Variable env : Env.

(** A stored message that is not queued is carried through unchanged, and
    stays the only message of its id. *)
Lemma settled_stays d d' m :
  evolves d d' -> In m (messages d) -> m_status m <> queued ->
  In m (messages d') /\
  forall m', In m' (messages d') -> m_id m' = m_id m -> m' = m.
Proof.
  intros [(old & new & E & Hstep & _) _ Hwf] Hm Hs.
  assert (Hin : In m (messages d')).
  { destruct (Forall2_in_l _ _ _ _ Hstep Hm) as (m1 & Hm1 & H1).
    rewrite (msg_step_settled _ _ H1 Hs) in Hm1.
    rewrite E. apply in_or_app. now left. }
  split; [exact Hin|]. intros m' Hm' Hid.
  eapply NoDup_map_inj; [apply db_wf_messages, Hwf | | | ]; eassumption.
Qed.

Definition terminal (m : Message) : Prop :=
  m_status m = sent \/ m_status m = failed \/ m_status m = skipped.

(** C9, terminal exclusivity.  Through any history of operations (ticks
    with their completion scans, campaign activations, and every other
    writer of the store, whatever the provider answers and wherever the
    store fails), a stored message whose status is [sent], [failed] or
    [skipped] stays in the store as the very same row, status, body,
    provider reference, error detail and sent-time included, and remains
    the only row of its id. *)
Theorem terminal_exclusivity (ops : list Op) (w : World) (m : Message) :
  db_wf (w_db w) = true ->
  In m (messages (w_db w)) ->
  terminal m ->
  In m (messages (w_db (run_ops cfg env ops w))) /\
  forall m', In m' (messages (w_db (run_ops cfg env ops w))) ->
             m_id m' = m_id m -> m' = m.
Proof.
  intros Hwf Hm Hterm.
  apply settled_stays with (d := w_db w); [now apply run_ops_evolves | assumption |].
  destruct Hterm as [H|[H|H]]; rewrite H; discriminate.
Qed.

(** C10, a message in [sending] is stuck.  No batch query ever returns it,
    [startup] leaves the store as it finds it, and through any history of
    operations the message stays the very same row, still [sending] and
    still not selected. *)
Theorem sending_is_stuck (ops : list Op) (w : World) (m : Message) :
  db_wf (w_db w) = true ->
  In m (messages (w_db w)) ->
  m_status m = sending ->
  w_db (snd (startup env w)) = w_db w /\
  In m (messages (w_db (run_ops cfg env ops w))) /\
  (forall m', In m' (messages (w_db (run_ops cfg env ops w))) ->
              m_id m' = m_id m -> m' = m) /\
  forall limit,
    ~ In (m_id m) (map rid (select_queued limit (w_db (run_ops cfg env ops w)))).
Proof.
  intros Hwf Hm Hs.
  assert (Hev := run_ops_evolves cfg env ops w Hwf).
  assert (Hkeep : In m (messages (w_db (run_ops cfg env ops w))) /\
                  forall m', In m' (messages (w_db (run_ops cfg env ops w))) ->
                             m_id m' = m_id m -> m' = m).
  { apply settled_stays with (d := w_db w); [assumption | assumption |].
    rewrite Hs. discriminate. }
  destruct Hkeep as [Hin Huniq].
  split.
  { unfold startup, init_db, sql_exec. destruct (store_fault env (w_steps w)); reflexivity. }
  split; [exact Hin|]. split; [exact Huniq|].
  intros limit Hsel. apply in_map_iff in Hsel. destruct Hsel as (r & Hid & Hr).
  apply select_queued_in in Hr. destruct Hr as (Hr & Hq & _).
  rewrite (Huniq (r_msg r) Hr Hid) in Hq. congruence.
Qed.

End Settled.

Lemma terminal_exclusivity_witness :
  In Demo.m_old
     (messages (w_db (run_ops Demo.cfg Demo.env
                        [OpTick; OpCampaignsStart 1; OpTick] Demo.world))).
Proof.
  apply (terminal_exclusivity Demo.cfg Demo.env
           [OpTick; OpCampaignsStart 1; OpTick] Demo.world Demo.m_old).
  - reflexivity.
  - simpl. auto.
  - left. reflexivity.
Defined.

Lemma sending_is_stuck_witness :
  In Demo.m_stuck
     (messages (w_db (run_ops Demo.cfg Demo.env
                        [OpStartup; OpTick; OpCampaignsStart 1; OpTick] Demo.world))).
Proof.
  apply (sending_is_stuck Demo.cfg Demo.env
           [OpStartup; OpTick; OpCampaignsStart 1; OpTick] Demo.world Demo.m_stuck).
  - reflexivity.
  - simpl. auto.
  - reflexivity.
Defined.

(** Ann unsubscribes while a tick is between its batch [SELECT] and its
    first row. *)
Definition ann_unsubscribes (k : nat) : list Op :=
  match k with
  | O => [OpUnsubscribe "+254700000001"]
  | S _ => []
  end.



Section Outcomes.

Variable cfg : Config.
Variable env : Env.

(** The world in which the provider is called for row [r], picked up in
    world [w]: its message has been marked [sending]. *)
Definition before_send (r : Row) (w : World) : World :=
  mkWorld (update_message (rid r) set_sending (w_db w)) (S (S (w_steps w))) (w_calls w).

(** What [send_sms_africastalking] returns or raises for it. *)
Definition provider_answer (r : Row) (w : World) : string + exn :=
  fst (send_sms_africastalking cfg env (rid r) (m_to_phone (r_msg r)) (m_body (r_msg r))
         (before_send r w)).

(** What is then recorded: the reference and the clock of the [UPDATE]
    that follows the call, or the text of the exception. *)
Definition recorded (r : Row) (w : World) : Outcome :=
  match provider_answer r w with
  | inl p => OSent p (clock env (S (S (S (w_steps w)))))
  | inr e => OFailed (str e)
  end.

Lemma process_message_called r w :
  no_faults env -> gate_passes r ->
  sent_today (m_contact_id (r_msg r)) (w_db w) (clock env (w_steps w))
    < MAX_DAILY_PER_CONTACT cfg ->
  fst (process_message cfg env r w) = inl tt /\
  w_db (snd (process_message cfg env r w))
    = update_message (rid r) (apply_outcome (recorded r w)) (w_db w).
Proof.
  intros Hnf Hg Hcap.
  destruct (process_message_run cfg env r w) as (o & res & cs & k & E & Hrun).
  destruct (row_run_no_faults _ _ _ _ _ _ _ _ Hnf Hrun) as [-> Hcase].
  rewrite E. simpl. split; [reflexivity|].
  unfold recorded, provider_answer, before_send.
  destruct Hcase as [(Hn & _)|[(_ & _ & _ & Hle)|(_ & _ & [(p & Hp & -> & _)|(e & He & ->)])]].
  - contradiction.
  - lia.
  - now rewrite Hp.
  - now rewrite He.
Qed.

Lemma msgs_ok_evolves d d' :
  evolves d d' -> Forall msg_ok (messages d) -> Forall msg_ok (messages d').
Proof.
  intros [(old & new & E & Hstep & Hnew) _ _] Hok. rewrite E.
  apply Forall_app. split; [|assumption].
  eapply Forall2_preserves; [exact msg_step_ok | exact Hstep | exact Hok].
Qed.


End Outcomes.


Section BatchBound.

Variable cfg : Config.
Variable env : Env.

(** [m], queued in [d], is no longer queued in [d']. *)
Definition leaves_queue (d' : DB) (m : Message) : bool :=
  is_queued m &&
  negb (existsb (fun m' => (m_id m' =? m_id m) && is_queued m') (messages d')).

Lemma rate_limit_range : 1 <= SEND_PER_SECOND cfg <= 30.
Proof. unfold SEND_PER_SECOND. lia. Qed.

Lemma sorted_app_le (l1 l2 : list Row) :
  StronglySorted created_le (l1 ++ l2) ->
  forall a b, In a l1 -> In b l2 -> created_le a b.
Proof.
  induction l1 as [|x xs IH]; simpl; [contradiction|].
  intros Hs a b Ha Hb. inversion Hs as [|? ? Hs' Hx]; subst.
  destruct Ha as [<-|Ha]; [|now apply IH].
  rewrite Forall_forall in Hx. apply Hx. apply in_or_app. now right.
Qed.

Lemma NoDup_map_filter {A} (key : A -> Z) (f : A -> bool) l :
  NoDup (map key l) -> NoDup (map key (filter f l)).
Proof.
  induction l as [|a l IH]; simpl; [constructor|].
  intros H. inversion H as [|? ? Hnin Hnd]; subst.
  destruct (f a); simpl; [|now apply IH].
  constructor; [|now apply IH].
  intros Hin. apply Hnin. apply in_map_iff in Hin. destruct Hin as (b & <- & Hb).
  apply filter_In in Hb. apply in_map. tauto.
Qed.

Lemma leavers_in_batch w m :
  In m (messages (w_db w)) ->
  leaves_queue (w_db (snd (process_queue_tick cfg env w))) m = true ->
  In (m_id m) (map rid (batch_of cfg w)).
Proof.
  intros Hm Hleave. unfold leaves_queue in Hleave.
  apply andb_true_iff in Hleave. destruct Hleave as [Hq Hgone].
  apply negb_true_iff in Hgone.
  destruct (in_dec Z.eq_dec (m_id m) (map rid (batch_of cfg w))) as [Hin|Hout];
    [assumption|exfalso].
  assert (Hstay : In m (messages (w_db (snd (process_queue_tick cfg env w))))).
  { destruct (store_fault env (w_steps w)) as [e|] eqn:Hf.
    - now rewrite (tick_select_fault cfg env w e Hf).
    - destruct (tick_loop cfg env w Hf) as [-> _].
      now apply rows_loop_untouched. }
  assert (Hex : existsb (fun m' => (m_id m' =? m_id m) && is_queued m')
                        (messages (w_db (snd (process_queue_tick cfg env w)))) = true).
  { apply existsb_exists. exists m. split; [assumption|].
    now rewrite Z.eqb_refl, Hq. }
  congruence.
Qed.

(** C3, batch bound and ordering.  The batch of a tick holds at most N rows,
    N the rate limit (between 1 and 30); each row is a stored message with
    status [queued]; the rows are in ascending creation time, and no queued
    message left out is older than a selected one.  Whatever happens during
    the tick, at most N messages that were queued before it are no longer
    queued after it.  The rows are processed in the order of the batch: the
    tick's messages are those of the loop over the batch, and the provider
    calls it makes, at most one per row, follow the batch order. *)
Theorem batch_bound_and_order (w : World) :
  db_wf (w_db w) = true ->
  let batch := batch_of cfg w in
  let w' := snd (process_queue_tick cfg env w) in
  (List.length batch <= Z.to_nat (SEND_PER_SECOND cfg))%nat /\
  1 <= SEND_PER_SECOND cfg <= 30 /\
  (forall r, In r batch ->
     In (r_msg r) (messages (w_db w)) /\ m_status (r_msg r) = queued) /\
  StronglySorted created_le batch /\
  (exists rest,
     Permutation (batch ++ rest)
       (join_contacts (contacts (w_db w)) (filter is_queued (messages (w_db w)))) /\
     forall r r', In r batch -> In r' rest -> created_le r r') /\
  (List.length (filter (leaves_queue (w_db w')) (messages (w_db w)))
     <= Z.to_nat (SEND_PER_SECOND cfg))%nat /\
  (store_fault env (w_steps w) = None ->
   messages (w_db w')
     = messages (w_db (snd (for_each (process_message cfg env) batch (next_step w))))) /\
  exists cs, w_calls w' = w_calls w ++ cs /\ subseq (map call_msg cs) (map rid batch).
Proof.
  intros Hwf batch w'. subst batch w'.
  split; [apply select_queued_length|]. split; [apply rate_limit_range|].
  split; [intros r Hr; apply select_queued_in in Hr; tauto|].
  split; [apply select_queued_sorted|]. split.
  { destruct (select_queued_prefix (SEND_PER_SECOND cfg) (w_db w)) as [rest E].
    exists rest. unfold batch_of. rewrite <- E.
    split; [apply order_by_created_at_perm|].
    apply sorted_app_le. rewrite <- E. apply order_by_created_at_sorted. }
  split.
  { eapply Nat.le_trans; [|apply (select_queued_length (SEND_PER_SECOND cfg) (w_db w))].
    fold (batch_of cfg w).
    rewrite <- (length_map m_id), <- (length_map rid (batch_of cfg w)).
    apply NoDup_incl_length.
    - apply NoDup_map_filter. now apply db_wf_messages.
    - intros i Hi. apply in_map_iff in Hi. destruct Hi as (m & <- & Hm).
      apply filter_In in Hm. destruct Hm as [Hm Hleave].
      now apply leavers_in_batch. }
  split; [intros Hf; apply (tick_loop cfg env w Hf)|].
  destruct (store_fault env (w_steps w)) as [e|] eqn:Hf.
  - rewrite (tick_select_fault cfg env w e Hf). exists []. simpl.
    rewrite app_nil_r. split; [reflexivity | apply subseq_nil_l].
  - destruct (tick_loop cfg env w Hf) as [_ ->]. unfold after_loop.
    destruct (rows_loop_calls cfg env (batch_of cfg w) (next_step w)) as (cs & E & Hsub & _).
    exists cs. split; [exact E | exact Hsub].
Qed.

End BatchBound.

Lemma batch_bound_and_order_witness :
  (List.length (batch_of Demo.cfg Demo.world) <= 2)%nat /\
  map rid (batch_of Demo.cfg Demo.world) = [3; 4].
Proof.
  split.
  - apply (batch_bound_and_order Demo.cfg Demo.env Demo.world). reflexivity.
  - reflexivity.
Defined.

(** ** The daily cap *)

(** Number of the contact's messages with status [sent] and sent-time on
    calendar day [day]. *)
Definition sent_count (d : DB) (contact_id day : Z) : Z :=
  Z.of_nat (List.length (filter (sent_on_day contact_id day) (messages d))).

Definition monotone_clock (env : Env) : Prop :=
  forall i j, (i <= j)%nat -> clock env i <= clock env j.

(** No message carries a sent-time later than [t]. *)
Definition no_future (d : DB) (t : Time) : Prop :=
  forall m t', In m (messages d) -> m_sent_at m = Some t' -> t' <= t.

Lemma date_mono a b : a <= b -> date a <= date b.
Proof. intros H. unfold date. apply Z.div_le_mono; lia. Qed.

Lemma filter_length_map_same {A} (P : A -> bool) (f : A -> A) l :
  (forall a, In a l -> P (f a) = P a) ->
  List.length (filter P (map f l)) = List.length (filter P l).
Proof.
  induction l as [|a l IH]; simpl; [reflexivity|].
  intros H. rewrite (H a) by now left.
  destruct (P a); simpl; rewrite IH; auto.
Qed.

Lemma filter_length_update (P : Message -> bool) (f : Message -> Message) id m0 ms :
  NoDup (map m_id ms) -> In m0 ms -> m_id m0 = id ->
  P m0 = false -> P (f m0) = true ->
  List.length (filter P (map (fun m => if m_id m =? id then f m else m) ms))
    = S (List.length (filter P ms)).
Proof.
  intros Hnd Hin Hid Hp Hpf. induction ms as [|a ms IH]; simpl; [contradiction|].
  inversion Hnd as [|? ? Hnin Hnd']; subst.
  destruct Hin as [->|Hin].
  - rewrite Z.eqb_refl, Hpf, Hp. simpl. f_equal.
    apply filter_length_map_same. intros a Ha.
    destruct (Z.eqb_spec (m_id a) (m_id m0)) as [E|_]; [|reflexivity].
    exfalso. apply Hnin. rewrite <- E. now apply in_map.
  - destruct (Z.eqb_spec (m_id a) (m_id m0)) as [E|_].
    + exfalso. apply Hnin. rewrite E. now apply in_map.
    + destruct (P a); simpl; rewrite IH; auto.
Qed.

Section Cap.

Variable cfg : Config.
Variable env : Env.

Definition cap_ok (d : DB) : Prop :=
  forall contact_id day, sent_count d contact_id day <= MAX_DAILY_PER_CONTACT cfg.

Definition cap_inv (w : World) : Prop :=
  cap_ok (w_db w) /\ no_future (w_db w) (clock env (w_steps w)).

Lemma cap_at_least_one : 1 <= MAX_DAILY_PER_CONTACT cfg.
Proof. unfold MAX_DAILY_PER_CONTACT. lia. Qed.

Lemma sent_on_day_unsent cid day m : m_status m = queued -> sent_on_day cid day m = false.
Proof.
  intros H. unfold sent_on_day. rewrite H. simpl. now rewrite andb_false_r.
Qed.

Lemma sent_count_future d cid day t :
  no_future d t -> date t < day -> sent_count d cid day = 0.
Proof.
  intros Hnf Hday. unfold sent_count.
  replace (filter (sent_on_day cid day) (messages d)) with (@nil Message); [reflexivity|].
  symmetry. destruct (filter (sent_on_day cid day) (messages d)) as [|m l] eqn:E;
    [reflexivity|exfalso].
  assert (Hm : In m (filter (sent_on_day cid day) (messages d))) by (rewrite E; now left).
  apply filter_In in Hm. destruct Hm as [Hm Hp]. unfold sent_on_day in Hp.
  destruct (m_sent_at m) as [t'|] eqn:Et; [|now rewrite andb_false_r in Hp].
  rewrite !andb_true_iff, Z.eqb_eq in Hp. destruct Hp as [_ Hd].
  pose proof (date_mono _ _ (Hnf m t' Hm Et)). lia.
Qed.

(** One row keeps the cap, by the day on which its message is stamped. *)
Lemma process_message_cap r rows x :
  monotone_clock env -> rows_ready (r :: rows) (w_db x) ->
  cap_inv x -> cap_inv (snd (process_message cfg env r x)).
Proof.
  intros Hmono Hready [Hcap Hnf].
  destruct (process_message_run cfg env r x) as (o & res & cs & k & E & Hrun).
  rewrite E. simpl.
  pose proof Hready as (_ & Hnd & Hin).
  destruct (Hin r (or_introl eq_refl)) as [Hr Hq].
  assert (Hunsent : forall cid day m, In m (messages (w_db x)) ->
            m_id m = rid r -> sent_on_day cid day m = false).
  { intros cid day m Hm Hid.
    rewrite (rows_ready_head _ _ _ _ Hready Hm Hid). now apply sent_on_day_unsent. }
  assert (Hstamp : forall m, m_sent_at (apply_outcome o m) = m_sent_at m \/
                             exists p t, o = OSent p t /\
                                         m_sent_at (apply_outcome o m) = Some t).
  { intros m. destruct o; simpl; eauto. }
  split.
  - intros cid day. unfold sent_count, update_message; simpl.
    destruct (sent_on_day cid day (apply_outcome o (r_msg r))) eqn:Hnew.
    + assert (Ho : exists p t, o = OSent p t).
      { apply apply_outcome_sent with (m := r_msg r); [rewrite Hq; discriminate|].
        unfold sent_on_day in Hnew. rewrite !andb_true_iff in Hnew.
        now apply status_eqb_eq. }
      destruct Ho as (p & t & ->). apply row_run_sent in Hrun.
      destruct Hrun as (_ & _ & _ & -> & Hbelow & _).
      rewrite (filter_length_update _ _ (m_id (r_msg r)) (r_msg r) _ Hnd Hr eq_refl
                 (sent_on_day_unsent _ _ _ Hq) Hnew).
      unfold sent_on_day in Hnew. simpl in Hnew.
      rewrite !andb_true_iff, !Z.eqb_eq in Hnew. destruct Hnew as [[Hcid _] Hday].
      subst cid day. unfold sent_today in Hbelow.
      pose proof (date_mono _ _ (Hmono (w_steps x) (S (S (S (w_steps x)))) ltac:(lia)))
        as Hd.
      destruct (Z.eq_dec (date (clock env (w_steps x)))
                         (date (clock env (S (S (S (w_steps x))))))) as [Heq|Hne].
      * rewrite <- Heq. lia.
      * pose proof (sent_count_future (w_db x) (m_contact_id (r_msg r))
                      (date (clock env (S (S (S (w_steps x)))))) _ Hnf ltac:(lia)) as Hz.
        unfold sent_count in Hz. pose proof cap_at_least_one. lia.
    + rewrite filter_length_map_same; [apply Hcap|].
      intros m Hm. destruct (Z.eqb_spec (m_id m) (m_id (r_msg r))) as [Hid|_]; [|reflexivity].
      rewrite (rows_ready_head _ _ _ _ Hready Hm Hid), Hnew.
      symmetry. now apply sent_on_day_unsent.
  - intros m' t' Hm' Ht'. simpl in *. apply in_update_message in Hm'.
    destruct Hm' as (m & Hm & ->).
    assert (Hle : clock env (w_steps x) <= clock env (k + w_steps x))
      by (apply Hmono; lia).
    destruct (m_id m =? m_id (r_msg r)).
    + destruct (Hstamp m) as [Hsame|(p & t & -> & Hset)].
      * rewrite Hsame in Ht'. specialize (Hnf m t' Hm Ht'). lia.
      * apply row_run_sent in Hrun. destruct Hrun as (_ & _ & _ & -> & _ & ->).
        rewrite Hset in Ht'. inversion Ht'; subst.
        apply Hmono. lia.
    + specialize (Hnf m t' Hm Ht'). lia.
Qed.

End Cap.

Lemma Op_is_tick op : op = OpTick \/ op <> OpTick.
Proof. destruct op; auto; right; discriminate. Qed.

Section CapHistory.

Variable cfg : Config.
Variable env : Env.
Hypothesis clock_monotone : monotone_clock env.

Lemma cap_inv_later w1 w2 :
  messages (w_db w2) = messages (w_db w1) -> (w_steps w1 <= w_steps w2)%nat ->
  cap_inv cfg env w1 -> cap_inv cfg env w2.
Proof.
  intros Hm Hs [Hcap Hnf]. split.
  - intros cid day. unfold sent_count. rewrite Hm. apply Hcap.
  - intros m t' Hin Ht. rewrite Hm in Hin. specialize (Hnf m t' Hin Ht).
    pose proof (clock_monotone _ _ Hs). lia.
Qed.

Lemma cap_inv_appended w1 w2 new :
  messages (w_db w2) = messages (w_db w1) ++ new -> Forall fresh_message new ->
  (w_steps w1 <= w_steps w2)%nat ->
  cap_inv cfg env w1 -> cap_inv cfg env w2.
Proof.
  intros Hm Hnew Hs [Hcap Hnf]. rewrite Forall_forall in Hnew. split.
  - intros cid day. unfold sent_count. rewrite Hm, filter_app, length_app.
    replace (filter (sent_on_day cid day) new) with (@nil Message);
      [simpl; rewrite Nat.add_0_r; apply Hcap|].
    symmetry. destruct (filter (sent_on_day cid day) new) as [|m l] eqn:E; [reflexivity|].
    assert (Hin : In m (filter (sent_on_day cid day) new)) by (rewrite E; now left).
    apply filter_In in Hin. destruct Hin as [Hin Hp].
    destruct (Hnew m Hin) as (Hq & _).
    rewrite (sent_on_day_unsent cid day m Hq) in Hp. discriminate.
  - intros m t' Hin Ht. rewrite Hm in Hin. apply in_app_or in Hin.
    destruct Hin as [Hin|Hin].
    + specialize (Hnf m t' Hin Ht). pose proof (clock_monotone _ _ Hs). lia.
    + destruct (Hnew m Hin) as (_ & _ & _ & Hnone). congruence.
Qed.

Lemma tick_cap w :
  db_wf (w_db w) = true -> cap_inv cfg env w ->
  cap_inv cfg env (snd (process_queue_tick cfg env w)).
Proof.
  intros Hwf Hinv.
  destruct (store_fault env (w_steps w)) as [e|] eqn:Hf.
  - rewrite (tick_select_fault cfg env w e Hf). simpl.
    apply (cap_inv_later w); simpl; auto.
  - assert (Hloop : cap_inv cfg env (after_loop cfg env w)).
    { pose (I := fun (rs : list Row) (x : World) =>
                   rows_ready rs (w_db x) /\ cap_inv cfg env x).
      assert (H : I [] (after_loop cfg env w)).
      { apply for_each_invariant with (I := I).
        - intros r rs x [Hr Hc]. destruct (process_message_db cfg env r x) as [o Ho].
          split; [rewrite Ho; now apply rows_ready_step|].
          eapply process_message_cap; eauto.
        - intros r rs x [Hr Hc]. split; [eapply rows_ready_tail; eauto | exact Hc].
        - split; [now apply select_queued_ready|].
          apply (cap_inv_later w); simpl; auto. }
      apply H. }
    apply (cap_inv_later (after_loop cfg env w)); [now apply tick_loop | | exact Hloop].
    rewrite tick_unfold, Hf. unfold after_loop, batch_of.
    destruct (for_each (process_message cfg env) _ (next_step w)) as [[[]|e] w1];
      simpl; [|lia].
    pose proof (mark_completed_frame env w1) as H. simpl in H. lia.
Qed.

Lemma op_cap op w :
  db_wf (w_db w) = true -> cap_inv cfg env w ->
  cap_inv cfg env (snd (run_op cfg env op w)).
Proof.
  intros Hwf Hinv.
  destruct (Op_is_tick op) as [->|Hq]; [now apply tick_cap|].
  destruct (quietly_op cfg env op Hq w) as ([(new & E & Hnew) _ _] & Hs & _).
  eapply cap_inv_appended; eauto.
Qed.

Lemma run_ops_cap ops : forall w,
  db_wf (w_db w) = true -> cap_inv cfg env w ->
  cap_inv cfg env (run_ops cfg env ops w).
Proof.
  induction ops as [|op ops IH]; intros w Hwf Hinv; simpl; [assumption|].
  apply IH; [apply (op_evolves cfg env op w Hwf) | now apply op_cap].
Qed.

End CapHistory.

Section CapClaim.

Variable cfg : Config.
Variable env : Env.

Lemma sent_on_day_iff cid day m :
  sent_on_day cid day m = true <->
  m_contact_id m = cid /\ m_status m = sent /\
  exists t, m_sent_at m = Some t /\ date t = day.
Proof.
  unfold sent_on_day. destruct (m_sent_at m) as [t|].
  - rewrite !andb_true_iff, !Z.eqb_eq, status_eqb_eq. split.
    + intros [[H1 H2] H3]. eauto.
    + intros (H1 & H2 & t' & Ht & H3). inversion Ht; subst. auto.
  - rewrite andb_false_r. split; [discriminate|].
    intros (_ & _ & t & Ht & _). discriminate.
Qed.

Lemma process_message_at_cap r w :
  no_faults env -> gate_passes r ->
  MAX_DAILY_PER_CONTACT cfg
    <= sent_today (m_contact_id (r_msg r)) (w_db w) (clock env (w_steps w)) ->
  process_message cfg env r w
    = (inl tt, mkWorld (update_message (rid r) (set_skipped "daily cap reached") (w_db w))
                       (2 + w_steps w) (w_calls w)).
Proof.
  intros Hnf Hg Hcap.
  destruct (process_message_run cfg env r w) as (o & res & cs & k & E & Hrun).
  rewrite E.
  inversion Hrun; subst;
    try match goal with
        | H : store_fault env ?i = Some _ |- _ => rewrite (Hnf i) in H; discriminate
        end;
    try contradiction; try lia.
  now rewrite app_nil_r.
Qed.

(** C2, daily cap enforcement, as amended.  With a clock that does not run
    backwards: from any well-formed store that respects the cap and holds no
    sent-time of the future, and so from the empty store, every history of
    operations leaves, for every contact and every calendar day, at most
    MAX_DAILY_PER_CONTACT messages of that contact with status [sent] and
    sent-time on that day.  The count made for a message is the number of
    the contact's [sent] messages whose sent-time falls on the calendar day
    of the clock, read from the store as it is when the message is reached:
    of two queued messages of one contact under a cap of 1, the tick sends
    the first and skips the second.  With a store that does not fail, a
    message that passed the consent gate and is reached when this count is
    at the cap becomes [skipped] with error 'daily cap reached', and no
    provider call is made. *)
Theorem daily_cap_enforcement :
  (forall ops w,
     monotone_clock env -> db_wf (w_db w) = true ->
     cap_ok cfg (w_db w) -> no_future (w_db w) (clock env (w_steps w)) ->
     cap_ok cfg (w_db (run_ops cfg env ops w))) /\
  (forall ops,
     monotone_clock env ->
     cap_ok cfg (w_db (run_ops cfg env ops (mkWorld empty_db 0 [])))) /\
  (forall contact_id d now,
     sent_today contact_id d now = sent_count d contact_id (date now)) /\
  (forall contact_id day m,
     sent_on_day contact_id day m = true <->
     m_contact_id m = contact_id /\ m_status m = sent /\
     exists t, m_sent_at m = Some t /\ date t = day) /\
  (forall r w,
     no_faults env -> gate_passes r ->
     MAX_DAILY_PER_CONTACT cfg
       <= sent_today (m_contact_id (r_msg r)) (w_db w) (clock env (w_steps w)) ->
     process_message cfg env r w
       = (inl tt,
          mkWorld (update_message (rid r) (set_skipped "daily cap reached") (w_db w))
                  (2 + w_steps w) (w_calls w))) /\
  map (fun m => (m_id m, m_status m, m_error m))
      (messages (w_db (snd (process_queue_tick Demo.cfg Demo.env Demo.world2))))
    = [(3, sent, None); (6, skipped, Some "daily cap reached")].
Proof.
  assert (Hgen : forall ops w,
     monotone_clock env -> db_wf (w_db w) = true ->
     cap_ok cfg (w_db w) -> no_future (w_db w) (clock env (w_steps w)) ->
     cap_ok cfg (w_db (run_ops cfg env ops w))).
  { intros ops w Hmono Hwf Hcap Hnf.
    apply (run_ops_cap cfg env Hmono ops w Hwf). now split. }
  split; [exact Hgen|]. split.
  { intros ops Hmono. apply Hgen; auto.
    - intros cid day. unfold sent_count; simpl. pose proof (cap_at_least_one cfg). lia.
    - intros m t' []. }
  split; [reflexivity|]. split; [exact sent_on_day_iff|].
  split; [exact process_message_at_cap|]. reflexivity.
Qed.

End CapClaim.

Lemma daily_cap_enforcement_witness :
  cap_ok Demo.cfg
    (w_db (run_ops Demo.cfg Demo.env
             [OpContactsAdd "Ann" "+254700000001" "vip" (Some "on");
              OpCampaignsCreate "promo" "Hi {{name}}" "vip";
              OpCampaignsStart 1; OpCampaignsStart 1; OpTick; OpTick]
             (mkWorld empty_db 0 []))).
Proof.
  apply (proj1 (proj2 (daily_cap_enforcement Demo.cfg Demo.env))).
  intros i j Hij. unfold Demo.env, clock. lia.
Defined.

(** The claim C2 as stated fails in two places.  Without the consent gate
    in front of the cap check: Cy is opted out and at the cap, and the tick
    skips Cy's queued message with the reason of the consent gate, the
    first rule to match.  Without a clock that goes forward: the count for
    Ann's message is made on day 1, where nothing was sent, the clock is set
    back, and the message is stamped on day 0, which then holds two sent
    messages under a cap of 1. *)
Lemma daily_cap_counterexample :
  (~ (forall cfg env r w,
        no_faults env ->
        MAX_DAILY_PER_CONTACT cfg
          <= sent_today (m_contact_id (r_msg r)) (w_db w) (clock env (w_steps w)) ->
        w_db (snd (process_message cfg env r w))
          = update_message (rid r) (set_skipped "daily cap reached") (w_db w)) /\
   batch_of Demo.cfg Demo.world3 = [mkRow Demo.m_cy 1 1] /\
   MAX_DAILY_PER_CONTACT Demo.cfg <= sent_today 3 Demo.store3 (clock Demo.env 1) /\
   messages (w_db (snd (process_queue_tick Demo.cfg Demo.env Demo.world3)))
     = [Demo.m_cy_sent; set_skipped "no consent or opted out" Demo.m_cy]) /\
  (cap_ok Demo.cfg Demo.store4 /\
   MAX_DAILY_PER_CONTACT Demo.cfg = 1 /\
   sent_count (w_db (snd (process_queue_tick Demo.cfg Demo.env_set_back Demo.world4)))
              1 0 = 2).
Proof.
  split; [split; [|repeat split; vm_compute; congruence]|].
  - intros H.
    specialize (H Demo.cfg Demo.env (mkRow Demo.m_cy 1 1) (next_step Demo.world3)
                  (fun _ => eq_refl)).
    assert (Hcap : MAX_DAILY_PER_CONTACT Demo.cfg
                   <= sent_today 3 Demo.store3 (clock Demo.env 1))
      by (vm_compute; congruence).
    specialize (H Hcap). vm_compute in H. discriminate.
  - split; [|split; reflexivity].
    intros cid day. unfold sent_count, sent_on_day. simpl.
    rewrite andb_false_r. simpl.
    match goal with |- context [if ?b then _ else _] => destruct b end;
      vm_compute; congruence.
Qed.

(** ** Campaign completion *)

Section Completion.

Variable cfg : Config.
Variable env : Env.

(** What a tick that returns does to a campaign, judged on the messages it
    leaves behind. *)
Definition completion_step (w w' : World) (c c' : Campaign) : Prop :=
  if started_open c && (count_left (g_id c) (w_db w') =? 0)
  then exists i, (w_steps w <= i < w_steps w')%nat /\
                 c' = set_completed (clock env i) c
  else c' = c.

Lemma in_select_started d c :
  In c (campaigns d) -> started_open c = true -> In (g_id c) (select_started d).
Proof.
  intros Hc Ho. unfold select_started. apply in_map. apply filter_In. auto.
Qed.

Lemma tick_completion w :
  db_wf (w_db w) = true ->
  fst (process_queue_tick cfg env w) = inl tt ->
  Forall2 (completion_step w (snd (process_queue_tick cfg env w)))
          (campaigns (w_db w)) (campaigns (w_db (snd (process_queue_tick cfg env w)))).
Proof.
  intros Hwf. rewrite tick_unfold.
  destruct (store_fault env (w_steps w)) as [e|]; simpl; [discriminate|].
  pose proof (rows_loop_frame cfg env (select_queued (SEND_PER_SECOND cfg) (w_db w))
                (next_step w) (select_queued_ready _ _ Hwf)) as Hloop.
  simpl in Hloop.
  destruct (for_each (process_message cfg env) _ (next_step w)) as [[[]|e] w1];
    simpl in *; [|discriminate].
  destruct Hloop as (_ & _ & Hg & _ & Hs).
  intros Hres. pose proof (mark_completed_frame env w1) as Hscan. simpl in Hscan.
  destruct Hscan as (Hm & _ & _ & _ & Hs2 & Hcamp).
  assert (Hnd : NoDup (map g_id (campaigns (w_db w1)))).
  { rewrite Hg. now apply db_wf_campaigns. }
  rewrite <- Hg. eapply Forall2_impl_in; [|exact Hcamp].
  intros c c' Hc [Hrel Hclose]. specialize (Hclose Hres).
  unfold completion_step.
  rewrite (count_left_messages (g_id c) _ _ Hm).
  destruct (started_open c) eqn:Ho; simpl.
  - destruct (Z.eqb_spec (count_left (g_id c) (w_db w1)) 0) as [Hz|Hz].
    + destruct (Hclose (in_select_started _ _ Hc Ho) Hz) as (i & Hi & ->).
      exists i. split; [lia | reflexivity].
    + destruct Hrel as [->|(_ & Hz' & _)]; [reflexivity | contradiction].
  - destruct Hrel as [->|(Hin & _)]; [reflexivity|].
    rewrite (started_open_of_id _ _ Hnd Hc Hin) in Ho. discriminate.
Qed.

Lemma scan_returns ids : forall w,
  no_faults env -> fst (for_each (close_if_drained env) ids w) = inl tt.
Proof.
  induction ids as [|x ids IH]; intros w Hnf; simpl; [reflexivity|].
  unfold bind, close_if_drained at 1, bind, sql_query, sql_exec, ret.
  rewrite (Hnf (w_steps w)).
  destruct (count_left x (w_db w) =? 0); simpl; [rewrite (Hnf (S (w_steps w)))|];
    now apply IH.
Qed.

(** With a store that does not fail a tick always returns. *)
Lemma tick_returns w :
  db_wf (w_db w) = true -> no_faults env ->
  fst (process_queue_tick cfg env w) = inl tt.
Proof.
  intros Hwf Hnf. rewrite tick_unfold, (Hnf (w_steps w)).
  destruct (rows_loop_complete cfg env (select_queued (SEND_PER_SECOND cfg) (w_db w))
              (next_step w) Hnf (select_queued_ready _ _ Hwf)) as [Hres _].
  destruct (for_each (process_message cfg env) _ (next_step w)) as [[[]|e] w1];
    simpl in *; [|discriminate].
  rewrite mark_completed_unfold, (Hnf (w_steps w1)). now apply scan_returns.
Qed.

Lemma completed_stays d d' c t :
  evolves d d' -> In c (campaigns d) -> g_completed_at c = Some t ->
  exists c', In c' (campaigns d') /\ g_id c' = g_id c /\ g_completed_at c' = Some t /\
             forall c'', In c'' (campaigns d') -> g_id c'' = g_id c -> c'' = c'.
Proof.
  intros [_ (old & new & E & Hstep & _) Hwf] Hc Ht.
  destruct (Forall2_in_l _ _ _ _ Hstep Hc) as (c' & Hc' & Hid & Hkeep & _).
  assert (Hin : In c' (campaigns d')) by (rewrite E; apply in_or_app; now left).
  exists c'. repeat split; auto.
  intros c'' Hc'' Hid''.
  eapply NoDup_map_inj; [apply db_wf_campaigns, Hwf | | | congruence]; assumption.
Qed.

Lemma camps_ok_evolves d d' :
  evolves d d' -> Forall camp_ok (campaigns d) -> Forall camp_ok (campaigns d').
Proof.
  intros [_ (old & new & E & Hstep & Hnew) _] Hok. rewrite E.
  apply Forall_app. split; [|assumption].
  eapply Forall2_preserves; [exact camp_step_ok | exact Hstep | exact Hok].
Qed.

(** What a tick that returns does to a campaign, column by column: every
    column but the completion time is as it was; the completion time is
    the clock of a step of the tick when the campaign had a start time, no
    completion time and no message left [queued] or [sending], and is as it
    was otherwise. *)
Definition completion_rule (w w' : World) (c c' : Campaign) : Prop :=
  g_id c' = g_id c /\ g_name c' = g_name c /\
  g_message_template c' = g_message_template c /\
  g_target_tag c' = g_target_tag c /\ g_created_at c' = g_created_at c /\
  g_started_at c' = g_started_at c /\
  if started_open c && (count_left (g_id c) (w_db w') =? 0)
  then exists i, (w_steps w <= i < w_steps w')%nat /\
                 g_completed_at c' = Some (clock env i)
  else g_completed_at c' = g_completed_at c.

Lemma completion_step_rule w w' c c' :
  completion_step w w' c c' -> completion_rule w w' c c'.
Proof.
  unfold completion_step, completion_rule.
  destruct (started_open c && (count_left (g_id c) (w_db w') =? 0)).
  - intros (i & Hi & ->). simpl. repeat split. exists i. auto.
  - intros ->. repeat split.
Qed.


End Completion.


(** ** Campaign activation *)

Section Activation.

Variable cfg : Config.
Variable env : Env.

(** The message queued for recipient [c] of campaign [camp]. *)
Definition queued_for (campaign_id : Z) (camp : Campaign) (c : Contact) (m : Message)
    : Prop :=
  m_campaign_id m = campaign_id /\ m_contact_id m = c_id c /\
  m_to_phone m = c_phone c /\ m_body m = message_body cfg camp c /\
  m_status m = queued /\ m_provider_id m = None /\ m_error m = None /\
  m_sent_at m = None.

Lemma enqueue_loop campaign_id camp recipients : forall w,
  no_faults env ->
  exists new w',
    for_each (fun c => sql_exec env (insert_message campaign_id (c_id c) (c_phone c)
                                       (message_body cfg camp c))) recipients w
      = (inl tt, w') /\
    contacts (w_db w') = contacts (w_db w) /\
    campaigns (w_db w') = campaigns (w_db w) /\
    audit_log (w_db w') = audit_log (w_db w) /\
    w_calls w' = w_calls w /\
    messages (w_db w') = messages (w_db w) ++ new /\
    Forall2 (queued_for campaign_id camp) recipients new.
Proof.
  induction recipients as [|c cs IH]; intros w Hnf; simpl.
  - exists [], w. rewrite app_nil_r. repeat split; constructor.
  - unfold bind, sql_exec at 1. rewrite (Hnf (w_steps w)).
    destruct (IH (mkWorld (insert_message campaign_id (c_id c) (c_phone c)
                             (message_body cfg camp c) (w_db w) (clock env (w_steps w)))
                          (S (w_steps w)) (w_calls w)) Hnf)
      as (new & w' & E & Hc & Hg & Ha & Hcl & Hm & Hnew).
    simpl in *. eexists (_ :: new), w'. rewrite E.
    split; [reflexivity|]. repeat split; auto.
    + rewrite Hm, <- app_assoc. reflexivity.
    + constructor; [|exact Hnew]. unfold queued_for; simpl. repeat split.
Qed.

Lemma enqueue_loop_seq campaign_id camp recipients : forall w,
  contacts_seq (w_db (snd (for_each (fun c =>
      sql_exec env (insert_message campaign_id (c_id c) (c_phone c)
                      (message_body cfg camp c))) recipients w)))
    = contacts_seq (w_db w).
Proof.
  induction recipients as [|c cs IH]; intros w; simpl; [reflexivity|].
  unfold bind, sql_exec at 1.
  destruct (store_fault env (w_steps w)); simpl; [reflexivity|].
  now rewrite IH.
Qed.

Lemma campaigns_start_overflow campaign_id w :
  fits_int64 campaign_id = false ->
  campaigns_start cfg env campaign_id w
    = (inr OverflowError, mkWorld (w_db w) (w_steps w) (w_calls w)).
Proof.
  intros Hfit. unfold campaigns_start, bind, transaction, bind_int, raise.
  now rewrite Hfit.
Qed.

Lemma campaigns_start_not_found campaign_id w :
  fits_int64 campaign_id = true ->
  find (fun c => g_id c =? campaign_id) (campaigns (w_db w)) = None ->
  w_db (snd (campaigns_start cfg env campaign_id w)) = w_db w /\
  w_calls (snd (campaigns_start cfg env campaign_id w)) = w_calls w /\
  (store_fault env (w_steps w) = None ->
   fst (campaigns_start cfg env campaign_id w)
     = inr (HTTPException 404 "Campaign not found")).
Proof.
  intros Hfit Hfind.
  unfold campaigns_start, bind, transaction, bind_int, sql_query, raise, ret.
  rewrite Hfit. destruct (store_fault env (w_steps w)); simpl.
  - repeat split. discriminate.
  - rewrite Hfind. simpl. repeat split.
Qed.

Lemma campaigns_start_found campaign_id camp w :
  fits_int64 campaign_id = true ->
  no_faults env ->
  find (fun c => g_id c =? campaign_id) (campaigns (w_db w)) = Some camp ->
  let recipients := select_recipients (Str.strip (g_target_tag camp)) (w_db w) in
  exists new steps,
    Forall2 (queued_for campaign_id camp) recipients new /\
    campaigns_start cfg env campaign_id w
      = (inl tt,
         mkWorld
           (mkDB (contacts (w_db w))
                 (map (fun c => if g_id c =? campaign_id
                                then set_started (clock env (S (S (w_steps w)))) c
                                else c)
                      (campaigns (w_db w)))
                 (messages (w_db w) ++ new)
                 (audit_log (w_db w) ++
                  [("campaign_started",
                    ("id=" ++ Str.of_Z campaign_id ++ ",queued=" ++
                     Str.of_Z (Z.of_nat (List.length recipients)))%string)])
                 (contacts_seq (w_db w)))
           steps (w_calls w)).
Proof.
  intros Hfit Hnf Hfind. simpl.
  pose proof (enqueue_loop_seq campaign_id camp
                (select_recipients (Str.strip (g_target_tag camp)) (w_db w))
                (mkWorld (update_campaign campaign_id
                            (set_started (clock env (S (S (w_steps w))))) (w_db w))
                         (S (S (S (w_steps w)))) (w_calls w))) as Hseq.
  destruct (enqueue_loop campaign_id camp
              (select_recipients (Str.strip (g_target_tag camp)) (w_db w))
              (mkWorld (update_campaign campaign_id
                          (set_started (clock env (S (S (w_steps w))))) (w_db w))
                       (S (S (S (w_steps w)))) (w_calls w)) Hnf)
    as (new & w1 & E & Hc & Hg & Ha & Hcl & Hm & Hnew).
  rewrite E in Hseq. simpl in Hseq.
  exists new, (S (w_steps w1)). split; [exact Hnew|].
  unfold campaigns_start. unfold bind at 1. unfold transaction.
  unfold bind at 1. unfold bind_int. rewrite Hfit. unfold ret at 1.
  unfold bind at 1. unfold sql_query at 1. rewrite (Hnf (w_steps w)), Hfind.
  unfold bind at 1. unfold sql_query at 1. unfold next_step at 1. simpl w_steps.
  rewrite (Hnf (S (w_steps w))). simpl w_db.
  unfold bind at 1. unfold sql_exec at 1. unfold next_step at 1. simpl w_steps.
  rewrite (Hnf (S (S (w_steps w)))). simpl w_db. simpl w_calls.
  unfold bind at 1. rewrite E. simpl in *.
  unfold audit, sql_exec. rewrite (Hnf (w_steps w1)). simpl.
  rewrite Hc, Hg, Ha, Hm, Hcl, Hseq. reflexivity.
Qed.


End Activation.



(** ** Isolation between the messages of a tick *)

Section Isolation.

Variable cfg : Config.
Variable env : Env.

Lemma for_each_app {A} (body : A -> M unit) l1 l2 w :
  for_each body (l1 ++ l2) w =
  match for_each body l1 w with
  | (inl _, w1) => for_each body l2 w1
  | (inr e, w1) => (inr e, w1)
  end.
Proof.
  revert w. induction l1 as [|x xs IH]; intros w; simpl; [reflexivity|].
  unfold bind. destruct (body x w) as [[[]|e] w1]; [apply IH | reflexivity].
Qed.

Lemma process_message_returns r w :
  no_faults env -> fst (process_message cfg env r w) = inl tt.
Proof.
  intros Hnf.
  destruct (process_message_run cfg env r w) as (o & res & cs & k & E & Hrun).
  rewrite E. simpl. now destruct (row_run_no_faults _ _ _ _ _ _ _ _ Hnf Hrun).
Qed.

Lemma for_each_abort r rest w e :
  fst (process_message cfg env r w) = inr e ->
  for_each (process_message cfg env) (r :: rest) w = process_message cfg env r w.
Proof.
  simpl. unfold bind. destruct (process_message cfg env r w) as [[[]|e'] w1]; simpl;
    [discriminate | reflexivity].
Qed.

Lemma process_message_raises r w ex :
  fst (process_message cfg env r w) = inr ex ->
  exists i e, (w_steps w <= i <= 4 + w_steps w)%nat /\
              store_fault env i = Some e /\ ex = Exception e.
Proof.
  destruct (process_message_run cfg env r w) as (o & res & cs & k & E & Hrun).
  rewrite E. simpl. intros ->.
  inversion Hrun; subst;
    match goal with
    | H : store_fault env ?i = Some ?e |- exists _ _, _ /\ _ /\ Exception ?e = _ =>
        exists i, e; repeat split; [lia | lia | exact H]
    end.
Qed.

Lemma row_run_returned r w o cs k m :
  row_run cfg env r w o (inl tt) cs k ->
  m_status (apply_outcome o m) = sent \/ m_status (apply_outcome o m) = failed \/
  m_status (apply_outcome o m) = skipped.
Proof. intros H. inversion H; subst; simpl; auto. Qed.

Lemma row_run_raised r w o ex cs k :
  row_run cfg env r w o (inr ex) cs k -> o = OUntouched \/ o = OSending.
Proof. intros H. inversion H; subst; auto. Qed.

(** The message of row [r] has left the queue for good. *)
Definition row_done (d : DB) (r : Row) : Prop :=
  exists m', In m' (messages d) /\ m_id m' = m_id (r_msg r) /\
             (m_status m' = sent \/ m_status m' = failed \/ m_status m' = skipped).

(** How the message loop ends, whatever fails: it has worked through all
    rows, or a store call of one row has raised, the rows before it are
    done and stay so, and the rows after it are in the store as they were
    selected. *)
Lemma rows_loop_split rows : forall w,
  rows_ready rows (w_db w) ->
  let res := fst (for_each (process_message cfg env) rows w) in
  let w' := snd (for_each (process_message cfg env) rows w) in
  (res = inl tt /\ forall r, In r rows -> row_done (w_db w') r) \/
  (exists done r rest i e,
     rows = done ++ r :: rest /\
     store_fault env i = Some e /\ (w_steps w <= i)%nat /\
     res = inr (Exception e) /\
     (forall r', In r' done -> row_done (w_db w') r') /\
     (In (r_msg r) (messages (w_db w')) \/
      In (set_sending (r_msg r)) (messages (w_db w'))) /\
     (forall r', In r' rest -> In (r_msg r') (messages (w_db w')))).
Proof.
  induction rows as [|r rows IH]; intros w Hready; simpl.
  - left. split; [reflexivity | contradiction].
  - unfold bind.
    destruct (process_message_run cfg env r w) as (o & res & cs & k & E & Hrun).
    pose proof (process_message_raises r w) as Hraise.
    rewrite E in *. simpl in Hraise.
    pose proof (rows_ready_step r rows (w_db w) o Hready) as Hready1.
    destruct Hready as (Hnd & Hms & Hin).
    destruct (Hin r (or_introl eq_refl)) as [Hr _].
    assert (Hmine : In (apply_outcome o (r_msg r))
                       (messages (update_message (m_id (r_msg r)) (apply_outcome o)
                                    (w_db w)))).
    { apply in_update_message. exists (r_msg r). split; [exact Hr|].
      now rewrite Z.eqb_refl. }
    destruct res as [[]|ex].
    + set (w1 := mkWorld _ (k + w_steps w) (w_calls w ++ cs)) in *.
      assert (Hdone : row_done
                (w_db (snd (for_each (process_message cfg env) rows w1))) r).
      { exists (apply_outcome o (r_msg r)). split.
        - apply rows_loop_untouched; [exact Hmine|].
          rewrite apply_outcome_id. inversion Hnd; assumption.
        - split; [apply apply_outcome_id | eapply row_run_returned; eauto]. }
      destruct (IH w1 Hready1) as [[Hres Hall]|(done & r0 & rest & i & e & Hrows & Hf & Hi
                                                & Hres & Hd & Hr0 & Hrest)].
      * left. split; [exact Hres|]. intros r' [<-|Hr']; [exact Hdone | now apply Hall].
      * right. exists (r :: done), r0, rest, i, e.
        split; [simpl; f_equal; exact Hrows|]. split; [exact Hf|].
        split; [subst w1; simpl in Hi; lia|]. split; [exact Hres|].
        split; [intros r' [<-|Hr']; [exact Hdone | now apply Hd] | auto].
    + right. destruct (Hraise ex eq_refl) as (i & e & Hi & Hf & ->).
      exists [], r, rows, i, e. simpl.
      split; [reflexivity|]. split; [exact Hf|]. split; [lia|]. split; [reflexivity|].
      split; [contradiction|]. split.
      * destruct (row_run_raised _ _ _ _ _ _ Hrun) as [->| ->]; [left | right]; exact Hmine.
      * intros r' Hr'. apply Hready1, Hr'.
Qed.

(** C4, per-message isolation, as amended.
    (1) With a store that does not fail no row raises, whatever the
    provider does.  (2) A provider call that raises [e], for a row past the
    gate and the cap check, is caught: the row returns and leaves its
    message with status [failed] and error [str e].
    (3) A tick on a well-formed store, whatever fails after its batch
    query: [worker_loop]'s turn absorbs whatever the tick raises; either
    every selected message has left the queue ([sent], [failed] or
    [skipped]), or a store call of one row has raised and ended the tick
    with that exception: the messages of the rows before it have left the
    queue and stay as they were committed, the message of that row is
    as it was selected or is left [sending], and the messages of the rows
    after it are still in the store as they were selected, [queued].
    (4) With a store that does not fail the tick returns and every selected
    message has left the queue.
    (5) An exception that leaves a row is always one raised by an sqlite3
    call of that row (the cap count, an update outside the [try] around
    the provider call, or the update in its handler). *)
Theorem per_message_isolation :
  (forall r w, no_faults env -> fst (process_message cfg env r w) = inl tt) /\
  (forall r w e,
     no_faults env -> gate_passes r -> In (r_msg r) (messages (w_db w)) ->
     sent_today (m_contact_id (r_msg r)) (w_db w) (clock env (w_steps w))
       < MAX_DAILY_PER_CONTACT cfg ->
     provider_answer cfg env r w = inr e ->
     let m := r_msg r in
     fst (process_message cfg env r w) = inl tt /\
     In (mkMessage (m_id m) (m_campaign_id m) (m_contact_id m) (m_to_phone m)
                   (m_body m) failed (m_provider_id m) (Some (str e))
                   (m_created_at m) (m_sent_at m))
        (messages (w_db (snd (process_message cfg env r w))))) /\
  (forall w,
     db_wf (w_db w) = true -> store_fault env (w_steps w) = None ->
     let w' := snd (process_queue_tick cfg env w) in
     worker_turn cfg env w = (inl tt, w') /\
     ((forall r, In r (batch_of cfg w) -> row_done (w_db w') r) \/
      (exists done r rest i e,
         batch_of cfg w = done ++ r :: rest /\
         store_fault env i = Some e /\ (w_steps w < i)%nat /\
         fst (process_queue_tick cfg env w) = inr (Exception e) /\
         (forall r', In r' done -> row_done (w_db w') r') /\
         (let m := r_msg r in
          In m (messages (w_db w')) \/
          In (mkMessage (m_id m) (m_campaign_id m) (m_contact_id m) (m_to_phone m)
                        (m_body m) sending (m_provider_id m) (m_error m)
                        (m_created_at m) (m_sent_at m))
             (messages (w_db w'))) /\
         (forall r', In r' rest ->
            In (r_msg r') (messages (w_db w')) /\ m_status (r_msg r') = queued)))) /\
  (forall w,
     db_wf (w_db w) = true -> no_faults env ->
     fst (process_queue_tick cfg env w) = inl tt /\
     forall r, In r (batch_of cfg w) ->
               row_done (w_db (snd (process_queue_tick cfg env w))) r) /\
  (forall r w ex,
     fst (process_message cfg env r w) = inr ex ->
     exists i e, (w_steps w <= i <= 4 + w_steps w)%nat /\
                 store_fault env i = Some e /\ ex = Exception e).
Proof.
  split; [exact process_message_returns|].
  split.
  { intros r w e Hnf Hg Hin Hcap Hans. simpl.
    destruct (process_message_called cfg env r w Hnf Hg Hcap) as [Hres Hdb].
    split; [exact Hres|]. rewrite Hdb. apply in_update_message.
    exists (r_msg r). split; [exact Hin|]. unfold rid, recorded.
    now rewrite Z.eqb_refl, Hans. }
  split.
  { intros w Hwf Hf. simpl.
    split.
    { unfold worker_turn, try_except.
      destruct (process_queue_tick cfg env w) as [[[]|e] w']; reflexivity. }
    pose proof (select_queued_ready (SEND_PER_SECOND cfg) (w_db w) Hwf) as Hready.
    fold (batch_of cfg w) in Hready.
    destruct (tick_loop cfg env w Hf) as [Hm _]. unfold row_done. rewrite Hm.
    unfold after_loop.
    destruct (rows_loop_split (batch_of cfg w) (next_step w) Hready)
      as [[_ Hall]|(done & r & rest & i & e & Hrows & Hfi & Hi & Hres & Hd & Hr & Hrest)].
    - left. exact Hall.
    - right. exists done, r, rest, i, e.
      split; [exact Hrows|]. split; [exact Hfi|]. split; [simpl in Hi; lia|].
      split.
      { rewrite tick_unfold, Hf. fold (batch_of cfg w).
        destruct (for_each (process_message cfg env) (batch_of cfg w) (next_step w))
          as [[[]|ex] w1]; simpl in Hres; [discriminate | exact Hres]. }
      split; [exact Hd|]. split; [exact Hr|].
      intros r' Hr'. split; [now apply Hrest|].
      apply Hready. rewrite Hrows. apply in_or_app. right. now right. }
  split; [|exact process_message_raises].
  intros w Hwf Hnf. split; [now apply tick_returns|].
  destruct (tick_loop cfg env w (Hnf _)) as [Hm _]. unfold row_done. rewrite Hm.
  unfold after_loop.
  destruct (rows_loop_complete cfg env (batch_of cfg w) (next_step w) Hnf
              (select_queued_ready _ _ Hwf)) as [_ Hrows].
  intros r Hr.
  destruct (Hrows r Hr) as (x & o & cs & k & Hrun & _ & _ & _ & _ & Hin).
  exists (apply_outcome o (r_msg r)). split; [exact Hin|].
  split; [apply apply_outcome_id | eapply row_run_returned; eauto].
Qed.

End Isolation.

Lemma per_message_isolation_witness :
  (fst (process_message Demo.cfg Demo.env_down (mkRow Demo.m_ann 1 0) Demo.world) = inl tt /\
   In (mkMessage 3 1 1 "+254700000001" "Hi" failed None (Some "timed out") 31 None)
      (messages (w_db (snd (process_message Demo.cfg Demo.env_down (mkRow Demo.m_ann 1 0)
                              Demo.world))))) /\
  worker_turn Demo.cfg Demo.env_locked Demo.world
    = (inl tt, snd (process_queue_tick Demo.cfg Demo.env_locked Demo.world)).
Proof.
  split.
  - refine (proj1 (proj2 (per_message_isolation Demo.cfg Demo.env_down))
              (mkRow Demo.m_ann 1 0) Demo.world (Exception "timed out")
              (fun _ => eq_refl) _ _ eq_refl eq_refl).
    + split; [reflexivity | discriminate].
    + simpl. auto.
  - exact (proj1 (proj1 (proj2 (proj2 (per_message_isolation Demo.cfg Demo.env_locked)))
                    Demo.world eq_refl eq_refl)).
Defined.

(** The claim C4 as stated fails: isolation would have the rest of the
    batch processed from wherever the failing row left the world.  With the
    sqlite3 call of step 1 raising (the cap count of the first row), the
    tick ends there with that exception, and the second selected message,
    Bob's, stays [queued], although run on its own from that world it
    would have been skipped. *)
Lemma per_message_isolation_counterexample :
  ~ (forall cfg env r rest w,
       snd (for_each (process_message cfg env) (r :: rest) w)
         = snd (for_each (process_message cfg env) rest
                         (snd (process_message cfg env r w)))) /\
  map rid (batch_of Demo.cfg Demo.world) = [3; 4] /\
  fst (process_queue_tick Demo.cfg Demo.env_locked Demo.world)
    = inr (Exception "database is locked") /\
  messages (w_db (snd (process_queue_tick Demo.cfg Demo.env_locked Demo.world)))
    = messages Demo.store.
Proof.
  split; [|repeat split; reflexivity].
  intros H.
  specialize (H Demo.cfg Demo.env_locked (mkRow Demo.m_ann 1 0) [mkRow Demo.m_bob 0 0]
                (next_step Demo.world)).
  vm_compute in H. discriminate.
Qed.

(** ** Recipient selection *)

(** Following the spec's words: the contact's comma-separated tag list
    contains the target tag as an exact, case-insensitive token. *)
Definition has_tag_token (tag tags : string) : bool :=
  existsb (fun t => String.eqb (Str.lower t) (Str.lower tag)) (Str.split_on "," tags).

(** Following the spec's words: all consented, non-opted-out contacts for an
    empty target tag, otherwise those of them whose tag list has the token. *)
Definition spec_recipients (tag : string) (d : DB) : list Contact :=
  if String.eqb tag "" then filter eligible (contacts d)
  else filter (fun c => eligible c && has_tag_token tag (c_tags c)) (contacts d).

Definition tagged (id : Z) (tags : string) : Contact :=
  mkContact id "" "" 1 0 tags 0.

(** The spec's scenario 4: target tag 'vip' selects the contact tagged
    'vip,gold' and not the one tagged 'gold', whatever the case. *)
Lemma select_recipients_vip :
  select_recipients "vip" (mkDB [tagged 1 "vip,gold"; tagged 2 "gold"; tagged 3 "VIP";
                                 tagged 4 "vipx,avip"] [] [] [] 4)
    = [tagged 1 "vip,gold"; tagged 3 "VIP"] /\
  select_recipients "" Demo.store = [Demo.ann].
Proof. split; reflexivity. Qed.

(** C6 at a failing input.  The target tag is put into the [LIKE] pattern
    as it is, so its [_] and [%] are wildcards: target tag 'vip_gold'
    selects Ann, whose tag list 'vip,gold' has the tokens 'vip' and 'gold'
    and no token 'vip_gold' (the [_] matches the comma), and target tag '%'
    selects an eligible contact with any tag list at all, while the exact
    token match of the claim selects nobody in either case. *)
Theorem recipient_selection_wildcards :
  select_recipients "vip_gold" Demo.store = [Demo.ann] /\
  spec_recipients "vip_gold" Demo.store = [] /\
  Str.split_on "," (c_tags Demo.ann) = ["vip"; "gold"] /\
  select_recipients "%" (mkDB [tagged 1 "gold"] [] [] [] 1) = [tagged 1 "gold"] /\
  spec_recipients "%" (mkDB [tagged 1 "gold"] [] [] [] 1) = [].
Proof. repeat split; reflexivity. Qed.

(** *** Where the two selections agree

    For a target tag without [%], [_] and comma the [LIKE] test is the exact
    token test. *)

Section TagTokens.

Local Open Scope string_scope.
Local Arguments Ascii.eqb : simpl never.

Fixpoint all_chars (P : ascii -> bool) (s : string) : bool :=
  match s with
  | EmptyString => true
  | String c s' => P c && all_chars P s'
  end.

Definition is_lowered (c : ascii) : bool := Ascii.eqb (Str.lower_ascii c) c.

(** Not a [LIKE] wildcard. *)
Definition plain_char (c : ascii) : bool :=
  negb (Ascii.eqb c "%") && negb (Ascii.eqb c "_").

(** Neither a [LIKE] wildcard nor the separator of the tag list. *)
Definition safe_char (c : ascii) : bool :=
  plain_char c && negb (Ascii.eqb c ",").

Lemma safe_plain s : all_chars safe_char s = true -> all_chars plain_char s = true.
Proof.
  induction s as [|c s IH]; simpl; [reflexivity|].
  unfold safe_char at 1. rewrite !andb_true_iff. intros [[Hp _] Hs]. auto.
Qed.

Lemma lower_ascii_lowered c : is_lowered (Str.lower_ascii c) = true.
Proof. destruct c as [[] [] [] [] [] [] [] []]; reflexivity. Qed.

Lemma lower_ascii_safe c : safe_char (Str.lower_ascii c) = safe_char c.
Proof. destruct c as [[] [] [] [] [] [] [] []]; reflexivity. Qed.

Lemma lower_ascii_comma c : Ascii.eqb (Str.lower_ascii c) "," = Ascii.eqb c ",".
Proof. destruct c as [[] [] [] [] [] [] [] []]; reflexivity. Qed.

Lemma all_chars_app P a b : all_chars P (a ++ b) = all_chars P a && all_chars P b.
Proof.
  induction a as [|c a IH]; simpl; [reflexivity|]. now rewrite IH, andb_assoc.
Qed.

Lemma lower_lowered s : all_chars is_lowered (Str.lower s) = true.
Proof.
  induction s as [|c s IH]; simpl; [reflexivity|].
  now rewrite lower_ascii_lowered, IH.
Qed.

Lemma lower_safe s : all_chars safe_char (Str.lower s) = all_chars safe_char s.
Proof.
  induction s as [|c s IH]; simpl; [reflexivity|]. now rewrite lower_ascii_safe, IH.
Qed.

Lemma after_any_ext P f g s :
  (forall t, all_chars P t = true -> f t = g t) ->
  all_chars P s = true -> Str.after_any f s = Str.after_any g s.
Proof.
  intros H. induction s as [|c s IH]; simpl; intros Hs.
  - now rewrite (H "").
  - rewrite (H (String c s)) by exact Hs.
    apply andb_true_iff in Hs. now rewrite IH.
Qed.

Lemma like_percent_end s : Str.like "%" s = true.
Proof.
  simpl. induction s as [|c s IH]; simpl; [reflexivity | exact IH].
Qed.

(** A pattern of plain characters followed by [%], on lower-case text, is
    a prefix test. *)
Lemma like_literal lit : forall s,
  all_chars plain_char lit = true -> all_chars is_lowered lit = true ->
  all_chars is_lowered s = true ->
  Str.like (lit ++ "%") s = Str.starts_with lit s.
Proof.
  induction lit as [|c lit IH]; intros s Hsafe Hlow Hs.
  - change (Str.like "%" s = Str.starts_with "" s).
    rewrite (like_percent_end s). now destruct s.
  - simpl in Hsafe, Hlow. apply andb_true_iff in Hsafe, Hlow.
    destruct Hsafe as [Hc Hsafe], Hlow as [Hlc Hlow].
    unfold plain_char in Hc. rewrite !andb_true_iff, !negb_true_iff in Hc.
    destruct Hc as [Hp Hu].
    change (String c lit ++ "%") with (String c (lit ++ "%")).
    cbn [Str.like]. rewrite Hp, Hu.
    destruct s as [|d s]; [reflexivity|].
    simpl in Hs. apply andb_true_iff in Hs. destruct Hs as [Hd Hs].
    unfold is_lowered in Hlc, Hd. apply Ascii.eqb_eq in Hlc, Hd.
    rewrite Hlc, Hd, IH by assumption. reflexivity.
Qed.

Lemma split_on_cons sep s : exists t ts, Str.split_on sep s = t :: ts.
Proof.
  destruct s as [|c s]; simpl; [eauto|].
  destruct (Ascii.eqb c sep); [eauto|].
  destruct (Str.split_on sep s); eauto.
Qed.

Lemma starts_with_empty x : Str.starts_with (x ++ ",") "" = false.
Proof. now destruct x. Qed.

Lemma ascii_eqb_sym a b : Ascii.eqb a b = Ascii.eqb b a.
Proof.
  destruct (Ascii.eqb_spec a b) as [->|H]; [now rewrite Ascii.eqb_refl|].
  symmetry. apply Ascii.eqb_neq. congruence.
Qed.

(** The text up to the first comma is the first token. *)
Lemma first_token x : forall s,
  all_chars safe_char x = true ->
  Str.starts_with (x ++ ",") (s ++ ",")
    = String.eqb (hd "" (Str.split_on "," s)) x.
Proof.
  induction x as [|a x IH]; intros s Hx.
  - destruct s as [|c s]; simpl; [reflexivity|].
    rewrite (ascii_eqb_sym "," c).
    destruct (Ascii.eqb c ","); simpl; [reflexivity|].
    destruct (split_on_cons "," s) as (t & ts & ->). reflexivity.
  - simpl in Hx. apply andb_true_iff in Hx. destruct Hx as [Ha Hx].
    unfold safe_char in Ha. rewrite !andb_true_iff, !negb_true_iff in Ha.
    destruct Ha as [_ Hcomma].
    destruct s as [|c s]; simpl.
    + now rewrite Hcomma.
    + destruct (Ascii.eqb_spec c ",") as [->|Hc]; simpl.
      * now rewrite Hcomma.
      * destruct (split_on_cons "," s) as (t & ts & E).
        rewrite IH by assumption. rewrite E. simpl.
        now rewrite (ascii_eqb_sym a c).
Qed.

(** [,x,] occurs in [s,] exactly when [x] is a token of [s] after the first. *)
Lemma later_tokens x : forall s,
  all_chars safe_char x = true ->
  Str.after_any (Str.starts_with ("," ++ x ++ ",")) (s ++ ",")
    = existsb (fun t => String.eqb t x) (tl (Str.split_on "," s)).
Proof.
  intros s Hx. induction s as [|c s IH].
  - simpl. now rewrite starts_with_empty.
  - change (String c s ++ ",") with (String c (s ++ ",")).
    cbn [Str.after_any]. rewrite IH.
    change (Str.starts_with ("," ++ x ++ ",") (String c (s ++ ",")))
      with (Ascii.eqb "," c && Str.starts_with (x ++ ",") (s ++ ",")).
    rewrite (first_token x s Hx), (ascii_eqb_sym "," c). simpl.
    destruct (Ascii.eqb c ","); simpl.
    + destruct (split_on_cons "," s) as (t & ts & ->). reflexivity.
    + destruct (split_on_cons "," s) as (t & ts & ->). reflexivity.
Qed.

Lemma str_app_assoc a b c : (a ++ b) ++ c = a ++ (b ++ c).
Proof. induction a as [|x a IH]; simpl; [reflexivity | now rewrite IH]. Qed.

Lemma split_on_lower s :
  Str.split_on "," (Str.lower s) = map Str.lower (Str.split_on "," s).
Proof.
  induction s as [|c s IH]; simpl; [reflexivity|].
  rewrite lower_ascii_comma, IH.
  destruct (Ascii.eqb c ","); [reflexivity|].
  destruct (split_on_cons "," s) as (t & ts & ->). reflexivity.
Qed.

(** The SQL test of [campaigns_start] is the token test of the spec, for a
    target tag free of [%], [_] and comma. *)
Lemma like_is_token_match tag tags :
  all_chars safe_char tag = true ->
  Str.like ("%," ++ Str.lower tag ++ ",%") ("," ++ Str.lower tags ++ ",")
    = has_tag_token tag tags.
Proof.
  intros Hsafe.
  assert (Hx : all_chars safe_char (Str.lower tag) = true) by now rewrite lower_safe.
  replace ("%," ++ Str.lower tag ++ ",%")
    with (String "%" (("," ++ Str.lower tag ++ ",") ++ "%"))
    by (simpl; now rewrite str_app_assoc).
  cbn [Str.like]. rewrite Ascii.eqb_refl.
  rewrite (after_any_ext is_lowered _ (Str.starts_with ("," ++ Str.lower tag ++ ","))).
  - change ("," ++ Str.lower tags ++ ",") with (String "," (Str.lower tags ++ ",")).
    cbn [Str.after_any]. rewrite later_tokens by assumption.
    change (Str.starts_with ("," ++ Str.lower tag ++ ",")
                            (String "," (Str.lower tags ++ ",")))
      with (Ascii.eqb "," "," &&
            Str.starts_with (Str.lower tag ++ ",") (Str.lower tags ++ ",")).
    rewrite Ascii.eqb_refl, first_token by assumption. simpl.
    unfold has_tag_token. rewrite split_on_lower.
    destruct (split_on_cons "," tags) as (t & ts & ->). simpl.
    f_equal. induction ts as [|u ts IH]; simpl; [reflexivity | now rewrite IH].
  - intros t Ht. apply like_literal; [| |exact Ht].
    + change (all_chars plain_char (String "," (Str.lower tag ++ ",")) = true).
      cbn [all_chars]. now rewrite all_chars_app, (safe_plain _ Hx).
    + change (all_chars is_lowered (String "," (Str.lower tag ++ ",")) = true).
      cbn [all_chars]. rewrite all_chars_app, lower_lowered. reflexivity.
  - change (all_chars is_lowered (String "," (Str.lower tags ++ ",")) = true).
    cbn [all_chars]. rewrite all_chars_app, lower_lowered. reflexivity.
Qed.

End TagTokens.

(** Where [select_recipients] does what the claim C6 says: for every target
    tag without [%], [_] and comma, the empty tag included. *)
Lemma select_recipients_exact tag d :
  all_chars safe_char tag = true ->
  select_recipients tag d = spec_recipients tag d.
Proof.
  intros Hsafe. unfold select_recipients, spec_recipients.
  destruct (String.eqb tag ""); cbn [negb]; [reflexivity|].
  apply filter_ext. intros c. now rewrite like_is_token_match.
Qed.

(** ** The worker loop and two histories *)

(** [worker_loop] absorbs whatever a tick raises and keeps what it wrote. *)
Lemma worker_turn_absorbs cfg env w :
  fst (worker_turn cfg env w) = inl tt /\
  snd (worker_turn cfg env w) = snd (process_queue_tick cfg env w).
Proof.
  unfold worker_turn, try_except.
  destruct (process_queue_tick cfg env w) as [[[]|e] w']; split; reflexivity.
Qed.

(** How a message comes to be left in [sending]: the provider accepts Ann's
    message, then the store fails on the [sent] update and again on the
    [failed] update of the handler.  The tick ends with the second
    exception, the message stays [sending], and the next tick, with a
    healthy store, does not pick it up. *)
Lemma sending_left_behind :
  let env_fails := mkEnv (fun i => 100000 + Z.of_nat i) (fun _ _ _ => Demo.accepted)
                         (fun i => if (Nat.eqb i 4 || Nat.eqb i 5)%bool
                                   then Some "disk I/O error" else None) in
  let w1 := snd (process_queue_tick Demo.cfg env_fails Demo.world2) in
  fst (process_queue_tick Demo.cfg env_fails Demo.world2)
    = inr (Exception "disk I/O error") /\
  messages (w_db w1) = [set_sending Demo.m_ann; Demo.m_ann2] /\
  map call_msg (w_calls w1) = [3] /\
  map rid (batch_of Demo.cfg (mkWorld (w_db w1) 10 [])) = [6].
Proof. repeat split; reflexivity. Qed.

(** The rule order behind the amended C2 arises from the empty store: Cy is
    added with consent, a campaign is activated three times, the first tick
    sends one message and skips one at the cap, Cy unsubscribes, and the
    second tick skips the third message, at the cap, for the opt-out. *)
Lemma cap_rule_order_history :
  let w := run_ops Demo.cfg Demo.env
             [OpContactsAdd "Cy" "+254700000003" "vip" (Some "on");
              OpCampaignsCreate "promo" "Hi {{name}}" "vip";
              OpCampaignsStart 1; OpCampaignsStart 1; OpCampaignsStart 1;
              OpTick; OpUnsubscribe "+254700000003"; OpTick]
             (mkWorld empty_db 0 []) in
  map (fun m => (m_id m, m_status m, m_error m)) (messages (w_db w))
    = [(1, sent, None);
       (2, skipped, Some "daily cap reached");
       (3, skipped, Some "no consent or opted out")] /\
  sent_count (w_db w) 1 (date (clock Demo.env (w_steps w))) = 1 /\
  MAX_DAILY_PER_CONTACT Demo.cfg = 1.
Proof. repeat split; reflexivity. Qed.

(** * More of [app.py]: the contact book *)

(** ** What any operation may do to a stored contact *)

(** Identity, phone and creation time stay; consent and opt-out, once 1,
    stay 1. *)
Definition cont_step (c c' : Contact) : Prop :=
  c_id c' = c_id c /\ c_phone c' = c_phone c /\ c_created_at c' = c_created_at c /\
  (c_consented c = 1 -> c_consented c' = 1) /\
  (c_opted_out c = 1 -> c_opted_out c' = 1).

Lemma cont_step_refl c : cont_step c c.
Proof. unfold cont_step. auto. Qed.

Lemma cont_step_trans c1 c2 c3 : cont_step c1 c2 -> cont_step c2 c3 -> cont_step c1 c3.
Proof.
  intros (A1 & A2 & A3 & A4 & A5) (B1 & B2 & B3 & B4 & B5).
  unfold cont_step. repeat split; try congruence; auto.
Qed.

(** The contact book after is the one before with contacts edited in place
    and new ones appended, and no phone number is stored twice. *)
Record book_kept (d d' : DB) : Prop := mkBookKept {
  b_step : exists old new,
      contacts d' = old ++ new /\ Forall2 cont_step (contacts d) old;
  b_phones : NoDup (map c_phone (contacts d)) -> NoDup (map c_phone (contacts d'))
}.

Lemma book_kept_refl d : book_kept d d.
Proof.
  constructor; auto. exists (contacts d), []. rewrite app_nil_r.
  split; [reflexivity | apply Forall2_refl, cont_step_refl].
Qed.

Lemma book_kept_trans d1 d2 d3 : book_kept d1 d2 -> book_kept d2 d3 -> book_kept d1 d3.
Proof.
  intros [(o1 & n1 & E1 & S1) P1] [(o2 & n2 & E2 & S2) P2]. constructor; auto.
  rewrite E1 in S2. apply Forall2_app_inv_l in S2.
  destruct S2 as (a & b & Sa & Sb & ->).
  exists a, (b ++ n2). rewrite E2, app_assoc. split; [reflexivity|].
  eapply Forall2_trans; [exact cont_step_trans | exact S1 | exact Sa].
Qed.

Lemma book_kept_same d d' : contacts d' = contacts d -> book_kept d d'.
Proof.
  intros E. constructor; rewrite E; auto.
  exists (contacts d), []. rewrite app_nil_r.
  split; [reflexivity | apply Forall2_refl, cont_step_refl].
Qed.

(** A computation all of whose store writes keep the contact book. *)
Definition keeps_book {A} (c : M A) : Prop :=
  forall w, book_kept (w_db w) (w_db (snd (c w))).

Lemma keeps_book_ret {A} (a : A) : keeps_book (ret a).
Proof. intros w. apply book_kept_refl. Qed.

Lemma keeps_book_raise {A} e : keeps_book (@raise A e).
Proof. intros w. apply book_kept_refl. Qed.

Lemma keeps_book_bind {A B} (c : M A) (k : A -> M B) :
  keeps_book c -> (forall a, keeps_book (k a)) -> keeps_book (bind c k).
Proof.
  intros Hc Hk w. unfold bind. specialize (Hc w).
  destruct (c w) as [[a|e] w1]; simpl in *; [|assumption].
  eapply book_kept_trans; [exact Hc | apply Hk].
Qed.

Lemma keeps_book_transaction {A} (c : M A) : keeps_book c -> keeps_book (transaction c).
Proof.
  intros Hc w. unfold transaction. specialize (Hc w).
  destruct (c w) as [[a|e] w1]; simpl in *; [assumption | apply book_kept_refl].
Qed.

Lemma keeps_book_for_each {A} (body : A -> M unit) l :
  (forall x, keeps_book (body x)) -> keeps_book (for_each body l).
Proof.
  intros H. induction l as [|x xs IH]; simpl;
    [apply keeps_book_ret | apply keeps_book_bind; auto].
Qed.

Section Book.

Variable cfg : Config.
Variable env : Env.

Lemma keeps_book_query {A} (q : DB -> Time -> A) : keeps_book (sql_query env q).
Proof.
  intros w. unfold sql_query.
  destruct (store_fault env (w_steps w)); apply book_kept_refl.
Qed.

Lemma keeps_book_exec (u : DB -> Time -> DB) :
  (forall d t, book_kept d (u d t)) -> keeps_book (sql_exec env u).
Proof.
  intros H w. unfold sql_exec.
  destruct (store_fault env (w_steps w)); simpl; [apply book_kept_refl | apply H].
Qed.

Lemma keeps_book_bind_int z : keeps_book (bind_int z).
Proof.
  unfold bind_int. destruct (fits_int64 z); [apply keeps_book_ret | apply keeps_book_raise].
Qed.

Lemma keeps_book_audit action meta : keeps_book (audit env action meta).
Proof. apply keeps_book_exec. intros d t. now apply book_kept_same. Qed.

Lemma book_kept_upsert name phone tags consented d t :
  consented = 0 \/ consented = 1 ->
  book_kept d (upsert_contact name phone tags consented d t).
Proof.
  intros Hcons. unfold upsert_contact. constructor; simpl.
  - destruct (existsb _ (contacts d)).
    + eexists _, []. rewrite app_nil_r. split; [reflexivity|].
      apply Forall2_map_r. intros c _.
      destruct (String.eqb (c_phone c) phone); [|apply cont_step_refl].
      unfold cont_step; simpl. repeat split; auto. intros H. rewrite H. lia.
    + eexists (contacts d), [_]. split; [reflexivity|].
      apply Forall2_refl, cont_step_refl.
  - intros Hnd. destruct (existsb _ (contacts d)) eqn:E.
    + rewrite map_map. erewrite map_ext; [exact Hnd|].
      intros c. simpl. now destruct (String.eqb (c_phone c) phone).
    + rewrite map_app. simpl.
      eapply Permutation_NoDup; [apply Permutation_cons_append|].
      constructor; [|assumption].
      intros Hin. apply in_map_iff in Hin. destruct Hin as (c & Hp & Hc).
      assert (existsb (fun c => String.eqb (c_phone c) phone) (contacts d) = true);
        [|congruence].
      apply existsb_exists. exists c. split; [assumption|]. now apply String.eqb_eq.
Qed.

Lemma book_kept_opt_out sel d : book_kept d (update_contacts sel set_opted_out d).
Proof.
  unfold update_contacts. constructor; simpl.
  - eexists _, []. rewrite app_nil_r. split; [reflexivity|].
    apply Forall2_map_r. intros c _. destruct (sel c); [|apply cont_step_refl].
    unfold cont_step; simpl. auto.
  - intros Hnd. rewrite map_map. erewrite map_ext; [exact Hnd|].
    intros c. simpl. now destruct (sel c).
Qed.

Lemma keeps_book_op op w :
  db_wf (w_db w) = true -> book_kept (w_db w) (w_db (snd (run_op cfg env op w))).
Proof.
  intros Hwf. destruct op; simpl.
  - apply keeps_book_exec. intros d t. apply book_kept_refl.
  - apply book_kept_same. apply (tick_effect cfg env w Hwf).
  - apply keeps_book_bind; [|intros; apply keeps_book_audit].
    apply keeps_book_exec. intros d t. apply book_kept_upsert.
    destruct (is_some _); auto.
  - apply keeps_book_bind; [|intros; apply keeps_book_audit].
    apply keeps_book_transaction, keeps_book_for_each. intros row.
    apply keeps_book_exec. intros d t. apply book_kept_upsert.
    destruct (_ || _); auto.
  - apply keeps_book_bind; [apply keeps_book_bind_int|]. intros _.
    apply keeps_book_bind; [|intros; apply keeps_book_audit].
    apply keeps_book_exec. intros d t. apply book_kept_opt_out.
  - apply keeps_book_bind; [|intros _; apply keeps_book_bind;
                              [intros x; apply book_kept_refl
                              |intros; apply keeps_book_audit]].
    apply keeps_book_exec. intros d t. now apply book_kept_same.
  - apply keeps_book_bind; [|intros; apply keeps_book_audit].
    apply keeps_book_transaction, keeps_book_bind; [apply keeps_book_bind_int|].
    intros _. apply keeps_book_bind; [apply keeps_book_query|].
    intros [camp|]; [|apply keeps_book_raise].
    apply keeps_book_bind; [apply keeps_book_query|]. intros recipients.
    apply keeps_book_bind;
      [apply keeps_book_exec; intros; now apply book_kept_same|].
    intros _. apply keeps_book_bind; [|intros; apply keeps_book_ret].
    apply keeps_book_for_each. intros c.
    apply keeps_book_exec. intros d t. now apply book_kept_same.
  - apply keeps_book_bind; [|intros; apply keeps_book_audit].
    apply keeps_book_exec. intros d t. apply book_kept_opt_out.
Qed.

Lemma run_ops_book ops : forall w,
  db_wf (w_db w) = true -> book_kept (w_db w) (w_db (run_ops cfg env ops w)).
Proof.
  induction ops as [|op ops IH]; intros w Hwf; simpl; [apply book_kept_refl|].
  eapply book_kept_trans; [now apply keeps_book_op|].
  apply IH. apply (op_evolves cfg env op w Hwf).
Qed.

(** Consent and opt-out are permanent.  Through any history of operations
    (re-adding the contact, CSV imports, activations and ticks included) a
    stored contact keeps its id and phone, a contact that has consented
    stays consented, and a contact that has opted out stays opted out. *)
Theorem flags_are_permanent (ops : list Op) (w : World) (c : Contact) :
  db_wf (w_db w) = true -> In c (contacts (w_db w)) ->
  exists c', In c' (contacts (w_db (run_ops cfg env ops w))) /\
             c_id c' = c_id c /\ c_phone c' = c_phone c /\
             (c_consented c = 1 -> c_consented c' = 1) /\
             (c_opted_out c = 1 -> c_opted_out c' = 1).
Proof.
  intros Hwf Hc. destruct (run_ops_book ops w Hwf) as [(old & new & E & Hstep) _].
  destruct (Forall2_in_l _ _ _ _ Hstep Hc) as (c' & Hc' & H1 & H2 & _ & H4 & H5).
  exists c'. rewrite E. repeat split; auto. apply in_or_app. now left.
Qed.

(** No phone number is ever stored twice: from a store whose phones are
    distinct, every history of operations leaves them distinct. *)
Theorem phones_stay_distinct (ops : list Op) (w : World) :
  db_wf (w_db w) = true -> NoDup (map c_phone (contacts (w_db w))) ->
  NoDup (map c_phone (contacts (w_db (run_ops cfg env ops w)))).
Proof. intros Hwf. apply (run_ops_book ops w Hwf). Qed.

End Book.

Lemma flags_are_permanent_witness :
  exists c', In c' (contacts (w_db (run_ops Demo.cfg Demo.env
                     [OpContactsAdd "Cy" "+254700000003" "" (Some "on");
                      OpContactsImportCsv
                        [mkCsvRow (Some "+254700000003") (Some "Cy") (Some "0") None];
                      OpTick] Demo.world))) /\
             c_id c' = 3 /\ c_phone c' = "+254700000003" /\
             (c_consented Demo.cy = 1 -> c_consented c' = 1) /\
             (c_opted_out Demo.cy = 1 -> c_opted_out c' = 1).
Proof.
  apply (flags_are_permanent Demo.cfg Demo.env _ Demo.world Demo.cy).
  - reflexivity.
  - simpl. auto.
Defined.

Lemma phones_stay_distinct_witness :
  NoDup (map c_phone (contacts (w_db (run_ops Demo.cfg Demo.env
           [OpContactsAdd "Ann B" " +254700000001 " "vip" None;
            OpContactsAdd "Dee" "+254700000004" "" (Some "on")] Demo.world)))).
Proof.
  apply (phones_stay_distinct Demo.cfg Demo.env _ Demo.world).
  - reflexivity.
  - simpl. repeat constructor; simpl; intuition discriminate.
Defined.

(** ** Adding a contact *)

Lemma filter_phone_unique p l :
  NoDup (map c_phone l) ->
  filter (fun c => String.eqb (c_phone c) p) l = [] \/
  exists c, filter (fun c => String.eqb (c_phone c) p) l = [c].
Proof.
  induction l as [|a l IH]; simpl; [auto|].
  intros Hnd. inversion Hnd as [|? ? Hnin Hnd']; subst.
  destruct (String.eqb_spec (c_phone a) p) as [Heq|Hne]; [|auto].
  right. exists a. f_equal.
  destruct (filter (fun c => String.eqb (c_phone c) p) l) as [|b bs] eqn:E; [reflexivity|].
  exfalso. assert (Hb : In b (filter (fun c => String.eqb (c_phone c) p) l))
    by (rewrite E; now left).
  apply filter_In in Hb. destruct Hb as [Hb Hk]. apply String.eqb_eq in Hk.
  apply Hnin. rewrite Heq, <- Hk. now apply in_map.
Qed.

Lemma find_filter {A} (f : A -> bool) l :
  find f l = match filter f l with [] => None | x :: _ => Some x end.
Proof.
  induction l as [|a l IH]; simpl; [reflexivity|]. now destruct (f a).
Qed.

Lemma existsb_filter {A} (f : A -> bool) l :
  existsb f l = match filter f l with [] => false | _ :: _ => true end.
Proof.
  induction l as [|a l IH]; simpl; [reflexivity|]. now destruct (f a).
Qed.

Lemma filter_map_commute {A} (f : A -> bool) (g : A -> A) l :
  (forall a, f (g a) = f a) -> filter f (map g l) = map g (filter f l).
Proof.
  intros H. induction l as [|a l IH]; simpl; [reflexivity|].
  rewrite H. destruct (f a); simpl; now rewrite IH.
Qed.

(** The contact found under [phone] after an upsert. *)
Lemma upsert_lookup name phone tags consented d now :
  NoDup (map c_phone (contacts d)) ->
  exists c,
    filter (fun c => String.eqb (c_phone c) phone)
           (contacts (upsert_contact name phone tags consented d now)) = [c] /\
    c_phone c = phone /\ c_name c = name /\ c_tags c = tags /\
    match find (fun c => String.eqb (c_phone c) phone) (contacts d) with
    | Some c0 => c_id c = c_id c0 /\ c_consented c = Z.max (c_consented c0) consented /\
                 c_opted_out c = c_opted_out c0 /\ c_created_at c = c_created_at c0
    | None => c_id c = new_contact_id d /\ c_consented c = consented /\
              c_opted_out c = 0 /\ c_created_at c = now
    end.
Proof.
  intros Hnd. unfold upsert_contact. simpl.
  rewrite existsb_filter, find_filter.
  destruct (filter_phone_unique phone (contacts d) Hnd) as [E|[c0 E]]; rewrite E.
  - rewrite filter_app, E. simpl. rewrite String.eqb_refl.
    eexists. split; [reflexivity|]. simpl. auto 10.
  - rewrite filter_map_commute, E.
    + assert (Hc0 : In c0 (filter (fun c => String.eqb (c_phone c) phone) (contacts d)))
        by (rewrite E; now left).
      apply filter_In in Hc0. destruct Hc0 as [_ Hp]. simpl. rewrite Hp.
      eexists. split; [reflexivity|]. simpl. apply String.eqb_eq in Hp. auto 10.
    + intros c. now destruct (String.eqb (c_phone c) phone) eqn:Ep; simpl; rewrite Ep.
Qed.

Lemma upsert_others name phone tags consented d now c :
  In c (contacts d) -> c_phone c <> phone ->
  In c (contacts (upsert_contact name phone tags consented d now)).
Proof.
  intros Hc Hp. unfold upsert_contact. simpl.
  destruct (existsb _ (contacts d)).
  - apply in_map_iff. exists c. split; [|assumption].
    destruct (String.eqb_spec (c_phone c) phone); [contradiction | reflexivity].
  - apply in_or_app. now left.
Qed.

Lemma existsb_false_all {A} (f : A -> bool) l :
  existsb f l = false -> forall a, In a l -> f a = false.
Proof.
  intros H a Ha. destruct (f a) eqn:E; [|reflexivity].
  assert (existsb f l = true) by (apply existsb_exists; eauto). congruence.
Qed.

Lemma upsert_twice name phone tags consented d d1 t1 t2 :
  contacts d1 = contacts (upsert_contact name phone tags consented d t1) ->
  contacts (upsert_contact name phone tags consented d1 t2) = contacts d1.
Proof.
  intros H. unfold upsert_contact at 1. cbn [contacts]. rewrite !H.
  unfold upsert_contact. cbn [contacts].
  destruct (existsb (fun c => String.eqb (c_phone c) phone) (contacts d)) eqn:E.
  - assert (Hex : existsb (fun c => String.eqb (c_phone c) phone)
             (map (fun c => if String.eqb (c_phone c) phone
                            then mkContact (c_id c) name (c_phone c)
                                   (Z.max (c_consented c) consented)
                                   (c_opted_out c) tags (c_created_at c)
                            else c) (contacts d)) = true).
    { rewrite existsb_exists in *. destruct E as (c & Hc & Hp).
      eexists. split; [apply in_map; exact Hc|]. rewrite Hp. simpl. exact Hp. }
    rewrite Hex, map_map. apply map_ext. intros c.
    destruct (String.eqb (c_phone c) phone) eqn:Ep; simpl; rewrite Ep; [|reflexivity].
    f_equal. lia.
  - rewrite existsb_app. simpl. rewrite String.eqb_refl, orb_true_r.
    rewrite map_app. simpl. rewrite String.eqb_refl. f_equal.
    + rewrite <- (map_id (contacts d)) at 2. apply map_ext_in. intros c Hc.
      now rewrite (existsb_false_all _ _ E c Hc).
    + f_equal. f_equal. lia.
Qed.

Section ContactsAdd.

Variable env : Env.

(** The consent bit [contacts_add] stores for the form field. *)
Definition consent_bit (consented : option string) : Z :=
  if is_some (truthy_str consented) then 1 else 0.

Lemma contacts_add_contacts name phone tags consented w :
  store_fault env (w_steps w) = None ->
  contacts (w_db (snd (contacts_add env name phone tags consented w)))
    = contacts (upsert_contact (Str.strip name) (Str.strip phone) (Str.strip tags)
                  (consent_bit consented) (w_db w) (clock env (w_steps w))).
Proof.
  intros Hf. unfold contacts_add, bind, sql_exec at 1. rewrite Hf.
  unfold audit, sql_exec. simpl.
  destruct (store_fault env (S (w_steps w))); reflexivity.
Qed.

Lemma contacts_add_seq name phone tags consented w :
  store_fault env (w_steps w) = None ->
  contacts_seq (w_db (snd (contacts_add env name phone tags consented w)))
    = new_contact_id (w_db w).
Proof.
  intros Hf. unfold contacts_add, bind, sql_exec at 1. rewrite Hf.
  unfold audit, sql_exec. simpl.
  destruct (store_fault env (S (w_steps w))); reflexivity.
Qed.

(** Adding a contact and looking it up.  When the insert does not fail, on
    a book with distinct phones: afterwards exactly one contact has the
    stripped phone; it carries the stripped name and tags; if the phone was
    known it keeps its id, creation time and opt-out flag and its consent is
    the larger of the old and the submitted one (consent is never taken
    back, an opted-out contact stays opted out); if the phone was new it
    gets, as its id, the rowid SQLite generated for the statement, one more
    than the larger of the table's sequence value and its largest id, with
    the submitted consent and opted_out = 0.  Every contact with another
    phone is left as it was.  The generated rowid becomes the table's
    sequence value either way, so re-submitting a known phone uses up an
    id. *)
Theorem contacts_add_lookup name phone tags consented w :
  store_fault env (w_steps w) = None ->
  NoDup (map c_phone (contacts (w_db w))) ->
  let p := Str.strip phone in
  let w' := snd (contacts_add env name phone tags consented w) in
  let after := contacts (w_db w') in
  let rowid := 1 + Z.max (contacts_seq (w_db w))
                         (fold_right Z.max 0 (map c_id (contacts (w_db w)))) in
  (exists c,
     filter (fun c => String.eqb (c_phone c) p) after = [c] /\
     c_phone c = p /\ c_name c = Str.strip name /\ c_tags c = Str.strip tags /\
     match find (fun c => String.eqb (c_phone c) p) (contacts (w_db w)) with
     | Some c0 =>
         c_id c = c_id c0 /\
         c_consented c = Z.max (c_consented c0) (consent_bit consented) /\
         c_opted_out c = c_opted_out c0 /\ c_created_at c = c_created_at c0
     | None =>
         c_id c = rowid /\
         c_consented c = consent_bit consented /\
         c_opted_out c = 0 /\ c_created_at c = clock env (w_steps w)
     end) /\
  (forall c, In c (contacts (w_db w)) -> c_phone c <> p -> In c after) /\
  contacts_seq (w_db w') = rowid.
Proof.
  intros Hf Hnd p w' after rowid. subst p w' after rowid.
  rewrite (contacts_add_contacts _ _ _ _ _ Hf), (contacts_add_seq _ _ _ _ _ Hf).
  split; [now apply upsert_lookup|].
  split; [intros c; apply upsert_others | reflexivity].
Qed.

(** Submitting the same contact form twice, the store not failing, leaves
    the contact book as one submission does. *)
Theorem contacts_add_twice name phone tags consented w :
  no_faults env ->
  let w1 := snd (contacts_add env name phone tags consented w) in
  contacts (w_db (snd (contacts_add env name phone tags consented w1)))
    = contacts (w_db w1).
Proof.
  intros Hnf w1. subst w1.
  rewrite (contacts_add_contacts _ _ _ _ _ (Hnf _)).
  set (w1 := snd (contacts_add env name phone tags consented w)).
  assert (Hdb : contacts (w_db w1)
                = contacts (upsert_contact (Str.strip name) (Str.strip phone)
                              (Str.strip tags) (consent_bit consented) (w_db w)
                              (clock env (w_steps w))))
    by (apply contacts_add_contacts, Hnf).
  exact (upsert_twice _ _ _ _ (w_db w) (w_db w1) (clock env (w_steps w))
           (clock env (w_steps w1)) Hdb).
Qed.

End ContactsAdd.

(** Ann is re-submitted, then Bob is added: the upsert of Ann has used up
    id 2, and Bob is stored under id 3. *)
Lemma contacts_add_lookup_witness :
  let w1 := snd (contacts_add Demo.env "Ann" "+254700000001" "vip,gold" None
                   Demo.world4) in
  contacts_seq (w_db w1) = 2 /\
  exists c,
    filter (fun c => String.eqb (c_phone c) "+254700000002")
      (contacts (w_db (snd (contacts_add Demo.env " Bob " " +254700000002" "gold"
                              (Some "on") w1)))) = [c] /\
    c_name c = "Bob" /\ c_id c = 3.
Proof.
  split.
  - exact (proj2 (proj2 (contacts_add_lookup Demo.env "Ann" "+254700000001" "vip,gold"
                           None Demo.world4 eq_refl
                           ltac:(simpl; repeat constructor; simpl; intuition discriminate)))).
  - destruct (proj1 (contacts_add_lookup Demo.env " Bob " " +254700000002" "gold"
                       (Some "on")
                       (snd (contacts_add Demo.env "Ann" "+254700000001" "vip,gold" None
                               Demo.world4))
                       eq_refl
                       ltac:(simpl; repeat constructor; simpl; intuition discriminate)))
      as (c & Hf & _ & Hn & _ & Hrest).
    exists c. split; [exact Hf|]. split; [exact Hn|]. apply Hrest.
Defined.

Lemma contacts_add_twice_witness :
  contacts (w_db (snd (contacts_add Demo.env "Dee" "+254700000004" "" None
                         (snd (contacts_add Demo.env "Dee" "+254700000004" "" None
                                 Demo.world)))))
    = contacts (w_db (snd (contacts_add Demo.env "Dee" "+254700000004" "" None
                             Demo.world))).
Proof.
  apply (contacts_add_twice Demo.env "Dee" "+254700000004" "" None Demo.world).
  intros i. reflexivity.
Defined.

(** ** CSV import *)

Section CsvImport.

Variable env : Env.

(** The upsert the import runs for one row. *)
Definition import_row (row : CsvRow) : DB -> Time -> DB :=
  let phone := Str.strip (or_empty (csv_phone row)) in
  let name := Str.strip (or_empty (csv_name row)) in
  let tags := Str.strip (or_empty (csv_tags row)) in
  let c := Str.lower (Str.strip (or_empty (csv_consented row))) in
  let consented :=
    if String.eqb c "1" || String.eqb c "true" || String.eqb c "yes" ||
       String.eqb c "y" then 1 else 0 in
  upsert_contact name phone tags consented.

Lemma import_unfold rows :
  contacts_import_csv env rows =
  bind (transaction (for_each (fun row => sql_exec env (import_row row))
                              (filter csv_importable rows)))
       (fun _ => audit env "contacts_import_csv"
                   ("count=" ++ Str.of_Z (Z.of_nat (List.length
                                    (filter csv_importable rows))))%string).
Proof. reflexivity. Qed.

(** A loop of statements with a failing statement among them raises. *)
Lemma exec_loop_fault {A} (u : A -> DB -> Time -> DB) l : forall w i,
  (w_steps w <= i < w_steps w + List.length l)%nat -> store_fault env i <> None ->
  exists e w1, for_each (fun x => sql_exec env (u x)) l w = (inr e, w1).
Proof.
  induction l as [|x l IH]; intros w i Hi Hf; simpl in *; [lia|].
  unfold bind, sql_exec at 1.
  destruct (store_fault env (w_steps w)) as [e|] eqn:E; [eauto|].
  apply (IH _ i); simpl; [|assumption].
  assert (i <> w_steps w) by congruence. lia.
Qed.

Lemma upsert_has_phone name phone tags consented d now :
  exists c, In c (contacts (upsert_contact name phone tags consented d now)) /\
            c_phone c = phone.
Proof.
  unfold upsert_contact. simpl.
  destruct (existsb _ (contacts d)) eqn:E.
  - apply existsb_exists in E. destruct E as (c & Hc & Hp).
    eexists. split; [apply in_map; exact Hc|]. rewrite Hp. simpl.
    now apply String.eqb_eq.
  - eexists. split; [apply in_or_app; right; now left | reflexivity].
Qed.

Lemma import_row_keeps row d now c :
  In c (contacts d) ->
  exists c', In c' (contacts (import_row row d now)) /\ c_phone c' = c_phone c.
Proof.
  intros Hc. unfold import_row.
  match goal with |- context [upsert_contact ?n ?p ?t ?k d now] =>
    assert (Hk : k = 0 \/ k = 1) by (destruct (_ || _); auto);
    destruct (book_kept_upsert n p t k d now Hk) as [(old & new & E & Hstep) _]
  end.
  destruct (Forall2_in_l _ _ _ _ Hstep Hc) as (c' & Hc' & _ & Hp & _).
  exists c'. rewrite E. split; [apply in_or_app; now left | exact Hp].
Qed.

(** A loop of import statements none of which fails stores every phone. *)
Lemma import_loop_ok rows : forall w,
  (forall i, (w_steps w <= i < w_steps w + List.length rows)%nat ->
             store_fault env i = None) ->
  exists w1,
    for_each (fun row => sql_exec env (import_row row)) rows w = (inl tt, w1) /\
    messages (w_db w1) = messages (w_db w) /\
    campaigns (w_db w1) = campaigns (w_db w) /\
    (forall c, In c (contacts (w_db w)) ->
               exists c', In c' (contacts (w_db w1)) /\ c_phone c' = c_phone c) /\
    (forall row, In row rows ->
       exists c, In c (contacts (w_db w1)) /\
                 c_phone c = Str.strip (or_empty (csv_phone row))).
Proof.
  induction rows as [|row rows IH]; intros w Hok; simpl.
  - exists w. repeat split; eauto. contradiction.
  - unfold bind, sql_exec at 1. rewrite (Hok (w_steps w)) by (simpl; lia).
    destruct (IH (mkWorld (import_row row (w_db w) (clock env (w_steps w)))
                          (S (w_steps w)) (w_calls w)))
      as (w1 & E & Hm & Hg & Hkeep & Hrows).
    { intros i Hi. apply Hok. simpl in *. lia. }
    simpl in *. exists w1. split; [exact E|].
    split; [rewrite Hm; reflexivity|]. split; [rewrite Hg; reflexivity|]. split.
    + intros c Hc.
      destruct (import_row_keeps row (w_db w) (clock env (w_steps w)) c Hc)
        as (c1 & Hc1 & Hp1).
      destruct (Hkeep c1 Hc1) as (c' & Hc' & Hp'). exists c'. split; congruence.
    + intros r [<-|Hr]; [|now apply Hrows].
      destruct (upsert_has_phone (Str.strip (or_empty (csv_name row)))
                  (Str.strip (or_empty (csv_phone row)))
                  (Str.strip (or_empty (csv_tags row)))
                  (if String.eqb (Str.lower (Str.strip (or_empty (csv_consented row)))) "1"
                      || String.eqb (Str.lower (Str.strip (or_empty (csv_consented row)))) "true"
                      || String.eqb (Str.lower (Str.strip (or_empty (csv_consented row)))) "yes"
                      || String.eqb (Str.lower (Str.strip (or_empty (csv_consented row)))) "y"
                   then 1 else 0)
                  (w_db w) (clock env (w_steps w))) as (c1 & Hc1 & Hp1).
      destruct (Hkeep c1 Hc1) as (c' & Hc' & Hp'). exists c'. split; congruence.
Qed.

(** The CSV import is all or nothing.  Its upserts are committed together:
    if any of them fails, the store is exactly as before and the handler
    raises; if none fails, every row that has a phone is in the contact
    book afterwards, under its stripped phone, and messages and campaigns
    are untouched. *)
Theorem csv_import_all_or_nothing (rows : list CsvRow) (w : World) :
  let n := List.length (filter csv_importable rows) in
  let w' := snd (contacts_import_csv env rows w) in
  (forall i, (w_steps w <= i < w_steps w + n)%nat -> store_fault env i <> None ->
     w_db w' = w_db w /\ exists e, fst (contacts_import_csv env rows w) = inr e) /\
  ((forall i, (w_steps w <= i < w_steps w + n)%nat -> store_fault env i = None) ->
     messages (w_db w') = messages (w_db w) /\
     campaigns (w_db w') = campaigns (w_db w) /\
     forall row, In row rows -> csv_importable row = true ->
       exists c, In c (contacts (w_db w')) /\
                 c_phone c = Str.strip (or_empty (csv_phone row))).
Proof.
  simpl. rewrite import_unfold. unfold bind, transaction. split.
  - intros i Hi Hf.
    destruct (exec_loop_fault import_row _ w i Hi Hf) as (e & w1 & E).
    rewrite E. simpl. split; [reflexivity | eauto].
  - intros Hok.
    destruct (import_loop_ok (filter csv_importable rows) w Hok)
      as (w1 & E & Hm & Hg & _ & Hrows).
    rewrite E. unfold audit, sql_exec.
    destruct (store_fault env (w_steps w1)); simpl;
      (split; [exact Hm|]; split; [exact Hg|];
       intros row Hr Hi; apply Hrows; apply filter_In; auto).
Qed.

End CsvImport.

Lemma csv_import_all_or_nothing_witness :
  w_db (snd (contacts_import_csv Demo.env_locked
               [mkCsvRow (Some "+254700000009") (Some "Ida") (Some "yes") None;
                mkCsvRow (Some "+254700000010") (Some "Jo") (Some "1") None]
               Demo.world)) = Demo.store.
Proof.
  apply (proj1 (csv_import_all_or_nothing Demo.env_locked _ Demo.world) 1%nat).
  - simpl. lia.
  - discriminate.
Defined.

(** * More of [app.py]: campaigns *)

Section ActivationEffect.

Variable cfg : Config.
Variable env : Env.

(** What the insert loop of an activation leaves, however it ends. *)
Lemma enqueue_loop_result campaign_id camp recipients : forall w res w1,
  for_each (fun c => sql_exec env (insert_message campaign_id (c_id c) (c_phone c)
                                     (message_body cfg camp c))) recipients w
    = (res, w1) ->
  contacts (w_db w1) = contacts (w_db w) /\
  campaigns (w_db w1) = campaigns (w_db w) /\
  audit_log (w_db w1) = audit_log (w_db w) /\
  exists new, messages (w_db w1) = messages (w_db w) ++ new /\
              (res = inl tt -> Forall2 (queued_for cfg campaign_id camp) recipients new).
Proof.
  induction recipients as [|c cs IH]; intros w res w1; simpl.
  - intros E. inversion E; subst. repeat split; auto.
    exists []. rewrite app_nil_r. split; [reflexivity | constructor].
  - unfold bind, sql_exec at 1.
    destruct (store_fault env (w_steps w)) as [e|].
    + intros E. inversion E; subst. simpl. repeat split; auto.
      exists []. rewrite app_nil_r. split; [reflexivity | discriminate].
    + intros E. apply IH in E. simpl in E.
      destruct E as (Hc & Hg & Ha & new & Hm & Hnew).
      repeat split; auto. eexists (_ :: new). rewrite Hm, <- app_assoc.
      split; [reflexivity|]. intros Hres. constructor; [|now apply Hnew].
      unfold queued_for; simpl. repeat split.
Qed.

(** The store after an activation, whatever the store and its failures:
    the tables are as before, or the campaign has its new start time and
    one message per recipient. *)
Definition activated (campaign_id : Z) (w w' : World) : Prop :=
  exists camp new,
    find (fun c => g_id c =? campaign_id) (campaigns (w_db w)) = Some camp /\
    Forall2 (queued_for cfg campaign_id camp)
            (select_recipients (Str.strip (g_target_tag camp)) (w_db w)) new /\
    messages (w_db w') = messages (w_db w) ++ new /\
    campaigns (w_db w')
      = map (fun c => if g_id c =? campaign_id
                      then set_started (clock env (S (S (w_steps w)))) c else c)
            (campaigns (w_db w)).

Lemma campaigns_start_cases campaign_id w :
  exists res w',
    campaigns_start cfg env campaign_id w = (res, w') /\
    contacts (w_db w') = contacts (w_db w) /\
    ((messages (w_db w') = messages (w_db w) /\
      campaigns (w_db w') = campaigns (w_db w) /\
      audit_log (w_db w') = audit_log (w_db w) /\
      exists e, res = inr e) \/
     activated campaign_id w w').
Proof.
  destruct (fits_int64 campaign_id) eqn:Hfit;
    [|rewrite (campaigns_start_overflow cfg env _ _ Hfit);
      eexists _, _; split; [reflexivity|]; simpl; split; eauto 8].
  unfold campaigns_start, transaction.
  unfold bind at 1. unfold bind at 1. unfold bind_int. rewrite Hfit. unfold ret at 1.
  unfold bind at 1. unfold sql_query at 1.
  destruct (store_fault env (w_steps w)) as [e|];
    [eexists _, _; split; [reflexivity|]; simpl; split; eauto 8|].
  destruct (find (fun c => g_id c =? campaign_id) (campaigns (w_db w)))
    as [camp|] eqn:Hfind;
    [|eexists _, _; split; [reflexivity|]; simpl; split; eauto 8].
  unfold bind at 1. unfold sql_query at 1.
  change (w_steps (next_step w)) with (S (w_steps w)).
  change (w_db (next_step w)) with (w_db w).
  destruct (store_fault env (S (w_steps w))) as [e|];
    [eexists _, _; split; [reflexivity|]; simpl; split; eauto 8|].
  unfold bind at 1. unfold sql_exec at 1.
  change (w_steps (next_step (next_step w))) with (S (S (w_steps w))).
  change (w_db (next_step (next_step w))) with (w_db w).
  change (w_calls (next_step (next_step w))) with (w_calls w).
  destruct (store_fault env (S (S (w_steps w)))) as [e|];
    [eexists _, _; split; [reflexivity|]; simpl; split; eauto 8|].
  unfold bind at 1.
  destruct (for_each _ (select_recipients (Str.strip (g_target_tag camp)) (w_db w)) _)
    as [res w1] eqn:E.
  apply enqueue_loop_result in E. simpl in E.
  destruct E as (Hc & Hg & Ha & new & Hm & Hnew).
  destruct res as [[]|e];
    [|eexists _, _; split; [reflexivity|]; simpl; split; eauto 8].
  unfold ret, audit, sql_exec.
  destruct (store_fault env (w_steps w1));
    (eexists _, _; split; [reflexivity|]; simpl; split; [exact Hc|];
     right; exists camp, new; repeat split; auto).
Qed.

Lemma campaigns_start_effect campaign_id w :
  let w' := snd (campaigns_start cfg env campaign_id w) in
  contacts (w_db w') = contacts (w_db w) /\
  ((messages (w_db w') = messages (w_db w) /\
    campaigns (w_db w') = campaigns (w_db w) /\
    audit_log (w_db w') = audit_log (w_db w) /\
    exists e, fst (campaigns_start cfg env campaign_id w) = inr e) \/
   activated campaign_id w w').
Proof.
  destruct (campaigns_start_cases campaign_id w) as (res & w' & E & H).
  rewrite E. exact H.
Qed.

(** Activation is all or nothing: whatever fails and wherever, afterwards
    either no table but possibly the audit log has changed and the handler
    has raised, or the campaign carries the new start time and exactly one
    queued message per selected recipient has been appended.  There is never
    a started campaign with part of its messages.  Contacts are never
    touched. *)
Theorem activation_all_or_nothing (campaign_id : Z) (w : World) :
  let w' := snd (campaigns_start cfg env campaign_id w) in
  contacts (w_db w') = contacts (w_db w) /\
  ((messages (w_db w') = messages (w_db w) /\
    campaigns (w_db w') = campaigns (w_db w) /\
    audit_log (w_db w') = audit_log (w_db w) /\
    exists e, fst (campaigns_start cfg env campaign_id w) = inr e) \/
   activated campaign_id w w').
Proof. apply campaigns_start_effect. Qed.

Lemma select_recipients_eligible tag d c :
  In c (select_recipients tag d) -> In c (contacts d) /\ eligible c = true.
Proof.
  unfold select_recipients. destruct (negb (String.eqb tag "")); intros H;
    apply filter_In in H; destruct H as [Hc He]; split; auto.
  apply andb_true_iff in He. tauto.
Qed.

(** Activation never queues a message for a contact that has not consented
    or has opted out, whatever the target tag (wildcards included) and
    whatever fails: every message it appends is queued, addressed to the
    phone of a stored contact with consented = 1 and opted_out = 0, and
    belongs to the activated campaign. *)
Theorem activation_targets_eligible (campaign_id : Z) (w : World) :
  exists new,
    messages (w_db (snd (campaigns_start cfg env campaign_id w)))
      = messages (w_db w) ++ new /\
    Forall (fun m =>
              m_status m = queued /\ m_campaign_id m = campaign_id /\
              exists c, In c (contacts (w_db w)) /\
                        c_consented c = 1 /\ c_opted_out c = 0 /\
                        m_contact_id m = c_id c /\ m_to_phone m = c_phone c) new.
Proof.
  destruct (campaigns_start_effect campaign_id w)
    as (_ & [(Hm & _)|(camp & new & _ & Hnew & Hm & _)]).
  - exists []. rewrite app_nil_r. split; [exact Hm | constructor].
  - exists new. split; [exact Hm|].
    apply Forall_forall. intros m Hin.
    destruct (Forall2_in_r _ _ _ _ Hnew Hin) as (c & Hc & Hq).
    destruct Hq as (H1 & H2 & H3 & _ & H5 & _).
    apply select_recipients_eligible in Hc. destruct Hc as [Hc He].
    unfold eligible in He. rewrite andb_true_iff, !Z.eqb_eq in He.
    split; [exact H5|]. split; [exact H1|]. exists c. tauto.
Qed.

End ActivationEffect.

Section CreateAndStart.

Variable cfg : Config.
Variable env : Env.

Lemma fold_max_from b l :
  0 <= b -> fold_right Z.max b l = Z.max (fold_right Z.max 0 l) b.
Proof. intros Hb. induction l as [|x l IH]; simpl; [lia | rewrite IH; lia]. Qed.

Lemma fold_max_nonneg l : 0 <= fold_right Z.max 0 l.
Proof. induction l; simpl; lia. Qed.

Lemma fold_max_snoc_next ids :
  fold_right Z.max 0 (ids ++ [next_rowid ids]) = next_rowid ids.
Proof.
  rewrite fold_right_app. simpl. pose proof (fold_max_nonneg ids).
  rewrite fold_max_from by (unfold next_rowid; lia). unfold next_rowid. lia.
Qed.

Lemma find_snoc_fresh (l : list Campaign) new :
  ~ In (g_id new) (map g_id l) ->
  find (fun c => g_id c =? g_id new) (l ++ [new]) = Some new.
Proof.
  induction l as [|c l IH]; simpl; intros H.
  - now rewrite Z.eqb_refl.
  - destruct (Z.eqb_spec (g_id c) (g_id new)) as [E|_]; [tauto|]. apply IH. tauto.
Qed.

Lemma campaigns_create_run name tpl tag w :
  no_faults env ->
  let id := next_rowid (map g_id (campaigns (w_db w))) in
  campaigns_create env name tpl tag w
    = (inl tt,
       mkWorld (mkDB (contacts (w_db w))
                     (campaigns (w_db w) ++
                      [mkCampaign id (Str.strip name) (Str.strip tpl) (Str.strip tag)
                                  (clock env (w_steps w)) None None])
                     (messages (w_db w))
                     (audit_log (w_db w) ++
                      [("campaign_created", ("id=" ++ Str.of_Z id)%string)])
                     (contacts_seq (w_db w)))
               (S (S (w_steps w))) (w_calls w)).
Proof.
  intros Hnf. simpl. unfold campaigns_create.
  unfold bind at 1. unfold sql_exec at 1. rewrite (Hnf (w_steps w)).
  unfold bind at 1. unfold lastrowid at 1. cbn [w_db campaigns insert_campaign].
  rewrite map_app. cbn [map g_id]. rewrite fold_max_snoc_next.
  unfold audit, sql_exec. cbn [w_steps]. rewrite (Hnf (S (w_steps w))). reflexivity.
Qed.


Lemma find_map_started id t cs camp :
  find (fun c => g_id c =? id) cs = Some camp ->
  find (fun c => g_id c =? id)
       (map (fun c => if g_id c =? id then set_started t c else c) cs)
    = Some (set_started t camp).
Proof.
  induction cs as [|c cs IH]; simpl; [discriminate|].
  destruct (g_id c =? id) eqn:E; simpl; rewrite E.
  - intros H. now inversion H.
  - exact IH.
Qed.


End CreateAndStart.



(** * More of [app.py]: the tick and the provider *)

Section TickMore.

Variable cfg : Config.
Variable env : Env.

Lemma subseq_length {A} (sub l : list A) :
  subseq sub l -> (List.length sub <= List.length l)%nat.
Proof. induction 1; simpl; lia. Qed.

Lemma subseq_NoDup {A} (sub l : list A) : subseq sub l -> NoDup l -> NoDup sub.
Proof.
  induction 1 as [|x sub l _ IH|x sub l Hs IH]; intros Hnd.
  - constructor.
  - inversion Hnd; auto.
  - inversion Hnd as [|? ? Hnin Hnd']; subst. constructor; [|auto].
    intros Hin. apply Hnin. clear - Hs Hin.
    induction Hs; simpl in *; [contradiction | auto | destruct Hin; auto].
Qed.

(** The provider calls of one tick: at most SEND_PER_SECOND of them, hence
    at most 30 however the rate is configured, no two for the same message,
    each for a message that the store held as queued when the tick began,
    whose contact passed the consent gate, and each carrying the phone and
    body stored with that message. *)
Theorem tick_provider_calls (w : World) :
  db_wf (w_db w) = true ->
  exists cs,
    w_calls (snd (process_queue_tick cfg env w)) = w_calls w ++ cs /\
    (Z.of_nat (List.length cs) <= SEND_PER_SECOND cfg <= 30) /\
    NoDup (map call_msg cs) /\
    Forall (fun call =>
              exists m c,
                In m (messages (w_db w)) /\ m_status m = queued /\
                m_id m = call_msg call /\ m_to_phone m = call_to call /\
                m_body m = call_body call /\
                In c (contacts (w_db w)) /\ c_id c = m_contact_id m /\
                c_consented c = 1 /\ c_opted_out c <> 1) cs.
Proof.
  intros Hwf. pose proof (rate_limit_range cfg) as Hrange.
  destruct (store_fault env (w_steps w)) as [e|] eqn:Hf.
  - rewrite (tick_select_fault cfg env w e Hf). exists []. simpl.
    rewrite app_nil_r. repeat split; try constructor; lia.
  - destruct (tick_loop cfg env w Hf) as [_ ->]. unfold after_loop.
    destruct (rows_loop_calls cfg env (batch_of cfg w) (next_step w))
      as (cs & E & Hsub & Hall).
    exists cs. split; [exact E|].
    pose proof (select_queued_length (SEND_PER_SECOND cfg) (w_db w)) as Hlen.
    pose proof (subseq_length _ _ Hsub) as Hl. rewrite !length_map in Hl.
    fold (batch_of cfg w) in Hlen.
    split; [lia|]. split.
    + eapply subseq_NoDup; [exact Hsub|]. now apply select_queued_NoDup.
    + eapply Forall_impl; [|exact Hall]. intros call (r & Hr & -> & Hg).
      apply select_queued_in in Hr.
      destruct Hr as (Hm & Hq & c & Hc & Hid & H1 & H2).
      exists (r_msg r), c. unfold gate_passes in Hg. rewrite H1, H2 in Hg.
      simpl. tauto.
Qed.

End TickMore.

Lemma tick_provider_calls_witness :
  exists cs,
    w_calls (snd (process_queue_tick Demo.cfg Demo.env Demo.world)) = [] ++ cs /\
    (Z.of_nat (List.length cs) <= 2 <= 30) /\
    NoDup (map call_msg cs) /\
    Forall (fun call =>
              exists m c,
                In m (messages Demo.store) /\ m_status m = queued /\
                m_id m = call_msg call /\ m_to_phone m = call_to call /\
                m_body m = call_body call /\
                In c (contacts Demo.store) /\ c_id c = m_contact_id m /\
                c_consented c = 1 /\ c_opted_out c <> 1) cs.
Proof.
  apply (tick_provider_calls Demo.cfg Demo.env Demo.world). reflexivity.
Defined.

Section Provider.

Variable cfg : Config.
Variable env : Env.

Lemma of_Z_nonempty z : Str.of_Z z <> EmptyString.
Proof.
  unfold Str.of_Z, NilZero.string_of_int.
  destruct (Z.to_int z) as [d|d]; [|discriminate].
  unfold NilZero.string_of_uint. destruct d; simpl; discriminate.
Qed.

Definition not_configured : string :=
  "Africa's Talking not configured. Set AT_API_KEY in .env".

Lemma send_no_key mid to body w :
  AT_API_KEY cfg = EmptyString ->
  send_sms_africastalking cfg env mid to body w
    = (inr (Exception not_configured), next_step w).
Proof. intros H. unfold send_sms_africastalking. now rewrite H. Qed.

(** What [send_sms_africastalking] hands back.  Without an API key it
    raises the configuration error and the SDK is not called.  With one, the
    SDK's answer decides: an exception of the SDK is raised on with its
    text; a first recipient entry whose status is not 'success' (in any
    case) raises 'AT send failed: status (code)'; an answer without a
    recipient entry counts as sent, under the made-up reference
    'at_' + time.  A reference that is returned is never the empty string,
    and is only returned by a call that was made and logged. *)
Theorem send_sms_answers mid to body w :
  let i := w_steps w in
  let answer := fst (send_sms_africastalking cfg env mid to body w) in
  let w' := snd (send_sms_africastalking cfg env mid to body w) in
  w_db w' = w_db w /\
  (AT_API_KEY cfg = EmptyString ->
   answer = inr (Exception not_configured) /\ w_calls w' = w_calls w) /\
  (AT_API_KEY cfg <> EmptyString ->
   w_calls w' = w_calls w ++ [mkCall mid to body] /\
   (forall t, sms_send env i to body = SdkRaises t -> answer = inr (Exception t)) /\
   (sms_send env i to body = SdkResponse None ->
    answer = inl ("at_" ++ Str.of_Z (clock env i))%string) /\
   (forall rec,
      sms_send env i to body = SdkResponse (Some rec) ->
      Str.lower (or_empty (at_status rec)) <> "success"%string ->
      answer = inr (Exception
                      ("AT send failed: " ++ py_opt (at_status rec) ++ " (" ++
                       match at_statusCode rec with
                       | Some c => Str.of_Z c
                       | None => "None"
                       end ++ ")")%string)) /\
   (forall rec m,
      sms_send env i to body = SdkResponse (Some rec) ->
      Str.lower (or_empty (at_status rec)) = "success"%string ->
      truthy_str (at_messageId rec) = Some m -> answer = inl m)) /\
  (forall p, answer = inl p ->
     p <> EmptyString /\ AT_API_KEY cfg <> EmptyString /\
     w_calls w' = w_calls w ++ [mkCall mid to body]).
Proof.
  simpl. unfold send_sms_africastalking, or_empty.
  destruct (String.eqb_spec (AT_API_KEY cfg) "") as [Hk|Hk].
  - simpl. split; [reflexivity|]. split; [auto|]. split; [contradiction|].
    intros p Hp. discriminate.
  - split; [now destruct (sms_send env (w_steps w) to body) as [t|[rec|]];
                 try destruct (negb _)|].
    split; [contradiction|].
    assert (Hat : ("at_" ++ Str.of_Z (clock env (w_steps w)))%string <> EmptyString)
      by discriminate.
    split; [intros _|].
    + split; [now destruct (sms_send env (w_steps w) to body) as [t|[rec|]];
                   try destruct (negb _)|].
      split; [intros t ->; reflexivity|]. split; [intros ->; reflexivity|]. split.
      * intros rec -> Hs.
        destruct (String.eqb_spec
                    (Str.lower match truthy_str (at_status rec) with
                               | Some s => s | None => ""%string end) "success");
          [contradiction | reflexivity].
      * intros rec m -> Hs Hm. rewrite Hs, Hm. reflexivity.
    + intros p Hp. split; [|split; [exact Hk|]].
      * destruct (sms_send env (w_steps w) to body) as [t|[rec|]]; simpl in Hp.
        -- discriminate.
        -- destruct (negb _); simpl in Hp; [discriminate|].
           inversion Hp; subst. clear Hp.
           destruct (truthy_str (at_messageId rec)) as [m|] eqn:Em.
           ++ destruct (at_messageId rec) as [[|a s]|]; simpl in Em;
                inversion Em; discriminate.
           ++ destruct (at_statusCode rec) as [c|]; [|exact Hat].
              destruct (c =? 0); [exact Hat | apply of_Z_nonempty].
        -- inversion Hp; subst. exact Hat.
      * destruct (sms_send env (w_steps w) to body) as [t|[rec|]]; simpl in *;
          try discriminate; try reflexivity.
        destruct (negb _); simpl in *; [discriminate | reflexivity].
Qed.

Lemma process_message_no_key_calls r w :
  AT_API_KEY cfg = EmptyString ->
  w_calls (snd (process_message cfg env r w)) = w_calls w.
Proof.
  intros Hk. unfold process_message, bind, try_except, count_sent_today,
    sql_query, sql_exec, next_step.
  destruct (negb (r_consented r =? 1) || (r_opted_out r =? 1)).
  - destruct (store_fault env (w_steps w)); reflexivity.
  - destruct (store_fault env (w_steps w)); [reflexivity|]. simpl.
    destruct (MAX_DAILY_PER_CONTACT cfg <=? _); simpl.
    + destruct (store_fault env (S (w_steps w))); reflexivity.
    + destruct (store_fault env (S (w_steps w))); [reflexivity|]. simpl.
      rewrite (send_no_key _ _ _ _ Hk). simpl.
      destruct (store_fault env (S (S (S (w_steps w))))); reflexivity.
Qed.

Lemma rows_loop_no_key_calls rows : forall w,
  AT_API_KEY cfg = EmptyString ->
  w_calls (snd (for_each (process_message cfg env) rows w)) = w_calls w.
Proof.
  induction rows as [|r rows IH]; intros w Hk; simpl; [reflexivity|].
  unfold bind. pose proof (process_message_no_key_calls r w Hk) as H.
  destruct (process_message cfg env r w) as [[[]|e] w1]; simpl in *; [|exact H].
  now rewrite IH.
Qed.

(** Running without an API key.  The dashboard works, but a tick (the store
    not failing) never reaches the provider, and every message it selects is
    used up: it ends [skipped], or [failed] with the configuration error as
    its error text, and is never tried again. *)
Theorem tick_without_api_key (w : World) :
  AT_API_KEY cfg = EmptyString -> db_wf (w_db w) = true -> no_faults env ->
  let w' := snd (process_queue_tick cfg env w) in
  w_calls w' = w_calls w /\
  forall r, In r (batch_of cfg w) ->
    exists m', In m' (messages (w_db w')) /\ m_id m' = rid r /\
               (m_status m' = skipped \/
                (m_status m' = failed /\ m_error m' = Some not_configured)).
Proof.
  intros Hk Hwf Hnf. simpl.
  destruct (tick_loop cfg env w (Hnf _)) as [-> ->]. unfold after_loop.
  split; [now rewrite rows_loop_no_key_calls|].
  destruct (rows_loop_complete cfg env (batch_of cfg w) (next_step w) Hnf
              (select_queued_ready _ _ Hwf)) as [_ Hrows].
  intros r Hr.
  destruct (Hrows r Hr) as (x & o & cs & k & Hrun & _ & _ & _ & _ & Hin).
  exists (apply_outcome o (r_msg r)). split; [exact Hin|].
  split; [apply apply_outcome_id|].
  destruct (row_run_no_faults _ _ _ _ _ _ _ _ Hnf Hrun)
    as [_ [(_ & -> & _)|[(_ & -> & _)|(_ & _ & [(p & Hp & _)|(e & He & ->)])]]];
    simpl; auto.
  - rewrite (send_no_key _ _ _ _ Hk) in Hp. discriminate.
  - rewrite (send_no_key _ _ _ _ Hk) in He. simpl in He. inversion He; subst.
    right. auto.
Qed.

End Provider.

Lemma tick_without_api_key_witness :
  w_calls (snd (process_queue_tick (mkConfig 2 1 "" "http://127.0.0.1:8000") Demo.env
                  Demo.world)) = [] /\
  In (set_failed not_configured (set_sending Demo.m_ann))
     (messages (w_db (snd (process_queue_tick
                             (mkConfig 2 1 "" "http://127.0.0.1:8000") Demo.env
                             Demo.world)))).
Proof.
  split.
  - apply (tick_without_api_key (mkConfig 2 1 "" "http://127.0.0.1:8000") Demo.env
             Demo.world eq_refl eq_refl (fun _ => eq_refl)).
  - vm_compute. auto.
Defined.

Lemma send_sms_answers_witness :
  fst (send_sms_africastalking Demo.cfg
         (mkEnv (fun _ => 7) (fun _ _ _ => SdkResponse None) (fun _ => None))
         3 "+254700000001" "Hi" Demo.world) = inl "at_7"%string.
Proof.
  refine (proj1 (proj2 (proj2 (proj1 (proj2 (proj2
            (send_sms_answers Demo.cfg
               (mkEnv (fun _ => 7) (fun _ _ _ => SdkResponse None) (fun _ => None))
               3 "+254700000001" "Hi" Demo.world))) _))) eq_refl).
  discriminate.
Defined.

(** ** Opting out, then the next tick *)

Section OptOutThenTick.

Variable cfg : Config.
Variable env : Env.

Lemma tick_skips_gated w r :
  db_wf (w_db w) = true -> no_faults env ->
  In r (batch_of cfg w) -> ~ gate_passes r ->
  let w' := snd (process_queue_tick cfg env w) in
  In (set_skipped "no consent or opted out" (r_msg r)) (messages (w_db w')) /\
  forall call, In call (w_calls w') -> call_msg call = rid r -> In call (w_calls w).
Proof.
  intros Hwf Hnf Hr Hgate. simpl.
  pose proof (select_queued_ready (SEND_PER_SECOND cfg) (w_db w) Hwf) as Hready.
  destruct (tick_loop cfg env w (Hnf _)) as [-> ->]. unfold after_loop. split.
  - destruct (rows_loop_complete cfg env (batch_of cfg w) (next_step w) Hnf Hready)
      as [_ Hrows].
    destruct (Hrows r Hr) as (x & o & cs & k & Hrun & _ & _ & _ & _ & Hin).
    destruct (row_run_no_faults _ _ _ _ _ _ _ _ Hnf Hrun)
      as [_ [(_ & -> & _)|[(Hg & _)|(Hg & _)]]]; try contradiction.
    exact Hin.
  - intros call Hcall Hmsg.
    destruct (rows_loop_calls cfg env (batch_of cfg w) (next_step w)) as (cs & E & _ & Hall).
    rewrite E in Hcall. simpl in Hcall. apply in_app_or in Hcall.
    destruct Hcall as [Hold|Hnew]; [assumption|].
    rewrite Forall_forall in Hall. destruct (Hall call Hnew) as (r0 & Hr0 & -> & Hg0).
    simpl in Hmsg.
    assert (r0 = r).
    { eapply NoDup_map_inj; [apply Hready | | | exact Hmsg]; assumption. }
    subst r0. contradiction.
Qed.

(** The store after [contact_optout] or [unsubscribe] whose UPDATE did not
    fail: the selected contacts opted out, the audit log aside. *)
Lemma opt_out_contacts (sel : Contact -> bool) action meta w :
  store_fault env (w_steps w) = None ->
  let w1 := snd (bind (sql_exec env (fun d _ => update_contacts sel set_opted_out d))
                      (fun _ => audit env action meta) w) in
  contacts (w_db w1) = map (fun c => if sel c then set_opted_out c else c)
                           (contacts (w_db w)) /\
  messages (w_db w1) = messages (w_db w) /\
  campaigns (w_db w1) = campaigns (w_db w).
Proof.
  intros Hf. simpl. unfold bind, audit, sql_exec. rewrite Hf. simpl.
  destruct (store_fault env (S (w_steps w))); simpl; repeat split; reflexivity.
Qed.

Lemma opted_out_rows_fail (sel : Contact -> bool) (w w1 : World) (r : Row)
    (c : Contact) :
  db_wf (w_db w) = true ->
  contacts (w_db w1) = map (fun c => if sel c then set_opted_out c else c)
                           (contacts (w_db w)) ->
  In r (batch_of cfg w1) -> In c (contacts (w_db w)) -> sel c = true ->
  c_id c = m_contact_id (r_msg r) -> ~ gate_passes r.
Proof.
  intros Hwf Hcs Hr Hc Hsel Hid [_ Hgate]. apply Hgate.
  apply select_queued_in in Hr. destruct Hr as (_ & _ & c1 & Hc1 & Hid1 & _ & ->).
  rewrite Hcs in Hc1. apply in_map_iff in Hc1. destruct Hc1 as (c0 & <- & Hc0).
  assert (c0 = c).
  { eapply NoDup_map_inj; [apply db_wf_contacts, Hwf | | | ]; try eassumption.
    destruct (sel c0); simpl in Hid1; congruence. }
  subst c0. now rewrite Hsel.
Qed.

Lemma contact_optout_fits contact_id w :
  fits_int64 contact_id = true ->
  contact_optout env contact_id w
    = bind (sql_exec env (fun d _ =>
              update_contacts (fun c => c_id c =? contact_id) set_opted_out d))
           (fun _ => audit env "contact_optout_admin" (Str.of_Z contact_id)) w.
Proof.
  intros Hfit. unfold contact_optout. unfold bind at 1. unfold bind_int.
  now rewrite Hfit.
Qed.

(** Opting out takes effect at the next tick.  After the public
    [unsubscribe] of a phone, or the admin's [contact_optout] of an id
    (within 64 bits), on a well-formed store that does not fail: messages
    are as before, and the next tick leaves every message it selects for
    such a contact with status [skipped] and error 'no consent or opted
    out', its other columns as they were, without a provider call for
    it. *)
Theorem opt_out_then_tick (w : World) :
  db_wf (w_db w) = true -> no_faults env ->
  (forall phone r c,
     let w1 := snd (unsubscribe env phone w) in
     let w2 := snd (process_queue_tick cfg env w1) in
     let m := r_msg r in
     In r (batch_of cfg w1) -> In c (contacts (w_db w)) ->
     c_phone c = phone -> c_id c = m_contact_id m ->
     messages (w_db w1) = messages (w_db w) /\
     In (mkMessage (m_id m) (m_campaign_id m) (m_contact_id m) (m_to_phone m)
                   (m_body m) skipped (m_provider_id m)
                   (Some "no consent or opted out") (m_created_at m) (m_sent_at m))
        (messages (w_db w2)) /\
     forall call, In call (w_calls w2) -> call_msg call = m_id m ->
                  In call (w_calls w1)) /\
  (forall contact_id r c,
     let w1 := snd (contact_optout env contact_id w) in
     let w2 := snd (process_queue_tick cfg env w1) in
     let m := r_msg r in
     fits_int64 contact_id = true ->
     In r (batch_of cfg w1) -> In c (contacts (w_db w)) ->
     c_id c = contact_id -> c_id c = m_contact_id m ->
     messages (w_db w1) = messages (w_db w) /\
     In (mkMessage (m_id m) (m_campaign_id m) (m_contact_id m) (m_to_phone m)
                   (m_body m) skipped (m_provider_id m)
                   (Some "no consent or opted out") (m_created_at m) (m_sent_at m))
        (messages (w_db w2)) /\
     forall call, In call (w_calls w2) -> call_msg call = m_id m ->
                  In call (w_calls w1)).
Proof.
  intros Hwf Hnf. split.
  - intros phone r c w1 w2 m Hr Hc Hp Hid. subst w2 m.
    destruct (opt_out_contacts (fun c => String.eqb (c_phone c) phone)
                "contact_optout_public" phone w (Hnf _)) as (Hcs & Hm & _).
    fold (unsubscribe env phone) in Hcs, Hm. fold w1 in Hcs, Hm.
    split; [exact Hm|].
    apply (tick_skips_gated w1 r); auto.
    + apply (quietly_unsubscribe env phone w), Hwf.
    + apply (opted_out_rows_fail (fun c => String.eqb (c_phone c) phone) w w1 r c
               Hwf Hcs Hr Hc); [now apply String.eqb_eq | exact Hid].
  - intros contact_id r c w1 w2 m Hfit Hr Hc Hp Hid. subst w2 m.
    destruct (opt_out_contacts (fun c => c_id c =? contact_id)
                "contact_optout_admin" (Str.of_Z contact_id) w (Hnf _)) as (Hcs & Hm & _).
    rewrite <- (contact_optout_fits contact_id w Hfit) in Hcs, Hm. fold w1 in Hcs, Hm.
    split; [exact Hm|].
    apply (tick_skips_gated w1 r); auto.
    + apply (quietly_contact_optout env contact_id w), Hwf.
    + apply (opted_out_rows_fail (fun c => c_id c =? contact_id) w w1 r c
               Hwf Hcs Hr Hc); [now apply Z.eqb_eq | exact Hid].
Qed.

End OptOutThenTick.

Lemma opt_out_then_tick_witness :
  In (mkMessage 3 1 1 "+254700000001" "Hi" skipped None
                (Some "no consent or opted out") 31 None)
     (messages (w_db (snd (process_queue_tick Demo.cfg Demo.env
                             (snd (unsubscribe Demo.env "+254700000001" Demo.world)))))).
Proof.
  refine (proj1 (proj2 (proj1 (opt_out_then_tick Demo.cfg Demo.env Demo.world eq_refl
                                 (fun _ => eq_refl))
                          "+254700000001" (mkRow Demo.m_ann 1 1) Demo.ann _ _ eq_refl
                          eq_refl))).
  - vm_compute. auto.
  - simpl. auto.
Defined.

(** ** Draining the queue *)

Definition queued_count (d : DB) : nat := List.length (filter is_queued (messages d)).

(** Every message points at a stored contact (the foreign key of the
    schema; contacts are never deleted). *)
Definition refs_ok (d : DB) : Prop :=
  forall m, In m (messages d) -> exists c, In c (contacts d) /\ c_id c = m_contact_id m.

Definition inb (x : Z) (l : list Z) : bool := existsb (Z.eqb x) l.

Lemma inb_In x l : inb x l = true <-> In x l.
Proof.
  unfold inb. rewrite existsb_exists. split.
  - intros (y & Hy & E). apply Z.eqb_eq in E. now subst.
  - intros H. exists x. split; [assumption | apply Z.eqb_refl].
Qed.

Lemma filter_split_length {A} (f g : A -> bool) l :
  List.length (filter f l)
    = (List.length (filter (fun a => f a && g a) l) +
       List.length (filter (fun a => f a && negb (g a)) l))%nat.
Proof.
  induction l as [|a l IH]; simpl; [reflexivity|].
  destruct (f a), (g a); simpl; lia.
Qed.

Lemma Forall2_filter_length {A} (f g : A -> bool) l l' :
  Forall2 (fun a a' => g a' = f a) l l' ->
  List.length (filter g l') = List.length (filter f l).
Proof.
  induction 1 as [|a a' l l' H _ IH]; simpl; [reflexivity|].
  rewrite H. destruct (f a); simpl; now rewrite IH.
Qed.

Lemma Forall2_with_in_r {A B} (R : A -> B -> Prop) l l' :
  Forall2 R l l' -> Forall2 (fun a b => In b l' /\ R a b) l l'.
Proof.
  induction 1 as [|a b l l' Hab _ IH]; constructor.
  - split; [now left | assumption].
  - eapply Forall2_impl; [|exact IH]. intros x y [H1 H2]. split; [now right | assumption].
Qed.

Lemma selected_count (ms : list Message) (B : list Z) :
  NoDup (map m_id ms) -> NoDup B ->
  (forall b, In b B -> exists m, In m ms /\ m_id m = b /\ is_queued m = true) ->
  List.length (filter (fun m => is_queued m && inb (m_id m) B) ms) = List.length B.
Proof.
  intros Hms HB Hsel.
  rewrite <- (length_map m_id (filter _ ms)).
  apply Nat.le_antisymm; apply NoDup_incl_length.
  - now apply NoDup_map_filter.
  - intros i Hi. apply in_map_iff in Hi. destruct Hi as (m & <- & Hm).
    apply filter_In in Hm. destruct Hm as [_ Hm]. apply andb_true_iff in Hm.
    now apply inb_In.
  - exact HB.
  - intros b Hb. destruct (Hsel b Hb) as (m & Hm & <- & Hq).
    apply in_map. apply filter_In. split; [assumption|].
    rewrite Hq. simpl. now apply inb_In.
Qed.

Lemma join_contacts_length cs ms :
  NoDup (map c_id cs) ->
  (forall m, In m ms -> exists c, In c cs /\ c_id c = m_contact_id m) ->
  List.length (join_contacts cs ms) = List.length ms.
Proof.
  intros Hnd. induction ms as [|m ms IH]; intros Href; simpl; [reflexivity|].
  rewrite length_app, length_map, IH by (intros x Hx; apply Href; now right).
  destruct (filter_key_unique c_id cs (m_contact_id m) Hnd) as [E|[c E]]; rewrite E.
  - exfalso. destruct (Href m (or_introl eq_refl)) as (c & Hc & Hid).
    assert (Hin : In c (filter (fun a => c_id a =? m_contact_id m) cs)).
    { apply filter_In. split; [assumption | now apply Z.eqb_eq]. }
    rewrite E in Hin. destruct Hin.
  - reflexivity.
Qed.

Section Drain.

Variable cfg : Config.
Variable env : Env.

Lemma batch_length w :
  db_wf (w_db w) = true -> refs_ok (w_db w) ->
  List.length (batch_of cfg w)
    = Nat.min (Z.to_nat (SEND_PER_SECOND cfg)) (queued_count (w_db w)).
Proof.
  intros Hwf Href. unfold batch_of, select_queued, queued_count.
  rewrite length_firstn.
  rewrite (Permutation_length (order_by_created_at_perm _)).
  rewrite join_contacts_length; [reflexivity | now apply db_wf_contacts |].
  intros m Hm. apply filter_In in Hm. apply Href, Hm.
Qed.

Lemma apply_outcome_contact o m : m_contact_id (apply_outcome o m) = m_contact_id m.
Proof. destruct o; reflexivity. Qed.

Lemma tick_keeps_refs w :
  db_wf (w_db w) = true -> refs_ok (w_db w) ->
  refs_ok (w_db (snd (process_queue_tick cfg env w))).
Proof.
  intros Hwf Href m' Hm'.
  destruct (tick_effect cfg env w Hwf) as (Hstep & Hc & _).
  destruct (Forall2_in_r _ _ _ _ Hstep Hm') as (m & Hm & Hmm).
  destruct (Href m Hm) as (c & Hcin & Hid). exists c. rewrite Hc.
  split; [assumption|].
  destruct Hmm as [->|(_ & o & ->)]; [assumption|].
  now rewrite apply_outcome_contact.
Qed.

(** One tick, the store not failing, takes exactly the batch out of the
    queue. *)
Lemma tick_queue_count w :
  db_wf (w_db w) = true -> refs_ok (w_db w) -> no_faults env ->
  queued_count (w_db (snd (process_queue_tick cfg env w)))
    = (queued_count (w_db w)
       - Nat.min (Z.to_nat (SEND_PER_SECOND cfg)) (queued_count (w_db w)))%nat.
Proof.
  intros Hwf Href Hnf.
  pose proof (select_queued_ready (SEND_PER_SECOND cfg) (w_db w) Hwf) as Hready.
  fold (batch_of cfg w) in Hready.
  rewrite <- (batch_length w Hwf Href).
  set (B := map rid (batch_of cfg w)).
  assert (Hafter : Forall2 (fun m m' => is_queued m' = is_queued m && negb (inb (m_id m) B))
                     (messages (w_db w))
                     (messages (w_db (snd (process_queue_tick cfg env w))))).
  { pose proof (tick_evolves cfg env w Hwf) as [_ _ Hwf'].
    pose proof (db_wf_messages _ Hwf') as Hnd'.
    destruct (tick_effect cfg env w Hwf) as (Hstep & _).
    destruct (tick_loop cfg env w (Hnf _)) as [Hm _].
    destruct (rows_loop_complete cfg env (batch_of cfg w) (next_step w) Hnf Hready)
      as [_ Hrows].
    eapply Forall2_impl_in with (R := fun m m' => In m' (messages (w_db (snd
             (process_queue_tick cfg env w)))) /\ msg_step m m').
    - intros m m' Hin [Hin' Hmm].
      destruct (inb (m_id m) B) eqn:Eb.
      + rewrite andb_false_r. apply inb_In in Eb. subst B. apply in_map_iff in Eb.
        destruct Eb as (r & Hid & Hr).
        destruct (Hrows r Hr) as (x & o & cs & k & Hrun & _ & _ & _ & _ & Hfin).
        fold (after_loop cfg env w) in Hfin. rewrite <- Hm in Hfin.
        assert (m' = apply_outcome o (r_msg r)).
        { eapply NoDup_map_inj; [exact Hnd' | exact Hin' | exact Hfin |].
          rewrite apply_outcome_id, (msg_step_id _ _ Hmm). now symmetry. }
        subst m'. unfold is_queued.
        destruct (row_run_no_faults _ _ _ _ _ _ _ _ Hnf Hrun)
          as [_ [(_ & -> & _)|[(_ & -> & _)|(_ & _ & [(p & _ & -> & _)|(e & _ & ->)])]]];
          reflexivity.
      + rewrite andb_true_r.
        assert (Hstay : In m (messages (w_db (snd (process_queue_tick cfg env w))))).
        { rewrite Hm. apply rows_loop_untouched; [exact Hin|].
          intros Hb. apply inb_In in Hb. fold B in Hb. congruence. }
        assert (m' = m).
        { eapply NoDup_map_inj; [exact Hnd' | exact Hin' | exact Hstay |].
          apply (msg_step_id _ _ Hmm). }
        now subst.
    - now apply Forall2_with_in_r. }
  unfold queued_count at 1. rewrite (Forall2_filter_length _ _ _ _ Hafter).
  pose proof (filter_split_length is_queued (fun m => inb (m_id m) B) (messages (w_db w)))
    as Hsplit.
  cbv beta in Hsplit.
  rewrite (selected_count (messages (w_db w)) B) in Hsplit.
  - unfold queued_count. subst B. rewrite length_map in Hsplit. lia.
  - now apply db_wf_messages.
  - apply Hready.
  - intros b Hb. subst B. apply in_map_iff in Hb. destruct Hb as (r & <- & Hr).
    destruct Hready as (_ & _ & Hin). destruct (Hin r Hr) as [Hm Hq].
    exists (r_msg r). repeat split; auto. unfold is_queued. now rewrite Hq.
Qed.

Lemma worker_loop_world k : forall w,
  fst (worker_loop cfg env k w) = inl tt /\
  snd (worker_loop cfg env k w) = run_ops cfg env (repeat OpTick k) w.
Proof.
  induction k as [|k IH]; intros w; simpl; [auto|].
  unfold bind. destruct (worker_turn_absorbs cfg env w) as [Hres Hw].
  destruct (worker_turn cfg env w) as [r w1]; simpl in *. subst r w1. apply IH.
Qed.

(** The worker drains the queue.  On a well-formed store in which every
    message points at a stored contact, with a store that does not fail,
    [worker_loop] never raises and after k turns exactly min(k * N, q) of
    the q messages that were queued have left the queue, N the rate limit;
    so once k * N reaches q nothing is left queued (as long as nothing new
    is activated). *)
Theorem worker_drains_queue (k : nat) (w : World) :
  db_wf (w_db w) = true -> refs_ok (w_db w) -> no_faults env ->
  fst (worker_loop cfg env k w) = inl tt /\
  queued_count (w_db (snd (worker_loop cfg env k w)))
    = (queued_count (w_db w)
       - Nat.min (k * Z.to_nat (SEND_PER_SECOND cfg)) (queued_count (w_db w)))%nat.
Proof.
  intros Hwf Href Hnf. destruct (worker_loop_world k w) as [Hres ->].
  split; [exact Hres|]. clear Hres. revert w Hwf Href.
  induction k as [|k IH]; intros w Hwf Href; simpl; [lia|].
  rewrite IH.
  - rewrite (tick_queue_count w Hwf Href Hnf). lia.
  - apply (tick_evolves cfg env w Hwf).
  - now apply tick_keeps_refs.
Qed.

End Drain.

Lemma worker_drains_queue_witness :
  queued_count (w_db (snd (worker_loop Demo.cfg Demo.env 2 Demo.world))) = 0%nat.
Proof.
  refine (eq_trans (proj2 (worker_drains_queue Demo.cfg Demo.env 2 Demo.world eq_refl _
                            (fun _ => eq_refl))) eq_refl).
  intros m Hm. simpl in Hm.
  destruct Hm as [<-|[<-|[<-|[<-|[<-|[]]]]]];
    [exists Demo.ann|exists Demo.ann|exists Demo.ann|exists Demo.bob|exists Demo.cy];
    simpl; auto.
Defined.

(** * More of [app.py]: the audit trail *)

(** The audit log after is the log before with at most [n] entries added
    at its end. *)
Definition log_grown (n : nat) (d d' : DB) : Prop :=
  exists l, audit_log d' = audit_log d ++ l /\ (List.length l <= n)%nat.

Lemma log_grown_same n d d' : audit_log d' = audit_log d -> log_grown n d d'.
Proof. intros E. exists []. rewrite app_nil_r. split; [exact E | simpl; lia]. Qed.

Lemma log_grown_trans n m d1 d2 d3 :
  log_grown n d1 d2 -> log_grown m d2 d3 -> log_grown (n + m) d1 d3.
Proof.
  intros (l1 & E1 & L1) (l2 & E2 & L2). exists (l1 ++ l2).
  rewrite E2, E1, app_assoc, length_app. split; [reflexivity | lia].
Qed.

Lemma log_grown_le n m d d' : (n <= m)%nat -> log_grown n d d' -> log_grown m d d'.
Proof. intros Hle (l & E & L). exists l. split; [exact E | lia]. Qed.

(** A computation that adds at most [n] entries to the audit log and
    rewrites none. *)
Definition logs {A} (n : nat) (c : M A) : Prop :=
  forall w, log_grown n (w_db w) (w_db (snd (c w))).

Lemma logs_ret {A} (a : A) : logs 0 (ret a).
Proof. intros w. now apply log_grown_same. Qed.

Lemma logs_raise {A} e : logs 0 (@raise A e).
Proof. intros w. now apply log_grown_same. Qed.

Lemma logs_bind {A B} n m (c : M A) (k : A -> M B) :
  logs n c -> (forall a, logs m (k a)) -> logs (n + m) (bind c k).
Proof.
  intros Hc Hk w. unfold bind. specialize (Hc w).
  destruct (c w) as [[a|e] w1]; simpl in *.
  - eapply log_grown_trans; [exact Hc | apply Hk].
  - eapply log_grown_le; [|exact Hc]. lia.
Qed.

Lemma logs_transaction {A} n (c : M A) : logs n c -> logs n (transaction c).
Proof.
  intros Hc w. unfold transaction. specialize (Hc w).
  destruct (c w) as [[a|e] w1]; simpl in *; [assumption | now apply log_grown_same].
Qed.

Lemma logs_for_each {A} (body : A -> M unit) l :
  (forall x, logs 0 (body x)) -> logs 0 (for_each body l).
Proof.
  intros H. induction l as [|x xs IH]; simpl; [apply logs_ret|].
  apply (logs_bind 0 0); auto.
Qed.

(** The operations that end with a call of [audit]. *)
Definition audited (op : Op) : bool :=
  match op with
  | OpStartup | OpTick => false
  | _ => true
  end.

Section AuditTrail.

Variable cfg : Config.
Variable env : Env.

Lemma logs_query {A} (q : DB -> Time -> A) : logs 0 (sql_query env q).
Proof.
  intros w. unfold sql_query.
  destruct (store_fault env (w_steps w)); now apply log_grown_same.
Qed.

Lemma logs_exec (u : DB -> Time -> DB) :
  (forall d t, audit_log (u d t) = audit_log d) -> logs 0 (sql_exec env u).
Proof.
  intros H w. unfold sql_exec.
  destruct (store_fault env (w_steps w)); simpl; apply log_grown_same; auto.
Qed.

Lemma logs_bind_int z : logs 0 (bind_int z).
Proof. unfold bind_int. destruct (fits_int64 z); [apply logs_ret | apply logs_raise]. Qed.

Lemma logs_audit action meta : logs 1 (audit env action meta).
Proof.
  intros w. unfold audit, sql_exec.
  destruct (store_fault env (w_steps w)); simpl; [now apply log_grown_same|].
  exists [(action, meta)]. split; [reflexivity | simpl; lia].
Qed.

Lemma upsert_contact_log name phone tags consented d t :
  audit_log (upsert_contact name phone tags consented d t) = audit_log d.
Proof. reflexivity. Qed.

Lemma logs_op op w :
  db_wf (w_db w) = true ->
  log_grown (if audited op then 1 else 0) (w_db w) (w_db (snd (run_op cfg env op w))).
Proof.
  intros Hwf. destruct op; simpl.
  - apply logs_exec. reflexivity.
  - apply log_grown_same. apply (tick_effect cfg env w Hwf).
  - apply (logs_bind 0 1); [|intros; apply logs_audit].
    apply logs_exec. reflexivity.
  - apply (logs_bind 0 1); [|intros; apply logs_audit].
    apply logs_transaction, logs_for_each. intros row.
    apply logs_exec. reflexivity.
  - apply (logs_bind 0 1); [apply logs_bind_int|]. intros _.
    apply (logs_bind 0 1); [|intros; apply logs_audit].
    apply logs_exec. reflexivity.
  - apply (logs_bind 0 1); [apply logs_exec; reflexivity|].
    intros _. apply (logs_bind 0 1); [|intros; apply logs_audit].
    intros x. now apply log_grown_same.
  - apply (logs_bind 0 1); [|intros; apply logs_audit].
    apply logs_transaction.
    apply (logs_bind 0 0); [apply logs_bind_int|]. intros _.
    apply (logs_bind 0 0); [apply logs_query|].
    intros [camp|]; [|apply logs_raise].
    apply (logs_bind 0 0); [apply logs_query|]. intros recipients.
    apply (logs_bind 0 0); [apply logs_exec; reflexivity|].
    intros _. apply (logs_bind 0 0); [|intros; apply logs_ret].
    apply logs_for_each. intros c. apply logs_exec. reflexivity.
  - apply (logs_bind 0 1); [|intros; apply logs_audit].
    apply logs_exec. reflexivity.
Qed.

(** The audit trail is append-only.  Through any history of operations on
    a well-formed store, whatever fails, the entries already in the audit
    log stay where they are, and the history adds at most one entry per
    handler call at the end; ticks of the worker and start-ups add none. *)
Theorem audit_trail_append_only (ops : list Op) (w : World) :
  db_wf (w_db w) = true ->
  exists l,
    audit_log (w_db (run_ops cfg env ops w)) = audit_log (w_db w) ++ l /\
    (List.length l <= List.length (filter audited ops))%nat.
Proof.
  revert w. induction ops as [|op ops IH]; intros w Hwf; simpl.
  - exists []. rewrite app_nil_r. split; [reflexivity | simpl; lia].
  - destruct (logs_op op w Hwf) as (l1 & E1 & L1).
    destruct (IH (snd (run_op cfg env op w))) as (l2 & E2 & L2).
    { apply (op_evolves cfg env op w Hwf). }
    exists (l1 ++ l2). rewrite E2, E1, app_assoc, length_app.
    split; [reflexivity|]. destruct (audited op); simpl in *; lia.
Qed.

End AuditTrail.

Lemma audit_trail_append_only_witness :
  exists l,
    audit_log (w_db (run_ops Demo.cfg Demo.env
                       [OpUnsubscribe "+254700000001"; OpTick] Demo.world))
      = audit_log (w_db Demo.world) ++ l /\
    (List.length l <= 1)%nat.
Proof.
  exact (audit_trail_append_only Demo.cfg Demo.env
           [OpUnsubscribe "+254700000001"; OpTick] Demo.world eq_refl).
Defined.

(** * More of [app.py]: the admin token *)

(** What the handlers read of a request: [request.query_params.get("token")]
    and [request.headers.get("x-admin-token")]. *)
Record Request := mkRequest {
  query_token : option string;
  header_token : option string
}.

(** Python's [a or b] on optional strings. *)
Definition py_or (a b : option string) : option string :=
  match truthy_str a with
  | Some s => Some s
  | None => b
  end.

Inductive Response :=
| RedirectResponse (url : string)
| TemplateResponse (name : string).

Section Auth.

Variable ADMIN_TOKEN : string.

Definition require_admin (request : Request) : M string :=
  let token := py_or (query_token request) (header_token request) in
  match truthy_str token with
  | None => raise (HTTPException 401 "Unauthorized")
  | Some t =>
      if negb (String.eqb t ADMIN_TOKEN)
      then raise (HTTPException 401 "Unauthorized")
      else ret t
  end.

Definition home (request : Request) : Response :=
  match query_token request with
  | Some token =>
      if String.eqb token ADMIN_TOKEN
      then RedirectResponse ("/dashboard?token=" ++ token)%string
      else TemplateResponse "login.html"
  | None => TemplateResponse "login.html"
  end.

Lemma truthy_str_some o s : truthy_str o = Some s -> o = Some s /\ s <> "".
Proof.
  destruct o as [[|c t]|]; simpl; intros H; inversion H; subst.
  split; [reflexivity | discriminate].
Qed.

Lemma truthy_str_none o : truthy_str o = None -> o = None \/ o = Some "".
Proof. destruct o as [[|c t]|]; simpl; intros H; auto; discriminate. Qed.

Lemma require_admin_cases request w :
  (exists t, require_admin request w = (inl t, w) /\ t = ADMIN_TOKEN /\ t <> "" /\
             py_or (query_token request) (header_token request) = Some t) \/
  require_admin request w = (inr (HTTPException 401 "Unauthorized"), w).
Proof.
  unfold require_admin.
  destruct (truthy_str (py_or _ _)) as [t|] eqn:E; [|now right].
  apply truthy_str_some in E. destruct E as [E Hne].
  destruct (String.eqb_spec t ADMIN_TOKEN) as [Heq|Hneq]; simpl; [|now right].
  left. exists t. auto.
Qed.

(** Who gets past [require_admin].  The dependency touches nothing and
    either raises 401 or returns the request's token, which then is the
    admin token and is not empty.  The token of the query string shadows
    the header: a non-empty query token that is wrong is refused even when
    the header carries the right token, while an absent or empty query
    token lets the header decide.  With an empty ADMIN_TOKEN every request
    is refused. *)
Theorem require_admin_decision (request : Request) (w : World) :
  snd (require_admin request w) = w /\
  (forall t, fst (require_admin request w) = inl t ->
             t = ADMIN_TOKEN /\ t <> "" /\
             (query_token request = Some t \/ header_token request = Some t)) /\
  (forall e, fst (require_admin request w) = inr e ->
             e = HTTPException 401 "Unauthorized") /\
  (forall q, query_token request = Some q -> q <> "" -> q <> ADMIN_TOKEN ->
             fst (require_admin request w) = inr (HTTPException 401 "Unauthorized")) /\
  (truthy_str (query_token request) = None ->
   header_token request = Some ADMIN_TOKEN -> ADMIN_TOKEN <> "" ->
   fst (require_admin request w) = inl ADMIN_TOKEN) /\
  (ADMIN_TOKEN = "" ->
   fst (require_admin request w) = inr (HTTPException 401 "Unauthorized")).
Proof.
  destruct (require_admin_cases request w) as [(t & E & Ht & Hne & Hor)|E]; rewrite E;
    simpl; (split; [reflexivity|]).
  - split.
    { intros t' H. inversion H; subst t'. repeat split; auto.
      unfold py_or in Hor. destruct (truthy_str (query_token request)) as [s|] eqn:Eq.
      - apply truthy_str_some in Eq. left. destruct Eq as [-> _]. exact Hor.
      - now right. }
    split; [discriminate|]. split.
    { intros q Hq Hqne Hqw. exfalso. unfold py_or in Hor. rewrite Hq in Hor.
      destruct q; [contradiction|]. simpl in Hor. inversion Hor. congruence. }
    split; [intros; congruence|].
    intros Hempty. congruence.
  - split; [discriminate|]. split; [intros e H; now inversion H|].
    split; [reflexivity|]. split; [|reflexivity].
    intros Hq Hh Hne. exfalso.
    unfold require_admin, py_or in E. rewrite Hq, Hh in E.
    destruct ADMIN_TOKEN as [|c s] eqn:Ea; [contradiction|].
    simpl in E. rewrite Ascii.eqb_refl, String.eqb_refl in E. discriminate.
Qed.

(** The login page and the guard of the dashboard judge a request alike,
    but for an empty ADMIN_TOKEN.  [home] redirects exactly the requests
    whose query token is the admin token, to '/dashboard?token=' followed
    by the token as it is, not escaped.  Such a request passes
    [require_admin], whatever header it carries, unless ADMIN_TOKEN is
    empty: then [home] redirects the request with the empty token and
    [require_admin] refuses it. *)
Theorem home_and_require_admin (request : Request) (w : World) :
  (forall url, home request = RedirectResponse url ->
     query_token request = Some ADMIN_TOKEN /\
     url = ("/dashboard?token=" ++ ADMIN_TOKEN)%string) /\
  (query_token request = Some ADMIN_TOKEN ->
   home request = RedirectResponse ("/dashboard?token=" ++ ADMIN_TOKEN)%string /\
   fst (require_admin request w)
     = if String.eqb ADMIN_TOKEN ""
       then inr (HTTPException 401 "Unauthorized")
       else inl ADMIN_TOKEN).
Proof.
  split.
  - intros url H. unfold home in H.
    destruct (query_token request) as [q|]; [|discriminate].
    destruct (String.eqb q ADMIN_TOKEN) eqn:Eq; [|discriminate].
    apply String.eqb_eq in Eq. inversion H. rewrite Eq. split; reflexivity.
  - intros Hq. split; [unfold home; now rewrite Hq, String.eqb_refl|].
    unfold require_admin, py_or. rewrite Hq.
    destruct (String.eqb_spec ADMIN_TOKEN "") as [Ea|Ea].
    + rewrite Ea. simpl. destruct (header_token request) as [[|c' s']|]; reflexivity.
    + destruct ADMIN_TOKEN as [|c s]; [contradiction|].
      simpl. now rewrite Ascii.eqb_refl, String.eqb_refl.
Qed.

End Auth.

Lemma require_admin_decision_witness :
  fst (require_admin "change_me_now"
         (mkRequest (Some "guess") (Some "change_me_now")) Demo.world)
    = inr (HTTPException 401 "Unauthorized").
Proof.
  exact (proj1 (proj2 (proj2 (proj2
           (require_admin_decision "change_me_now"
              (mkRequest (Some "guess") (Some "change_me_now")) Demo.world))))
         "guess" eq_refl ltac:(discriminate) ltac:(discriminate)).
Defined.

Lemma home_and_require_admin_witness :
  home "a&b" (mkRequest (Some "a&b") None) = RedirectResponse "/dashboard?token=a&b" /\
  fst (require_admin "a&b" (mkRequest (Some "a&b") None) Demo.world) = inl "a&b"%string.
Proof.
  exact (proj2 (home_and_require_admin "a&b" (mkRequest (Some "a&b") None) Demo.world)
               eq_refl).
Defined.

(** * More of [app.py]: message bodies *)

Fixpoint brace_free (s : string) : bool :=
  match s with
  | EmptyString => true
  | String c s' => negb (Ascii.eqb c "{") && brace_free s'
  end.

Lemma replace_brace_free (old' new s : string) :
  brace_free s = true -> Str.replace (String "{" old') new s = s.
Proof.
  unfold Str.replace. induction s as [|c s IH]; [reflexivity|].
  cbn [brace_free Str.replace_from Str.starts_with].
  intros H. apply andb_true_iff in H. destruct H as [Hc Hs].
  apply negb_true_iff in Hc. rewrite Ascii.eqb_sym in Hc. rewrite Hc.
  cbn [andb]. now rewrite IH.
Qed.

Lemma string_app_assoc (a b c : string) : ((a ++ b) ++ c = a ++ (b ++ c))%string.
Proof. induction a as [|x a IH]; simpl; [reflexivity | now rewrite IH]. Qed.

Section Bodies.

Variable cfg : Config.
Variable env : Env.

(** A template without an opening brace is sent as written.  Rendering it
    for any contact returns the template itself, whatever the contact's
    name, phone and tags, so every message an activation queues for such a
    campaign carries the stripped template, a newline, and the opt-out line
    with the recipient's own unsubscribe link. *)
Theorem plain_template_verbatim (campaign_id : Z) (camp : Campaign) (c : Contact)
    (m : Message) :
  brace_free (g_message_template camp) = true ->
  render_template (g_message_template camp) c = g_message_template camp /\
  (queued_for cfg campaign_id camp c m ->
   m_body m = (Str.strip (g_message_template camp) ++ newline ++ "Opt out: " ++
               PUBLIC_BASE_URL cfg ++ "/u/" ++ c_phone c)%string).
Proof.
  intros Hfree.
  assert (Hrender : render_template (g_message_template camp) c = g_message_template camp).
  { unfold render_template.
    rewrite (replace_brace_free _ (c_name c) _ Hfree).
    rewrite (replace_brace_free _ (c_phone c) _ Hfree).
    apply (replace_brace_free _ (c_tags c) _ Hfree). }
  split; [exact Hrender|].
  intros (_ & _ & _ & Hbody & _). rewrite Hbody. unfold message_body.
  rewrite Hrender. now rewrite string_app_assoc.
Qed.

End Bodies.

Lemma plain_template_verbatim_witness :
  render_template (g_message_template Demo.draft) Demo.ann = g_message_template Demo.draft.
Proof.
  exact (proj1 (plain_template_verbatim Demo.cfg 2 Demo.draft Demo.ann Demo.m_ann eq_refl)).
Defined.

(** * More of [app.py]: opting out an unknown contact *)

Lemma map_unselected {A} (sel : A -> bool) (f : A -> A) l :
  (forall a, In a l -> sel a = false) ->
  map (fun a => if sel a then f a else a) l = l.
Proof.
  induction l as [|a l IH]; intros H; simpl; [reflexivity|].
  rewrite (H a (or_introl eq_refl)), IH; [reflexivity|].
  intros b Hb. apply H. now right.
Qed.

Section OptOutUnknown.

Variable env : Env.

Lemma opt_out_nobody (sel : Contact -> bool) action meta w :
  no_faults env ->
  (forall c, In c (contacts (w_db w)) -> sel c = false) ->
  exists steps,
    bind (sql_exec env (fun d _ => update_contacts sel set_opted_out d))
         (fun _ => audit env action meta) w
      = (inl tt,
         mkWorld (mkDB (contacts (w_db w)) (campaigns (w_db w)) (messages (w_db w))
                       (audit_log (w_db w) ++ [(action, meta)])
                       (contacts_seq (w_db w)))
                 steps (w_calls w)).
Proof.
  intros Hnf Hsel. unfold bind, audit, sql_exec.
  rewrite (Hnf (w_steps w)). simpl. rewrite (Hnf (S (w_steps w))). simpl.
  rewrite (map_unselected _ _ _ Hsel). eexists. reflexivity.
Qed.

(** Opting out somebody who is not in the contact book.  With a store that
    does not fail, [unsubscribe] of a phone no contact has, and
    [contact_optout] of an id (within 64 bits) no contact has, change no
    contact, no campaign and no message; they return normally all the same
    (the public page confirms the unsubscription) and add their audit
    entry, which then names a phone or an id that is not stored.  An id
    beyond 64 bits makes [contact_optout] raise OverflowError when it is
    bound: nothing is changed and no audit entry is written. *)
Theorem opt_out_of_unknown_contact (w : World) :
  no_faults env ->
  (forall phone,
     ~ In phone (map c_phone (contacts (w_db w))) ->
     let w1 := snd (unsubscribe env phone w) in
     fst (unsubscribe env phone w) = inl tt /\
     contacts (w_db w1) = contacts (w_db w) /\
     campaigns (w_db w1) = campaigns (w_db w) /\
     messages (w_db w1) = messages (w_db w) /\
     audit_log (w_db w1) = audit_log (w_db w) ++ [("contact_optout_public", phone)]) /\
  (forall contact_id,
     fits_int64 contact_id = true ->
     ~ In contact_id (map c_id (contacts (w_db w))) ->
     let w1 := snd (contact_optout env contact_id w) in
     fst (contact_optout env contact_id w) = inl tt /\
     contacts (w_db w1) = contacts (w_db w) /\
     campaigns (w_db w1) = campaigns (w_db w) /\
     messages (w_db w1) = messages (w_db w) /\
     audit_log (w_db w1)
       = audit_log (w_db w) ++ [("contact_optout_admin", Str.of_Z contact_id)]) /\
  (forall contact_id,
     fits_int64 contact_id = false ->
     contact_optout env contact_id w = (inr OverflowError, w)).
Proof.
  intros Hnf. split; [|split].
  - intros phone Hnot. unfold unsubscribe.
    destruct (opt_out_nobody (fun c => String.eqb (c_phone c) phone)
                "contact_optout_public" phone w Hnf) as (steps & E).
    { intros c Hc. apply String.eqb_neq. intros Hp. apply Hnot.
      rewrite <- Hp. now apply in_map. }
    simpl. rewrite E. simpl. repeat split.
  - intros contact_id Hfit Hnot. rewrite (contact_optout_fits env contact_id w Hfit).
    destruct (opt_out_nobody (fun c => c_id c =? contact_id)
                "contact_optout_admin" (Str.of_Z contact_id) w Hnf) as (steps & E).
    { intros c Hc. apply Z.eqb_neq. intros Hp. apply Hnot.
      rewrite <- Hp. now apply in_map. }
    simpl. rewrite E. simpl. repeat split.
  - intros contact_id Hfit. unfold contact_optout, bind, bind_int, raise.
    now rewrite Hfit.
Qed.

End OptOutUnknown.

Lemma opt_out_of_unknown_contact_witness :
  (fst (unsubscribe Demo.env "+254799999999" Demo.world) = inl tt /\
   contacts (w_db (snd (unsubscribe Demo.env "+254799999999" Demo.world)))
     = contacts (w_db Demo.world)) /\
  (fst (contact_optout Demo.env 9 Demo.world) = inl tt /\
   audit_log (w_db (snd (contact_optout Demo.env 9 Demo.world)))
     = [("contact_optout_admin", "9")]) /\
  contact_optout Demo.env (2 ^ 63) Demo.world = (inr OverflowError, Demo.world).
Proof.
  assert (Hnot : ~ In "+254799999999" (map c_phone (contacts (w_db Demo.world)))).
  { simpl. intros [H|[H|[H|[]]]]; discriminate. }
  assert (Hnot9 : ~ In 9 (map c_id (contacts (w_db Demo.world)))).
  { simpl. intros [H|[H|[H|[]]]]; discriminate. }
  destruct (opt_out_of_unknown_contact Demo.env Demo.world (fun _ => eq_refl))
    as (Hu & Ho & Hover).
  destruct (Hu "+254799999999" Hnot) as (H1 & H2 & _).
  destruct (Ho 9 eq_refl Hnot9) as (H3 & _ & _ & _ & H4).
  split; [split; [exact H1 | exact H2]|].
  split; [split; [exact H3 | exact H4]|].
  exact (Hover (2 ^ 63) eq_refl).
Defined.

(** * More of [app.py]: a campaign without recipients *)

Lemma filter_none {A} (f : A -> bool) l :
  (forall a, In a l -> f a = false) <-> filter f l = [].
Proof.
  induction l as [|a l IH]; simpl; [tauto|]. split.
  - intros H. rewrite (H a (or_introl eq_refl)). apply IH. intros b Hb. apply H. now right.
  - destruct (f a) eqn:E; [discriminate|]. intros H b [<-|Hb]; [exact E|].
    now apply IH.
Qed.

Lemma count_left_zero cid d :
  count_left cid d = 0 <->
  forall m, In m (messages d) -> (m_campaign_id m =? cid) && in_flight m = false.
Proof.
  unfold count_left. rewrite filter_none. split.
  - intros H. destruct (filter _ (messages d)); [reflexivity | simpl in H; lia].
  - now intros ->.
Qed.

Lemma apply_outcome_campaign o m : m_campaign_id (apply_outcome o m) = m_campaign_id m.
Proof. destruct o; reflexivity. Qed.

Lemma count_left_stays_zero cid d d' :
  Forall2 msg_step (messages d) (messages d') ->
  count_left cid d = 0 -> count_left cid d' = 0.
Proof.
  intros Hstep Hz. apply count_left_zero. intros m' Hm'.
  destruct (Forall2_in_r _ _ _ _ Hstep Hm') as (m & Hm & Hmm).
  pose proof (proj1 (count_left_zero cid d) Hz m Hm) as Hno.
  destruct Hmm as [->|(Hq & o & ->)]; [exact Hno|].
  rewrite apply_outcome_campaign.
  unfold in_flight in Hno. rewrite Hq in Hno. simpl in Hno.
  rewrite andb_true_r in Hno. now rewrite Hno.
Qed.

Section EmptyCampaign.

Variable cfg : Config.
Variable env : Env.


End EmptyCampaign.

